(** * Call signaling and peer-session negotiation: CallModal and App

    A shallow embedding of the call subsystem of the chat client:
    [types.ts] (the call payloads), the [CallModal] component (media
    acquisition, offer/answer exchange through the Firebase store, candidate
    relay, camera switching, the mute and camera buttons, cleanup) and the
    call handlers of [App]; and, beside it, of [handleSave] of
    [ProfileModal], of the profile [App] writes at a first sign-in, and of
    the chat ids of [Sidebar] and [ChatWindow].

    The component code is written in a state-and-exception monad over a
    [World] that holds the React state and refs of the two components, the
    shared store, the media objects handed out by the browser, the pending
    timers and a trace of every call made to a collaborator (browser, peer
    connection, store).  What the browser and the store answer is not decided
    by this code: it is read from an oracle record [Browser].

    Two conventions.  A call to a collaborator is taken together with its
    settlement: the world after the call is the world after its promise has
    resolved or been rejected; an awaited rejection is thrown, a rejection
    that is not awaited is dropped.  An [async] function and a callback run
    to their end as one step: no other event is interleaved at an [await].

    Where a property depends on what falls between a call and its
    settlement, the two are taken apart: [AnswerListener] has the calls of
    the answer listener that have not settled yet, and
    [endedWhileMediaPending] has the unmount that falls into the pending
    media request. *)

From stdpp Require Import base strings list gmap pretty.
From Stdlib Require Import ZArith Lia.

Open Scope string_scope.
Open Scope list_scope.

(* ================================================================== *)
(** ** types.ts *)

Module UserProfile.
(** [status], [lastSeen] and [unreadChats] are never read by the call code. *)
Record t := mk {
  uid : string;
  email : string;
  displayName : string;
  photoURL : option string
}.
#[global] Instance UserProfile_eq_dec : EqDecision t.
Proof. solve_decision. Defined.
End UserProfile.

Module CallSignal.
Inductive kind := offer | answer.
#[global] Instance kind_eq_dec : EqDecision kind.
Proof. solve_decision. Defined.
Record t := mk { type : kind; sdp : string }.
#[global] Instance CallSignal_eq_dec : EqDecision t.
Proof. solve_decision. Defined.
End CallSignal.

Module IncomingCallData.
Record t := mk {
  callerId : string;
  callerName : string;
  callerPhoto : option string;
  callId : string;
  isVideo : bool;
  offer : CallSignal.t
}.
#[global] Instance IncomingCallData_eq_dec : EqDecision t.
Proof. solve_decision. Defined.
End IncomingCallData.

Module IceCandidateData.
Record t := mk { candidate : string; sdpMid : string; sdpMLineIndex : Z }.
#[global] Instance IceCandidateData_eq_dec : EqDecision t.
Proof. solve_decision. Defined.
End IceCandidateData.

(* ================================================================== *)
(** ** The Firebase Realtime Database, as the code uses it

    A reference [ref(db, `calls/${callId}/status`)] is the list of its path
    segments.  The database is a tree; it is kept here as the finite map from
    the paths of its leaves to their values, so that [remove] and [set] on a
    path discard every leaf below it. *)

Abbreviation Path := (list string).

Inductive DbValue :=
  | VNull
  | VStr (s : string)
  | VSignal (d : CallSignal.t)
  | VCall (d : IncomingCallData.t)
  | VCandidate (c : IceCandidateData.t).

#[global] Instance DbValue_eq_dec : EqDecision DbValue.
Proof. solve_decision. Defined.

Abbreviation Store := (gmap Path DbValue).

Definition db_remove (p : Path) (st : Store) : Store :=
  filter (λ kv, ¬ p `prefix_of` kv.1) st.

Definition db_set (p : Path) (v : DbValue) (st : Store) : Store :=
  match v with
  | VNull => db_remove p st
  | _ => <[p := v]> (filter (λ kv, ¬ p `prefix_of` kv.1 ∧ ¬ kv.1 `prefix_of` p) st)
  end.

Definition db_update (p : Path) (children : list (string * DbValue)) (st : Store) : Store :=
  foldl (λ s kv, db_set (p ++ [kv.1]) kv.2 s) st children.

(* ================================================================== *)
(** ** Browser objects: media devices, streams, the peer connection *)

Inductive TrackKind := AudioTrack | VideoTrack.
#[global] Instance TrackKind_eq_dec : EqDecision TrackKind.
Proof. solve_decision. Defined.

Module MediaStreamTrack.
(** [deviceId] is [getSettings().deviceId]; whether the track is stopped is
    kept in the world, since a track is shared by the stream and the sender. *)
Record t := mk { id : nat; kind : TrackKind; deviceId : option string }.
#[global] Instance MediaStreamTrack_eq_dec : EqDecision t.
Proof. solve_decision. Defined.
End MediaStreamTrack.

Inductive DeviceKind := audioinput | audiooutput | videoinput.
#[global] Instance DeviceKind_eq_dec : EqDecision DeviceKind.
Proof. solve_decision. Defined.

Module MediaDeviceInfo.
Record t := mk { deviceId : string; kind : DeviceKind }.
#[global] Instance MediaDeviceInfo_eq_dec : EqDecision t.
Proof. solve_decision. Defined.
End MediaDeviceInfo.

(** The three shapes of [video:] constraint the component asks for. *)
Inductive VideoConstraint :=
  | video_false
  | video_facingMode_user
  | video_deviceId_exact (deviceId : string).
#[global] Instance VideoConstraint_eq_dec : EqDecision VideoConstraint.
Proof. solve_decision. Defined.

Module MediaStreamConstraints.
Record t := mk { video : VideoConstraint; audio : bool }.
#[global] Instance MediaStreamConstraints_eq_dec : EqDecision t.
Proof. solve_decision. Defined.
End MediaStreamConstraints.

Inductive RTCPeerConnectionState :=
  | new_ | connecting | connected | disconnected | failed | closed.
#[global] Instance RTCPeerConnectionState_eq_dec : EqDecision RTCPeerConnectionState.
Proof. solve_decision. Defined.

Module RTCRtpSender.
Record t := mk { track : option MediaStreamTrack.t }.
#[global] Instance RTCRtpSender_eq_dec : EqDecision t.
Proof. solve_decision. Defined.
End RTCRtpSender.

Module RTCPeerConnection.
(** The part of the peer connection the component reads or drives: its
    connection state, the four description slots and its senders. *)
Record t := mk {
  connectionState : RTCPeerConnectionState;
  pendingLocalDescription : option CallSignal.t;
  pendingRemoteDescription : option CallSignal.t;
  currentLocalDescription : option CallSignal.t;
  currentRemoteDescription : option CallSignal.t;
  senders : list RTCRtpSender.t
}.
#[global] Instance RTCPeerConnection_eq_dec : EqDecision t.
Proof. solve_decision. Defined.

(** [new RTCPeerConnection(servers)] *)
Definition fresh : t := mk new_ None None None None [].

Definition with_connectionState (s : RTCPeerConnectionState) (pc : t) : t :=
  mk s (pendingLocalDescription pc) (pendingRemoteDescription pc)
     (currentLocalDescription pc) (currentRemoteDescription pc) (senders pc).

Definition with_senders (l : list RTCRtpSender.t) (pc : t) : t :=
  mk (connectionState pc) (pendingLocalDescription pc) (pendingRemoteDescription pc)
     (currentLocalDescription pc) (currentRemoteDescription pc) l.

(** A description the browser accepts moves through the slots as in the
    offer/answer model: an offer waits in the pending slot of its side, an
    answer settles both sides into the current slots. *)
Definition applyLocal (d : CallSignal.t) (pc : t) : t :=
  match CallSignal.type d with
  | CallSignal.offer =>
      mk (connectionState pc) (Some d) (pendingRemoteDescription pc)
         (currentLocalDescription pc) (currentRemoteDescription pc) (senders pc)
  | CallSignal.answer =>
      mk (connectionState pc) None None
         (Some d) (pendingRemoteDescription pc) (senders pc)
  end.

Definition applyRemote (d : CallSignal.t) (pc : t) : t :=
  match CallSignal.type d with
  | CallSignal.offer =>
      mk (connectionState pc) (pendingLocalDescription pc) (Some d)
         (currentLocalDescription pc) (currentRemoteDescription pc) (senders pc)
  | CallSignal.answer =>
      mk (connectionState pc) None None
         (pendingLocalDescription pc) (Some d) (senders pc)
  end.
End RTCPeerConnection.

Module HTMLVideoElement.
(** [srcObject] refers to a stream by its identity. *)
Record t := mk { srcObject : option nat }.
#[global] Instance HTMLVideoElement_eq_dec : EqDecision t.
Proof. solve_decision. Defined.
End HTMLVideoElement.

(* ================================================================== *)
(** ** Calls to collaborators, errors, registered callbacks *)

Inductive Listener := statusListener | answerListener | candidatesListener.
#[global] Instance Listener_eq_dec : EqDecision Listener.
Proof. solve_decision. Defined.

Inductive Callback := cb_onEndCall.
#[global] Instance Callback_eq_dec : EqDecision Callback.
Proof. solve_decision. Defined.

Inductive Effect :=
  | GetUserMedia (c : MediaStreamConstraints.t)
  | EnumerateDevices
  | NewRTCPeerConnection
  | AddTrack (t : MediaStreamTrack.t) (stream : nat)
  | CreateOffer
  | CreateAnswer
  | SetLocalDescription (d : CallSignal.t)
  | SetRemoteDescription (d : CallSignal.t)
  | AddIceCandidate (c : IceCandidateData.t)
  | ReplaceTrack (sender : nat) (t : option MediaStreamTrack.t)
  | TrackStop (t : MediaStreamTrack.t)
  | Close
  | DbSet (p : Path) (v : DbValue)
  | DbUpdate (p : Path) (children : list (string * DbValue))
  | DbRemove (p : Path)
  | DbPush (p : Path) (v : DbValue)
  | OnValue (p : Path) (l : Listener)
  | Off (p : Path)
  | SetTimeout (cb : Callback) (ms : Z)
  | ConsoleError (msg : string).

#[global] Instance Effect_eq_dec : EqDecision Effect.
Proof. solve_decision. Defined.

Inductive Error :=
  | Rejected (e : Effect)      (* the promise of this call was rejected *)
  | TypeError (msg : string).

(** What the collaborators answer.  [None] or [false] is a rejected promise. *)
Record Browser := {
  mediaGranted : nat → MediaStreamConstraints.t → option (list MediaStreamTrack.t);
  devices : option (list MediaDeviceInfo.t);
  offerSdp : option string;
  answerSdp : option string;
  acceptsLocal : RTCPeerConnection.t → CallSignal.t → bool;
  acceptsRemote : RTCPeerConnection.t → CallSignal.t → bool;
  acceptsCandidate : RTCPeerConnection.t → IceCandidateData.t → bool;
  acceptsReplace : option MediaStreamTrack.t → bool;
  storeAccepts : Path → bool
}.

(* ================================================================== *)
(** ** React state of the two components *)

Module AppState.
(** The [useState] cells of [App] that the call handlers read or write. *)
Record t := mk {
  userProfile : option UserProfile.t;
  selectedPartner : option UserProfile.t;
  isInCall : bool;
  incomingCall : option IncomingCallData.t;
  isVideoCall : bool
}.
#[global] Instance AppState_eq_dec : EqDecision t.
Proof. solve_decision. Defined.
End AppState.

Module CallModalProps.
(** [onEndCall] is always [App]'s [endCall]; it is not a field. *)
Record t := mk {
  currentUser : UserProfile.t;
  partner : option UserProfile.t;
  incomingCall : option IncomingCallData.t;
  isVideo : bool
}.
#[global] Instance CallModalProps_eq_dec : EqDecision t.
Proof. solve_decision. Defined.
End CallModalProps.

Module CallModalState.
(** The [useState] cells and [useRef] cells of [CallModal].  The stream in
    [localStream] is referred to by its identity.  [isMuted] and
    [isCameraOff] belong to the mute and camera toggles, and are kept with
    them in [Controls.t]. *)
Record t := mk {
  connectionStatus : string;
  hasMultipleCameras : bool;
  localVideoRef : option HTMLVideoElement.t;
  remoteVideoRef : option HTMLVideoElement.t;
  peerConnection : option RTCPeerConnection.t;
  localStream : option nat
}.
#[global] Instance CallModalState_eq_dec : EqDecision t.
Proof. solve_decision. Defined.

(** The state of a freshly rendered component: both video elements are in
    the document before the effect runs. *)
Definition initial : t :=
  mk "Connecting..." false
     (Some (HTMLVideoElement.mk None)) (Some (HTMLVideoElement.mk None))
     None None.

Definition with_connectionStatus (s : string) (c : t) : t :=
  mk s (hasMultipleCameras c) (localVideoRef c) (remoteVideoRef c)
     (peerConnection c) (localStream c).
Definition with_hasMultipleCameras (b : bool) (c : t) : t :=
  mk (connectionStatus c) b (localVideoRef c) (remoteVideoRef c)
     (peerConnection c) (localStream c).
Definition with_localVideoRef (v : option HTMLVideoElement.t) (c : t) : t :=
  mk (connectionStatus c) (hasMultipleCameras c) v (remoteVideoRef c)
     (peerConnection c) (localStream c).
Definition with_remoteVideoRef (v : option HTMLVideoElement.t) (c : t) : t :=
  mk (connectionStatus c) (hasMultipleCameras c) (localVideoRef c) v
     (peerConnection c) (localStream c).
Definition with_peerConnection (pc : option RTCPeerConnection.t) (c : t) : t :=
  mk (connectionStatus c) (hasMultipleCameras c) (localVideoRef c) (remoteVideoRef c)
     pc (localStream c).
Definition with_localStream (s : option nat) (c : t) : t :=
  mk (connectionStatus c) (hasMultipleCameras c) (localVideoRef c) (remoteVideoRef c)
     (peerConnection c) s.
End CallModalState.

(* ================================================================== *)
(** ** The world and the monad of component code *)

Record World := mkWorld {
  cm : CallModalState.t;                       (* the mounted CallModal *)
  app : AppState.t;                            (* App *)
  store : Store;                               (* the signaling store *)
  streams : gmap nat (list MediaStreamTrack.t);(* MediaStream objects *)
  stopped : gset nat;                          (* ids of stopped tracks *)
  mediaRequests : nat;                         (* getUserMedia calls so far *)
  pushed : nat;                                (* push keys handed out so far *)
  listeners : list (Path * Listener);          (* onValue registrations *)
  timers : list (Z * Callback);                (* pending setTimeout calls *)
  trace : list Effect                          (* calls to collaborators *)
}.

Definition with_cm (f : CallModalState.t → CallModalState.t) (w : World) : World :=
  mkWorld (f (cm w)) (app w) (store w) (streams w) (stopped w) (mediaRequests w)
          (pushed w) (listeners w) (timers w) (trace w).
Definition with_app (f : AppState.t → AppState.t) (w : World) : World :=
  mkWorld (cm w) (f (app w)) (store w) (streams w) (stopped w) (mediaRequests w)
          (pushed w) (listeners w) (timers w) (trace w).
Definition with_store (f : Store → Store) (w : World) : World :=
  mkWorld (cm w) (app w) (f (store w)) (streams w) (stopped w) (mediaRequests w)
          (pushed w) (listeners w) (timers w) (trace w).
Definition with_streams
    (f : gmap nat (list MediaStreamTrack.t) → gmap nat (list MediaStreamTrack.t))
    (w : World) : World :=
  mkWorld (cm w) (app w) (store w) (f (streams w)) (stopped w) (mediaRequests w)
          (pushed w) (listeners w) (timers w) (trace w).
Definition with_stopped (f : gset nat → gset nat) (w : World) : World :=
  mkWorld (cm w) (app w) (store w) (streams w) (f (stopped w)) (mediaRequests w)
          (pushed w) (listeners w) (timers w) (trace w).
Definition with_mediaRequests (f : nat → nat) (w : World) : World :=
  mkWorld (cm w) (app w) (store w) (streams w) (stopped w) (f (mediaRequests w))
          (pushed w) (listeners w) (timers w) (trace w).
Definition with_pushed (f : nat → nat) (w : World) : World :=
  mkWorld (cm w) (app w) (store w) (streams w) (stopped w) (mediaRequests w)
          (f (pushed w)) (listeners w) (timers w) (trace w).
Definition with_listeners
    (f : list (Path * Listener) → list (Path * Listener)) (w : World) : World :=
  mkWorld (cm w) (app w) (store w) (streams w) (stopped w) (mediaRequests w)
          (pushed w) (f (listeners w)) (timers w) (trace w).
Definition with_timers
    (f : list (Z * Callback) → list (Z * Callback)) (w : World) : World :=
  mkWorld (cm w) (app w) (store w) (streams w) (stopped w) (mediaRequests w)
          (pushed w) (listeners w) (f (timers w)) (trace w).
Definition with_trace (f : list Effect → list Effect) (w : World) : World :=
  mkWorld (cm w) (app w) (store w) (streams w) (stopped w) (mediaRequests w)
          (pushed w) (listeners w) (timers w) (f (trace w)).

Inductive Result (A : Type) :=
  | Ok (a : A)
  | Throw (e : Error).
Arguments Ok {A} a.
Arguments Throw {A} e.

Definition M (A : Type) : Type := World → Result A * World.

#[global] Instance M_ret : MRet M := λ A a w, (Ok a, w).
#[global] Instance M_bind : MBind M := λ A B f m w,
  match m w with
  | (Ok a, w') => f a w'
  | (Throw e, w') => (Throw e, w')
  end.

Definition get : M World := λ w, (Ok w, w).
Definition modify (f : World → World) : M unit := λ w, (Ok tt, f w).
Definition throw {A} (e : Error) : M A := λ w, (Throw e, w).

(** [try { m } catch (e) { h e }], and [promise.catch(h)]. *)
Definition try_catch {A} (m : M A) (h : Error → M A) : M A := λ w,
  match m w with
  | (Ok a, w') => (Ok a, w')
  | (Throw e, w') => h e w'
  end.

(** A promise that is not awaited: the call is made, its rejection is seen by
    nobody. *)
Definition not_awaited {A} (m : M A) : M unit := λ w, (Ok tt, (m w).2).

Definition log (e : Effect) : M unit := modify (with_trace (λ t, t ++ [e])).

Fixpoint forEach {A} (l : list A) (f : A → M unit) : M unit :=
  match l with
  | [] => mret tt
  | x :: l' => f x ;; forEach l' f
  end.

Definition exec {A} (m : M A) (w : World) : World := (m w).2.

(* ================================================================== *)
(** ** firebase/database *)

Module Database.

Definition set (b : Browser) (p : Path) (v : DbValue) : M unit :=
  log (DbSet p v) ;;
  if storeAccepts b p then modify (with_store (db_set p v))
  else throw (Rejected (DbSet p v)).

Definition update (b : Browser) (p : Path) (children : list (string * DbValue)) : M unit :=
  log (DbUpdate p children) ;;
  if storeAccepts b p then modify (with_store (db_update p children))
  else throw (Rejected (DbUpdate p children)).

Definition remove (b : Browser) (p : Path) : M unit :=
  log (DbRemove p) ;;
  if storeAccepts b p then modify (with_store (db_remove p))
  else throw (Rejected (DbRemove p)).

(** [push] writes under a key of its own making, new at every call. *)
Definition push (b : Browser) (p : Path) (v : DbValue) : M unit :=
  w ← get;
  log (DbPush p v) ;;
  modify (with_pushed S) ;;
  if storeAccepts b p then modify (with_store (db_set (p ++ [pretty (pushed w)]) v))
  else throw (Rejected (DbPush p v)).

Definition onValue (p : Path) (l : Listener) : M unit :=
  log (OnValue p l) ;;
  modify (with_listeners (λ ls, ls ++ [(p, l)])).

(** [off(ref)] without a callback detaches every listener at [ref]. *)
Definition off (p : Path) : M unit :=
  log (Off p) ;;
  modify (with_listeners (filter (λ pl, pl.1 ≠ p))).

End Database.

(* ================================================================== *)
(** ** navigator.mediaDevices, MediaStream, RTCPeerConnection *)

(** A granted request yields a new stream object; its identity is the number
    of the request. *)
Definition getUserMedia (b : Browser) (c : MediaStreamConstraints.t) : M nat :=
  w ← get;
  log (GetUserMedia c) ;;
  modify (with_mediaRequests S) ;;
  match mediaGranted b (mediaRequests w) c with
  | Some tracks =>
      modify (with_streams <[mediaRequests w := tracks]>) ;;
      mret (mediaRequests w)
  | None => throw (Rejected (GetUserMedia c))
  end.

Definition enumerateDevices (b : Browser) : M (list MediaDeviceInfo.t) :=
  log EnumerateDevices ;;
  match devices b with
  | Some ds => mret ds
  | None => throw (Rejected EnumerateDevices)
  end.

Definition getTracks (stream : nat) : M (list MediaStreamTrack.t) :=
  w ← get; mret (default [] (streams w !! stream)).

Definition isVideoTrack (t : MediaStreamTrack.t) : Prop :=
  MediaStreamTrack.kind t = VideoTrack.

Definition getVideoTracks (stream : nat) : M (list MediaStreamTrack.t) :=
  tracks ← getTracks stream;
  mret (filter isVideoTrack tracks).

Definition stop (t : MediaStreamTrack.t) : M unit :=
  log (TrackStop t) ;;
  modify (with_stopped (λ s, {[MediaStreamTrack.id t]} ∪ s)).

(** [stream.removeTrack(track)] and [stream.addTrack(track)]: [undefined] is
    not a track. *)
Definition removeTrack (stream : nat) (t : option MediaStreamTrack.t) : M unit :=
  match t with
  | None => throw (TypeError "removeTrack: parameter 1 is not of type MediaStreamTrack")
  | Some t => modify (with_streams (alter (filter (λ t', t' ≠ t)) stream))
  end.

Definition addTrackToStream (stream : nat) (t : option MediaStreamTrack.t) : M unit :=
  match t with
  | None => throw (TypeError "addTrack: parameter 1 is not of type MediaStreamTrack")
  | Some t =>
      modify (with_streams (alter (λ l, if decide (t ∈ l) then l else l ++ [t]) stream))
  end.

Definition setPeerConnection (pc : option RTCPeerConnection.t) : M unit :=
  modify (with_cm (CallModalState.with_peerConnection pc)).

(** [peerConnection.current.m(...)]: a method call on [null] is a TypeError. *)
Definition thePeerConnection : M RTCPeerConnection.t :=
  w ← get;
  match CallModalState.peerConnection (cm w) with
  | Some pc => mret pc
  | None => throw (TypeError "Cannot read properties of null")
  end.

(** [peerConnection.current?.addTrack(track, stream)] *)
Definition addTrack (t : MediaStreamTrack.t) (stream : nat) : M unit :=
  w ← get;
  match CallModalState.peerConnection (cm w) with
  | Some pc =>
      log (AddTrack t stream) ;;
      setPeerConnection
        (Some (RTCPeerConnection.with_senders
                 (RTCPeerConnection.senders pc ++ [RTCRtpSender.mk (Some t)]) pc))
  | None => mret tt
  end.

Definition createOffer (b : Browser) : M CallSignal.t :=
  _ ← thePeerConnection;
  log CreateOffer ;;
  match offerSdp b with
  | Some sdp => mret (CallSignal.mk CallSignal.offer sdp)
  | None => throw (Rejected CreateOffer)
  end.

Definition createAnswer (b : Browser) : M CallSignal.t :=
  _ ← thePeerConnection;
  log CreateAnswer ;;
  match answerSdp b with
  | Some sdp => mret (CallSignal.mk CallSignal.answer sdp)
  | None => throw (Rejected CreateAnswer)
  end.

Definition setLocalDescription (b : Browser) (d : CallSignal.t) : M unit :=
  pc ← thePeerConnection;
  log (SetLocalDescription d) ;;
  if acceptsLocal b pc d then setPeerConnection (Some (RTCPeerConnection.applyLocal d pc))
  else throw (Rejected (SetLocalDescription d)).

Definition setRemoteDescription (b : Browser) (d : CallSignal.t) : M unit :=
  pc ← thePeerConnection;
  log (SetRemoteDescription d) ;;
  if acceptsRemote b pc d then setPeerConnection (Some (RTCPeerConnection.applyRemote d pc))
  else throw (Rejected (SetRemoteDescription d)).

Definition addIceCandidate (b : Browser) (c : IceCandidateData.t) : M unit :=
  pc ← thePeerConnection;
  log (AddIceCandidate c) ;;
  if acceptsCandidate b pc c then mret tt
  else throw (Rejected (AddIceCandidate c)).

(** [sender.replaceTrack(track)] on the sender at position [i]. *)
Definition replaceTrack (b : Browser) (i : nat) (t : option MediaStreamTrack.t) : M unit :=
  pc ← thePeerConnection;
  log (ReplaceTrack i t) ;;
  if acceptsReplace b t then
    setPeerConnection
      (Some (RTCPeerConnection.with_senders
               (<[i := RTCRtpSender.mk t]> (RTCPeerConnection.senders pc)) pc))
  else throw (Rejected (ReplaceTrack i t)).

Definition close : M unit :=
  w ← get;
  match CallModalState.peerConnection (cm w) with
  | Some pc =>
      log Close ;;
      setPeerConnection (Some (RTCPeerConnection.with_connectionState closed pc))
  | None => mret tt
  end.

Definition setTimeout (cb : Callback) (ms : Z) : M unit :=
  log (SetTimeout cb ms) ;;
  modify (with_timers (λ ts, ts ++ [(ms, cb)])).

(* ================================================================== *)
(** ** App.tsx: the call handlers *)

Module App.

Definition setIsInCall (v : bool) (a : AppState.t) : AppState.t :=
  AppState.mk (AppState.userProfile a) (AppState.selectedPartner a) v
              (AppState.incomingCall a) (AppState.isVideoCall a).
Definition setIncomingCall (v : option IncomingCallData.t) (a : AppState.t) : AppState.t :=
  AppState.mk (AppState.userProfile a) (AppState.selectedPartner a) (AppState.isInCall a)
              v (AppState.isVideoCall a).
Definition setIsVideoCall (v : bool) (a : AppState.t) : AppState.t :=
  AppState.mk (AppState.userProfile a) (AppState.selectedPartner a) (AppState.isInCall a)
              (AppState.incomingCall a) v.

Definition startCall (video : bool) : M unit :=
  modify (with_app (setIsVideoCall video)) ;;
  modify (with_app (setIsInCall true)).

Definition acceptCall : M unit :=
  w ← get;
  match AppState.incomingCall (app w) with
  | Some incomingCall =>
      modify (with_app (setIsVideoCall (IncomingCallData.isVideo incomingCall))) ;;
      modify (with_app (setIsInCall true))
  | None => mret tt
  end.

Definition rejectCall (b : Browser) : M unit :=
  w ← get;
  match AppState.userProfile (app w) with
  | Some userProfile =>
      not_awaited (Database.set b ["users"; UserProfile.uid userProfile; "incomingCall"] VNull)
  | None => mret tt
  end ;;
  modify (with_app (setIncomingCall None)).

Definition endCall : M unit :=
  modify (with_app (setIsInCall false)) ;;
  modify (with_app (setIncomingCall None)).

End App.

(* ================================================================== *)
(** ** components/CallModal.tsx *)

(** [array.findIndex(f)]: the first position where [f] holds, else [-1]. *)
Fixpoint findIndex {A} (f : A → bool) (l : list A) : Z :=
  match l with
  | [] => (-1)%Z
  | x :: l' =>
      if f x then 0%Z
      else let i := findIndex f l' in if (i <? 0)%Z then (-1)%Z else (i + 1)%Z
  end.

(** [array.find(f)], as the position of the element found. *)
Fixpoint findPosition {A} (f : A → bool) (l : list A) : option nat :=
  match l with
  | [] => None
  | x :: l' => if f x then Some 0%nat else S <$> findPosition f l'
  end.

(** [a % n] on integers; [None] is [NaN]. *)
Definition js_rem (a n : Z) : option Z :=
  if (n =? 0)%Z then None else Some (Z.rem a n).

(** [array[i]]; [undefined] for [NaN] and out of range. *)
Definition js_index {A} (l : list A) (i : option Z) : option A :=
  match i with
  | Some i => if (i <? 0)%Z then None else l !! Z.to_nat i
  | None => None
  end.

(** JavaScript truthiness of a string. *)
Definition truthy (s : string) : bool := negb (bool_decide (s = "")).

Module CallModal.
Import CallModalProps.

Definition callId (props : CallModalProps.t) (now : Z) : string :=
  match incomingCall props with
  | Some incomingCall => IncomingCallData.callId incomingCall
  | None => UserProfile.uid (currentUser props) +:+ "_" +:+ pretty now
  end.

Definition isInitiator (props : CallModalProps.t) : bool :=
  match incomingCall props with Some _ => false | None => true end.

(** [isInitiator && partner] *)
Definition initiatorPartner (props : CallModalProps.t) : option UserProfile.t :=
  if isInitiator props then partner props else None.

(** [isInitiator && partner ? partner.uid : incomingCall?.callerId] *)
Definition partnerId (props : CallModalProps.t) : option string :=
  match initiatorPartner props with
  | Some partner => Some (UserProfile.uid partner)
  | None => IncomingCallData.callerId <$> incomingCall props
  end.

Definition onEndCall : M unit := App.endCall.

Definition setConnectionStatus (s : string) : M unit :=
  modify (with_cm (CallModalState.with_connectionStatus s)).

Definition setHasMultipleCameras (v : bool) : M unit :=
  modify (with_cm (CallModalState.with_hasMultipleCameras v)).

(** [if (localVideoRef.current) localVideoRef.current.srcObject = stream] *)
Definition setLocalVideo (stream : option nat) : M unit :=
  w ← get;
  match CallModalState.localVideoRef (cm w) with
  | Some _ =>
      modify (with_cm (CallModalState.with_localVideoRef (Some (HTMLVideoElement.mk stream))))
  | None => mret tt
  end.

Definition setRemoteVideo (stream : option nat) : M unit :=
  w ← get;
  match CallModalState.remoteVideoRef (cm w) with
  | Some _ =>
      modify (with_cm (CallModalState.with_remoteVideoRef (Some (HTMLVideoElement.mk stream))))
  | None => mret tt
  end.

Definition videoInputs (devices : list MediaDeviceInfo.t) : list MediaDeviceInfo.t :=
  filter (λ d, MediaDeviceInfo.kind d = videoinput) devices.

(** The [then] callback of the device check made when the effect runs. *)
Definition devicesEnumerated (devices : list MediaDeviceInfo.t) : M unit :=
  setHasMultipleCameras (bool_decide (1 < length (videoInputs devices))%nat).

Definition handleStatusChange (val : option string) : M unit :=
  if bool_decide (val = Some "ended") then onEndCall else mret tt.

(** [peerConnection.current.ontrack] *)
Definition ontrack (stream : option nat) : M unit := setRemoteVideo stream.

(** [peerConnection.current.onicecandidate] *)
Definition onicecandidate (b : Browser) (props : CallModalProps.t) (callId : string)
    (candidate : option IceCandidateData.t) : M unit :=
  match candidate with
  | Some c =>
      not_awaited
        (Database.push b ["calls"; callId; "candidates"; UserProfile.uid (currentUser props)]
                       (VCandidate c))
  | None => mret tt
  end.

(** [peerConnection.current.onconnectionstatechange] *)
Definition onconnectionstatechange : M unit :=
  w ← get;
  let state := RTCPeerConnection.connectionState <$> CallModalState.peerConnection (cm w) in
  if bool_decide (state = Some connected) then setConnectionStatus "Connected"
  else if bool_decide (state = Some disconnected) || bool_decide (state = Some failed) then
    setConnectionStatus "Disconnected" ;;
    onEndCall
  else mret tt.

(** The listener on [calls/${callId}/answer]. *)
Definition answerChanged (b : Browser) (data : option CallSignal.t) : M unit :=
  w ← get;
  match data, CallModalState.peerConnection (cm w) ≫= RTCPeerConnection.currentRemoteDescription with
  | Some remoteDesc, None =>
      match CallModalState.peerConnection (cm w) with
      | Some _ => not_awaited (setRemoteDescription b remoteDesc)
      | None => mret tt
      end
  | _, _ => mret tt
  end.

(** The listener on [calls/${callId}/candidates/${partnerId}].  The [catch]
    handler of a rejected [addIceCandidate] is run at the call; in the
    source the handlers run once the loop is over, so the [console.error]
    calls come after the [addIceCandidate] calls of that notification. *)
Definition candidatesChanged (b : Browser) (children : list IceCandidateData.t) : M unit :=
  forEach children (λ candidate,
    w ← get;
    match CallModalState.peerConnection (cm w) with
    | Some _ =>
        try_catch (addIceCandidate b candidate) (λ e, log (ConsoleError "Ice error"))
    | None => mret tt
    end).

(** [{ video: isVideo ? { facingMode: 'user' } : false, audio: true }] *)
Definition userMediaRequest (props : CallModalProps.t) : MediaStreamConstraints.t :=
  MediaStreamConstraints.mk
    (if isVideo props then video_facingMode_user else video_false) true.

Definition startCall (b : Browser) (props : CallModalProps.t) (callId : string) : M unit :=
  try_catch
    ((* 1. Get Local Stream *)
     stream ← getUserMedia b (userMediaRequest props);
     modify (with_cm (CallModalState.with_localStream (Some stream))) ;;
     setLocalVideo (Some stream) ;;
     (* 2. Create Peer Connection *)
     log NewRTCPeerConnection ;;
     setPeerConnection (Some RTCPeerConnection.fresh) ;;
     tracks ← getTracks stream;
     forEach tracks (λ track, addTrack track stream) ;;
     (* 3. Signaling Logic *)
     match initiatorPartner props with
     | Some partner =>
         not_awaited (Database.set b ["calls"; callId; "status"] (VStr "active")) ;;
         offer ← createOffer b;
         setLocalDescription b offer ;;
         let callData :=
           IncomingCallData.mk
             (UserProfile.uid (currentUser props))
             (UserProfile.displayName (currentUser props))
             (Some (default "" (UserProfile.photoURL (currentUser props))))
             callId
             (isVideo props)
             (CallSignal.mk CallSignal.offer (CallSignal.sdp offer)) in
         Database.set b ["users"; UserProfile.uid partner; "incomingCall"] (VCall callData) ;;
         Database.onValue ["calls"; callId; "answer"] answerListener
     | None =>
         match incomingCall props with
         | Some incomingCall =>
             setRemoteDescription b (IncomingCallData.offer incomingCall) ;;
             answer ← createAnswer b;
             setLocalDescription b answer ;;
             Database.set b ["calls"; callId; "answer"]
               (VSignal (CallSignal.mk CallSignal.answer (CallSignal.sdp answer)))
         | None => mret tt
         end
     end ;;
     (* 4. Listen for Remote ICE Candidates *)
     match partnerId props with
     | Some partnerId =>
         if truthy partnerId then
           Database.onValue ["calls"; callId; "candidates"; partnerId] candidatesListener
         else mret tt
     | None => mret tt
     end)
    (λ err,
       log (ConsoleError "Error starting call:") ;;
       setConnectionStatus "Failed to access media devices" ;;
       setTimeout cb_onEndCall 3000).

(** The body of the effect, run once when the component has mounted. *)
Definition effect (b : Browser) (props : CallModalProps.t) (callId : string) : M unit :=
  log EnumerateDevices ;;
  Database.onValue ["calls"; callId; "status"] statusListener ;;
  startCall b props callId.

(** The function the effect returns, run when the component unmounts. *)
Definition cleanup (b : Browser) (props : CallModalProps.t) (callId : string) : M unit :=
  w ← get;
  match CallModalState.localStream (cm w) with
  | Some stream => tracks ← getTracks stream; forEach tracks stop
  | None => mret tt
  end ;;
  close ;;
  (* Mark call as ended in DB to notify other peer *)
  not_awaited (Database.update b ["calls"; callId] [("status", VStr "ended")]) ;;
  (* Clean up signaling listeners *)
  Database.off ["calls"; callId; "status"] ;;
  match initiatorPartner props with
  | Some partner =>
      not_awaited (Database.remove b ["users"; UserProfile.uid partner; "incomingCall"]) ;;
      Database.off ["calls"; callId; "answer"]
  | None =>
      match (if negb (isInitiator props) then incomingCall props else None) with
      | Some _ =>
          not_awaited
            (Database.remove b ["users"; UserProfile.uid (currentUser props); "incomingCall"])
      | None => mret tt
      end
  end ;;
  (* Clean up candidates listeners *)
  match partnerId props with
  | Some partnerId =>
      if truthy partnerId then Database.off ["calls"; callId; "candidates"; partnerId]
      else mret tt
  | None => mret tt
  end.

(** [currentIndex] and [nextDevice] of [switchCamera]. *)
Definition currentIndex (videoInputs : list MediaDeviceInfo.t)
    (currentDeviceId : option string) : Z :=
  findIndex (λ d, bool_decide (Some (MediaDeviceInfo.deviceId d) = currentDeviceId)) videoInputs.

Definition nextDevice (videoInputs : list MediaDeviceInfo.t)
    (currentDeviceId : option string) : option MediaDeviceInfo.t :=
  js_index videoInputs
    (js_rem (currentIndex videoInputs currentDeviceId + 1) (Z.of_nat (length videoInputs))).

(** [{ video: { deviceId: { exact: nextDevice.deviceId } }, audio: false }] *)
Definition cameraRequest (nextDevice : MediaDeviceInfo.t) : MediaStreamConstraints.t :=
  MediaStreamConstraints.mk (video_deviceId_exact (MediaDeviceInfo.deviceId nextDevice)) false.

(** [s => s.track?.kind === 'video'] *)
Definition isVideoSender (s : RTCRtpSender.t) : bool :=
  bool_decide (MediaStreamTrack.kind <$> RTCRtpSender.track s = Some VideoTrack).

Definition switchCamera (b : Browser) : M unit :=
  w ← get;
  match CallModalState.localStream (cm w) with
  | None => mret tt
  | Some localStream =>
      if negb (CallModalState.hasMultipleCameras (cm w)) then mret tt
      else
        try_catch
          (devices ← enumerateDevices b;
           let videoInputs := videoInputs devices in
           videoTracks ← getVideoTracks localStream;
           let currentTrack := head videoTracks in
           let currentDeviceId := currentTrack ≫= MediaStreamTrack.deviceId in
           match nextDevice videoInputs currentDeviceId with
           | Some nextDevice =>
               newStream ← getUserMedia b (cameraRequest nextDevice);
               newTracks ← getVideoTracks newStream;
               let newTrack := head newTracks in
               w' ← get;
               let sender :=
                 CallModalState.peerConnection (cm w') ≫= λ pc,
                   findPosition isVideoSender (RTCPeerConnection.senders pc) in
               match sender with
               | Some i => replaceTrack b i newTrack
               | None => mret tt
               end ;;
               removeTrack localStream currentTrack ;;
               addTrackToStream localStream newTrack ;;
               setLocalVideo (Some localStream)
           | None => mret tt
           end)
          (λ e, log (ConsoleError "Error switching camera:"))
  end.

End CallModal.

(* ================================================================== *)
(** ** App rendering CallModal, and the events that reach the component

    [App] renders [<CallModal>] while [isInCall] holds (and a profile is
    loaded).  The effect of [CallModal] has no dependencies: its body runs
    once after the component has mounted, with the props of that render, and
    the function it returned runs once when the component unmounts. *)

Record System := mkSystem {
  mounted : option (CallModalProps.t * string);  (* props and callId of the effect *)
  world : World
}.

(** The [<CallModal>] element of the current render, if any. *)
Definition rendered (a : AppState.t) : option CallModalProps.t :=
  match AppState.userProfile a with
  | Some userProfile =>
      if AppState.isInCall a then
        Some (CallModalProps.mk userProfile (AppState.selectedPartner a)
                (AppState.incomingCall a) (AppState.isVideoCall a))
      else None
  | None => None
  end.

(** React commits a render: mount with the effect, or unmount with its
    cleanup.  [now] is [Date.now()] at the first render of the component. *)
Definition commit (b : Browser) (now : Z) (s : System) : System :=
  match mounted s, rendered (app (world s)) with
  | None, Some props =>
      let callId := CallModal.callId props now in
      mkSystem (Some (props, callId))
        (exec (CallModal.effect b props callId)
              (with_cm (λ _, CallModalState.initial) (world s)))
  | Some (props, callId), None =>
      mkSystem None (exec (CallModal.cleanup b props callId) (world s))
  | _, _ => s
  end.

Inductive Event :=
  | StatusChanged (val : option string)
  | AnswerChanged (data : option CallSignal.t)
  | CandidatesChanged (children : list IceCandidateData.t)
  | TrackReceived (stream : option nat)
  | IceCandidateFound (candidate : option IceCandidateData.t)
  | ConnectionStateChanged (state : RTCPeerConnectionState)
  | DevicesEnumerated (devices : list MediaDeviceInfo.t)
  | EndCallClicked
  | SwitchCameraClicked
  | TimerFired (i : nat)
  | StartCallClicked (video : bool)
  | AcceptCallClicked
  | RejectCallClicked.

Definition registered (p : Path) (l : Listener) (w : World) : bool :=
  bool_decide ((p, l) ∈ listeners w).

Definition hasPeerConnection (w : World) : bool :=
  bool_decide (is_Some (CallModalState.peerConnection (cm w))).

(** The callback an event runs in the mounted component.  A store
    notification reaches a listener that is still registered; the peer
    connection calls the handlers set on it. *)
Definition dispatch (b : Browser) (props : CallModalProps.t) (callId : string)
    (ev : Event) : M unit :=
  w ← get;
  match ev with
  | StatusChanged val =>
      if registered ["calls"; callId; "status"] statusListener w
      then CallModal.handleStatusChange val else mret tt
  | AnswerChanged data =>
      if registered ["calls"; callId; "answer"] answerListener w
      then CallModal.answerChanged b data else mret tt
  | CandidatesChanged children =>
      match CallModal.partnerId props with
      | Some partnerId =>
          if registered ["calls"; callId; "candidates"; partnerId] candidatesListener w
          then CallModal.candidatesChanged b children else mret tt
      | None => mret tt
      end
  | TrackReceived stream =>
      if hasPeerConnection w then CallModal.ontrack stream else mret tt
  | IceCandidateFound candidate =>
      if hasPeerConnection w then CallModal.onicecandidate b props callId candidate
      else mret tt
  | ConnectionStateChanged state =>
      match CallModalState.peerConnection (cm w) with
      | Some pc =>
          setPeerConnection (Some (RTCPeerConnection.with_connectionState state pc)) ;;
          CallModal.onconnectionstatechange
      | None => mret tt
      end
  | DevicesEnumerated devices => CallModal.devicesEnumerated devices
  | EndCallClicked => CallModal.onEndCall
  | SwitchCameraClicked => CallModal.switchCamera b
  | TimerFired _ | StartCallClicked _ | AcceptCallClicked | RejectCallClicked => mret tt
  end.

Definition runCallback (cb : Callback) : M unit :=
  match cb with cb_onEndCall => CallModal.onEndCall end.

(** One event, then the render it causes.  A timer fires whether or not the
    component that set it is still mounted; the call buttons of [App] do not
    depend on it either. *)
Definition step (b : Browser) (now : Z) (ev : Event) (s : System) : System :=
  match ev with
  | TimerFired i =>
      match timers (world s) !! i with
      | Some (_, cb) =>
          commit b now
            (mkSystem (mounted s)
               (exec (runCallback cb) (with_timers (delete i) (world s))))
      | None => s
      end
  | StartCallClicked video =>
      commit b now (mkSystem (mounted s) (exec (App.startCall video) (world s)))
  | AcceptCallClicked =>
      commit b now (mkSystem (mounted s) (exec App.acceptCall (world s)))
  | RejectCallClicked =>
      commit b now (mkSystem (mounted s) (exec (App.rejectCall b) (world s)))
  | _ =>
      match mounted s with
      | Some (props, callId) =>
          commit b now (mkSystem (mounted s) (exec (dispatch b props callId ev) (world s)))
      | None => s
      end
  end.

(** [end()]: [onEndCall], that is [App]'s [endCall], and the render after it. *)
Definition endCall (b : Browser) (now : Z) (s : System) : System :=
  commit b now (mkSystem (mounted s) (exec App.endCall (world s))).

(** Where the invitation of a call lives: the inbox of the responder. *)
Definition invitationRef (props : CallModalProps.t) : option Path :=
  match CallModalProps.incomingCall props with
  | Some _ => Some ["users"; UserProfile.uid (CallModalProps.currentUser props); "incomingCall"]
  | None =>
      (λ partner, ["users"; UserProfile.uid partner; "incomingCall"])
        <$> CallModalProps.partner props
  end.

(* ================================================================== *)
(** ** The answer listener, with the settlement of its call apart

    [CallModal.answerChanged] takes [setRemoteDescription] together with its
    settlement.  The call is not awaited, and the browser fills
    [currentRemoteDescription] only when the promise settles: a second
    notification can arrive in between.  Here the two moments are apart. *)

Module AnswerListener.

(** The component, and the [setRemoteDescription] calls of the listener
    that have been made and have not settled yet, oldest first. *)
Record t := mk { state : World; unsettled : list CallSignal.t }.

(** The callback of [onValue(answerRef, ...)]: the guard reads
    [currentRemoteDescription] as it is when the notification arrives; the
    call is made and not awaited. *)
Definition notified (data : option CallSignal.t) (s : t) : t :=
  match data,
        CallModalState.peerConnection (cm (state s))
          ≫= RTCPeerConnection.currentRemoteDescription with
  | Some remoteDesc, None =>
      match CallModalState.peerConnection (cm (state s)) with
      | Some _ =>
          mk (with_trace (λ t, t ++ [SetRemoteDescription remoteDesc]) (state s))
             (unsettled s ++ [remoteDesc])
      | None => s
      end
  | _, _ => s
  end.

(** The oldest unsettled call settles: the browser applies the description,
    or rejects it, and nobody sees the rejection. *)
Definition settled (b : Browser) (s : t) : t :=
  match unsettled s with
  | [] => s
  | d :: rest =>
      match CallModalState.peerConnection (cm (state s)) with
      | Some pc =>
          if acceptsRemote b pc d then
            mk (with_cm (CallModalState.with_peerConnection
                           (Some (RTCPeerConnection.applyRemote d pc))) (state s))
               rest
          else mk (state s) rest
      | None => mk (state s) rest
      end
  end.



End AnswerListener.

(* ================================================================== *)
(** ** What the properties are stated with *)

(** [wp m Q w]: running [m] from [w] ends in a result and a world that
    satisfy [Q]. *)
Definition wp {A} (m : M A) (Q : Result A → World → Prop) (w : World) : Prop :=
  Q (m w).1 (m w).2.

(** [m] keeps the invariant [I], whether it returns or throws. *)
Definition preserves (I : World → Prop) {A} (m : M A) : Prop :=
  ∀ w, I w → wp m (λ _, I) w.

(** The store-side deletions made so far, in the order they were made. *)
Definition deletions (w : World) : list Path :=
  omap (λ e, match e with DbRemove p => Some p | _ => None end) (trace w).

(** A sequence of notifications of the candidates listener, in order. *)
Definition relay (b : Browser) (notifications : list (list IceCandidateData.t)) : M unit :=
  forEach notifications (CallModal.candidatesChanged b).

(** The candidates handed to [addIceCandidate] so far, in order. *)
Definition applied (w : World) : list IceCandidateData.t :=
  omap (λ e, match e with AddIceCandidate c => Some c | _ => None end) (trace w).

Definition occurrences (c : IceCandidateData.t) (l : list IceCandidateData.t) : nat :=
  length (filter (λ x, x = c) l).

(** The claim as the specification words it: every candidate delivered is
    handed to the peer connection once. *)
Definition appliedExactlyOnce (b : Browser) (w : World)
    (notifications : list (list IceCandidateData.t)) : Prop :=
  ∀ c, c ∈ concat notifications →
       occurrences c (applied (exec (relay b notifications) w))
       = S (occurrences c (applied w)).

(** The status shown is not "Connected". *)
Definition notConnected (w : World) : Prop :=
  CallModalState.connectionStatus (cm w) ≠ "Connected".

(** The calls of one run of the responder are in order when every write of
    the answer comes directly after the three awaited steps that precede it
    in the source, each of them resolved: the offer applied as remote
    description, the answer created, the answer applied as local
    description. *)
Definition answerAfterOffer (b : Browser) (callId : string) (remoteOffer : CallSignal.t)
    (added : list Effect) : Prop :=
  ∀ (j : nat) (v : DbValue),
    added !! j = Some (DbSet ["calls"; callId; "answer"] v) →
    ∃ (sdp : string) (pc pc' : RTCPeerConnection.t),
      (3 ≤ j)%nat ∧
      added !! (j - 3)%nat = Some (SetRemoteDescription remoteOffer) ∧
      acceptsRemote b pc remoteOffer = true ∧
      added !! (j - 2)%nat = Some CreateAnswer ∧
      answerSdp b = Some sdp ∧
      added !! (j - 1)%nat
        = Some (SetLocalDescription (CallSignal.mk CallSignal.answer sdp)) ∧
      acceptsLocal b pc' (CallSignal.mk CallSignal.answer sdp) = true ∧
      v = VSignal (CallSignal.mk CallSignal.answer sdp).

(** The claim of the specification about the old camera track: after
    [switchCamera] it has been stopped. *)
Definition stopsOldTrack (b : Browser) (w : World) (currentTrack : MediaStreamTrack.t) : Prop :=
  MediaStreamTrack.id currentTrack ∈ stopped (exec (CallModal.switchCamera b) w).

(** The paths below [calls/${callId}] that hold the answer and the relayed
    candidates, and what it would mean for the store to be rid of a call:
    no invitation, no answer, no candidates. *)
Definition artifactsDeleted (callId : string) (invitation : Path) (st : Store) : Prop :=
  st !! invitation = None ∧
  (∀ p, ["calls"; callId; "answer"] `prefix_of` p → st !! p = None) ∧
  (∀ p, ["calls"; callId; "candidates"] `prefix_of` p → st !! p = None).

(** What the cleanup does to the store: the status is set to [ended] and the
    invitation is removed, each if the store accepts the write. *)
Definition cleanupStore (b : Browser) (props : CallModalProps.t) (callId : string)
    (st : Store) : Store :=
  let st1 :=
    if storeAccepts b ["calls"; callId]
    then db_update ["calls"; callId] [("status", VStr "ended")] st else st in
  match invitationRef props with
  | Some invitation => if storeAccepts b invitation then db_remove invitation st1 else st1
  | None => st1
  end.

(* ================================================================== *)
(** ** A concrete call, used to run the definitions *)

Module Scenario.

Definition alice : UserProfile.t := UserProfile.mk "alice" "alice@example.org" "Alice" None.
Definition bob : UserProfile.t := UserProfile.mk "bob" "bob@example.org" "Bob" None.

Definition mic : MediaStreamTrack.t := MediaStreamTrack.mk 0 AudioTrack (Some "mic0").
Definition front : MediaStreamTrack.t := MediaStreamTrack.mk 1 VideoTrack (Some "cam0").
Definition back : MediaStreamTrack.t := MediaStreamTrack.mk 2 VideoTrack (Some "cam1").

Definition cam0 : MediaDeviceInfo.t := MediaDeviceInfo.mk "cam0" videoinput.
Definition cam1 : MediaDeviceInfo.t := MediaDeviceInfo.mk "cam1" videoinput.
Definition mic0 : MediaDeviceInfo.t := MediaDeviceInfo.mk "mic0" audioinput.

(** A browser that grants everything, with two cameras. *)
Definition browser : Browser := {|
  mediaGranted := λ _ c,
    match MediaStreamConstraints.video c with
    | video_false => Some [mic]
    | video_facingMode_user => Some [mic; front]
    | video_deviceId_exact d => if bool_decide (d = "cam1") then Some [back] else Some [front]
    end;
  devices := Some [mic0; cam0; cam1];
  offerSdp := Some "v=0 offer";
  answerSdp := Some "v=0 answer";
  acceptsLocal := λ _ _, true;
  acceptsRemote := λ _ _, true;
  acceptsCandidate := λ _ _, true;
  acceptsReplace := λ _, true;
  storeAccepts := λ _, true
|}.

(** The same browser with the camera and microphone refused. *)
Definition denied : Browser := {|
  mediaGranted := λ _ _, None;
  devices := devices browser;
  offerSdp := offerSdp browser;
  answerSdp := answerSdp browser;
  acceptsLocal := acceptsLocal browser;
  acceptsRemote := acceptsRemote browser;
  acceptsCandidate := acceptsCandidate browser;
  acceptsReplace := acceptsReplace browser;
  storeAccepts := storeAccepts browser
|}.

Definition idle (me : UserProfile.t) (partner : option UserProfile.t) : World :=
  mkWorld CallModalState.initial (AppState.mk (Some me) partner false None false)
          ∅ ∅ ∅ 0 0 [] [] [].

Definition theOffer : CallSignal.t := CallSignal.mk CallSignal.offer "v=0 offer".
Definition theAnswer : CallSignal.t := CallSignal.mk CallSignal.answer "v=0 answer".
Definition otherAnswer : CallSignal.t := CallSignal.mk CallSignal.answer "v=0 other".

Definition invitation : IncomingCallData.t :=
  IncomingCallData.mk "alice" "Alice" (Some "") "alice_1700000000000" true theOffer.

Definition c1 : IceCandidateData.t := IceCandidateData.mk "candidate:1 1 udp" "0" 0.
Definition c2 : IceCandidateData.t := IceCandidateData.mk "candidate:2 1 udp" "0" 0.

(** Alice, with Bob's chat open, presses the video-call button: [dialing]
    is the state before React commits the render, [aliceCalling] after. *)
Definition aliceProps : CallModalProps.t := CallModalProps.mk alice (Some bob) None true.
Definition dialing : System :=
  mkSystem None (exec (App.startCall true) (idle alice (Some bob))).
Definition aliceCalling : System := commit browser 1700000000000 dialing.

(** Alice's side once Bob has written his answer and a candidate. *)
Definition answered : World :=
  with_store
    (λ st, db_set ["calls"; "alice_1700000000000"; "candidates"; "bob"; "0"] (VCandidate c1)
             (db_set ["calls"; "alice_1700000000000"; "answer"] (VSignal theAnswer) st))
    (world aliceCalling).

(** Alice's side once the device check has found her two cameras. *)
Definition twoCameras : World :=
  exec (CallModal.devicesEnumerated [mic0; cam0; cam1]) (world aliceCalling).

(** Bob accepts Alice's invitation. *)
Definition bobProps : CallModalProps.t := CallModalProps.mk bob None (Some invitation) true.
Definition bobRinging : World :=
  with_app (App.setIncomingCall (Some invitation)) (idle bob None).
Definition bobAnswering : System :=
  commit browser 1700000000500 (mkSystem None (exec App.acceptCall bobRinging)).

End Scenario.

(* ================================================================== *)
(** ** components/CallModal.tsx: the mute and camera buttons

    The two buttons touch [isMuted], [isCameraOff] and the [enabled] flag of
    the tracks of the local stream, and nothing else.  That state is kept in
    a record of its own, beside the [World]: [disabled] holds the ids of the
    tracks whose [enabled] flag is [false]. *)

Module Controls.

Record t := mk { isMuted : bool; isCameraOff : bool; disabled : gset nat }.

(** [useState(false)], [useState(!isVideo)]; a track is enabled when the
    browser hands it out. *)
Definition initial (props : CallModalProps.t) : t :=
  mk false (negb (CallModalProps.isVideo props)) ∅.

Definition isAudioTrack (t : MediaStreamTrack.t) : Prop :=
  MediaStreamTrack.kind t = AudioTrack.

(** [track.enabled = !track.enabled] *)
Definition flip (d : gset nat) (t : MediaStreamTrack.t) : gset nat :=
  if decide (MediaStreamTrack.id t ∈ d)
  then d ∖ {[MediaStreamTrack.id t]}
  else {[MediaStreamTrack.id t]} ∪ d.

(** [localStream.current.getAudioTracks()] and [getVideoTracks()] *)
Definition audioTracks (w : World) (stream : nat) : list MediaStreamTrack.t :=
  filter isAudioTrack (default [] (streams w !! stream)).
Definition videoTracks (w : World) (stream : nat) : list MediaStreamTrack.t :=
  filter isVideoTrack (default [] (streams w !! stream)).

Definition toggleMute (w : World) (c : t) : t :=
  match CallModalState.localStream (cm w) with
  | Some localStream =>
      mk (negb (isMuted c)) (isCameraOff c)
         (foldl flip (disabled c) (audioTracks w localStream))
  | None => c
  end.

Definition toggleVideo (props : CallModalProps.t) (w : World) (c : t) : t :=
  match CallModalState.localStream (cm w) with
  | Some localStream =>
      if CallModalProps.isVideo props then
        mk (isMuted c) (negb (isCameraOff c))
           (foldl flip (disabled c) (videoTracks w localStream))
      else c
  | None => c
  end.

(** What the buttons show agrees with the tracks: the audio tracks of the
    local stream are disabled exactly when [isMuted], its video tracks
    exactly when [isCameraOff]. *)
Definition muteShown (w : World) (c : t) : Prop :=
  ∀ stream t, CallModalState.localStream (cm w) = Some stream →
    t ∈ audioTracks w stream →
    (MediaStreamTrack.id t ∈ disabled c ↔ isMuted c = true).
Definition cameraShown (w : World) (c : t) : Prop :=
  ∀ stream t, CallModalState.localStream (cm w) = Some stream →
    t ∈ videoTracks w stream →
    (MediaStreamTrack.id t ∈ disabled c ↔ isCameraOff c = true).

(** A track has one id, and is in its stream once. *)
Definition distinctTracks (w : World) : Prop :=
  ∀ stream, CallModalState.localStream (cm w) = Some stream →
    NoDup (MediaStreamTrack.id <$> default [] (streams w !! stream)).

End Controls.

(* ================================================================== *)
(** ** components/ProfileModal.tsx: saving the profile

    [handleSave] runs in a state-and-exception monad of its own, over the
    state of the modal, the signed-in account of Firebase Auth, the store,
    and what the user gets to see (the modal closed, an alert). *)

Module ProfileModal.

(** What [updateProfile] changes of [auth.currentUser]. *)
Record Account := mkAccount {
  accountName : option string;
  accountPhoto : option string
}.

Record Props := mkProps { user : UserProfile.t; isEditable : bool }.

Record World := mkWorld {
  displayName : string;             (* useState(user.displayName) *)
  photoURL : string;                (* useState(user.photoURL || '') *)
  isLoading : bool;
  currentUser : option Account;     (* auth.currentUser *)
  store : Store;
  closed : bool;                    (* onClose() was called *)
  alerts : list string;
  errors : list string              (* console.error *)
}.

(** What the two services answer: [false] is a rejected promise. *)
Record Services := mkServices { updateProfileOk : bool; updateOk : bool }.

Definition M (A : Type) : Type := World → Result A * World.

#[global] Instance ProfileModal_ret : MRet M := λ A a w, (Ok a, w).
#[global] Instance ProfileModal_bind : MBind M := λ A B f m w,
  match m w with
  | (Ok a, w') => f a w'
  | (Throw e, w') => (Throw e, w')
  end.

Definition modify (f : World → World) : M unit := λ w, (Ok tt, f w).
Definition throw {A} (e : Error) : M A := λ w, (Throw e, w).

(** [try { m } catch (error) { h } finally { f }] *)
Definition try_catch_finally (m : M unit) (h : Error → M unit) (f : M unit) : M unit := λ w,
  match m w with
  | (Ok _, w') => f w'
  | (Throw e, w') =>
      match h e w' with
      | (Ok _, w'') => f w''
      | (Throw e', w'') =>
          match f w'' with
          | (Ok _, w3) => (Throw e', w3)
          | (Throw e'', w3) => (Throw e'', w3)
          end
      end
  end.

Definition setIsLoading (v : bool) : M unit :=
  modify (λ w, mkWorld (displayName w) (photoURL w) v (currentUser w) (store w)
                       (closed w) (alerts w) (errors w)).
Definition setAccount (a : Account) : M unit :=
  modify (λ w, mkWorld (displayName w) (photoURL w) (isLoading w) (Some a) (store w)
                       (closed w) (alerts w) (errors w)).
Definition setStore (f : Store → Store) : M unit :=
  modify (λ w, mkWorld (displayName w) (photoURL w) (isLoading w) (currentUser w)
                       (f (store w)) (closed w) (alerts w) (errors w)).
Definition onClose : M unit :=
  modify (λ w, mkWorld (displayName w) (photoURL w) (isLoading w) (currentUser w) (store w)
                       true (alerts w) (errors w)).
Definition alert (msg : string) : M unit :=
  modify (λ w, mkWorld (displayName w) (photoURL w) (isLoading w) (currentUser w) (store w)
                       (closed w) (alerts w ++ [msg]) (errors w)).
Definition console_error (msg : string) : M unit :=
  modify (λ w, mkWorld (displayName w) (photoURL w) (isLoading w) (currentUser w) (store w)
                       (closed w) (alerts w) (errors w ++ [msg])).

(** [photoURL || null] *)
Definition photoOrNull (photoURL : string) : option string :=
  if truthy photoURL then Some photoURL else None.

(** [updateProfile(auth.currentUser, { displayName, photoURL })] *)
Definition updateProfile (s : Services) (name : string) (photo : option string) : M unit :=
  if updateProfileOk s then setAccount (mkAccount (Some name) photo)
  else throw (Rejected (ConsoleError "updateProfile")).

(** [update(ref(db, `users/${user.uid}`), { displayName, photoURL })] *)
Definition update (s : Services) (uid : string) (name : string) (photo : option string)
    : M unit :=
  if updateOk s then
    setStore (db_update ["users"; uid]
                [("displayName", VStr name);
                 ("photoURL", match photo with Some p => VStr p | None => VNull end)])
  else throw (Rejected (DbUpdate ["users"; uid] [])).

Definition handleSave (s : Services) (props : Props) : M unit := λ w,
  if negb (isEditable props) || negb (bool_decide (is_Some (currentUser w))) then (Ok tt, w)
  else
    (setIsLoading true ;;
     try_catch_finally
       ((* 1. Update Firebase Auth Profile *)
        updateProfile s (displayName w) (photoOrNull (photoURL w)) ;;
        (* 2. Update Realtime Database *)
        update s (UserProfile.uid (user props)) (displayName w) (photoOrNull (photoURL w)) ;;
        onClose)
       (λ error,
          console_error "Error updating profile:" ;;
          alert "Failed to update profile.")
       (setIsLoading false)) w.

End ProfileModal.

(* ================================================================== *)
(** ** App.tsx: the profile written at the first sign-in *)

Module AuthUser.
(** The fields of the Firebase [User] that [App] reads. *)
Record t := mk {
  uid : string;
  email : option string;
  displayName : option string;
  photoURL : option string
}.
End AuthUser.

(** [a || b] on strings that may be [null] or [undefined]. *)
Definition js_or (a b : option string) : option string :=
  match a with
  | Some s => if truthy s then Some s else b
  | None => b
  end.

(** [a || 'literal'] *)
Definition js_or_else (a : option string) (b : string) : string :=
  match a with
  | Some s => if truthy s then s else b
  | None => b
  end.

(** The characters [@] and [_]. *)
Definition at_sign : Ascii.ascii := Ascii.ascii_of_nat 64.
Definition underscore : Ascii.ascii := Ascii.ascii_of_nat 95.

(** [s.split('@')[0]]: what stands before the first [@]. *)
Fixpoint beforeAt (s : string) : string :=
  match s with
  | EmptyString => EmptyString
  | String c s' => if Ascii.eqb c at_sign then EmptyString else String c (beforeAt s')
  end.

Module NewProfile.
Inductive Status := online | offline.
Record t := mk {
  uid : string;
  email : string;
  displayName : string;
  photoURL : option string;
  status : Status;
  lastSeen : Z
}.

(** The object built when [users/${uid}] does not exist yet; [now] is
    [Date.now()]. *)
Definition initial (user : AuthUser.t) (now : Z) : t :=
  mk (AuthUser.uid user)
     (js_or_else (AuthUser.email user) "")
     (js_or_else (js_or (AuthUser.displayName user) (beforeAt <$> AuthUser.email user)) "User")
     (js_or (AuthUser.photoURL user) None)
     online
     now.
End NewProfile.

(** [snapshot.val().incomingCall] of the listener on [users/${uid}]. *)
Definition inbox (st : Store) (uid : string) : option IncomingCallData.t :=
  match st !! ["users"; uid; "incomingCall"] with
  | Some (VCall d) => Some d
  | _ => None
  end.

(* ================================================================== *)
(** ** Sidebar.tsx and ChatWindow.tsx: the id of a chat *)

Module Chat.

Definition AI_BOT_ID : string := "chitchat_ai_assistant".

(** [[a, b].sort()]: the default order of [sort] is the order of the UTF-16
    code units of the strings; here it is the order of their bytes, which
    differs from it only between characters beyond U+FFFF and characters
    from U+E000 to U+FFFF. *)
Definition sort2 (a b : string) : list string :=
  if String.ltb b a then [b; a] else [a; b].

(** [array.join('_')] *)
Fixpoint join (l : list string) : string :=
  match l with
  | [] => ""
  | [x] => x
  | x :: l' => x +:+ "_" +:+ join l'
  end.

(** [getChatId] of [Sidebar] *)
Definition getChatId (currentUser : UserProfile.t) (partnerId : string) : string :=
  if bool_decide (partnerId = AI_BOT_ID)
  then UserProfile.uid currentUser +:+ "_" +:+ AI_BOT_ID
  else join (sort2 (UserProfile.uid currentUser) partnerId).

(** [chatId] of [ChatWindow] *)
Definition chatId (currentUser : UserProfile.t) (partner : option UserProfile.t)
    : option string :=
  match partner with
  | Some partner =>
      Some (if bool_decide (UserProfile.uid partner = AI_BOT_ID)
            then UserProfile.uid currentUser +:+ "_" +:+ AI_BOT_ID
            else join (sort2 (UserProfile.uid currentUser) (UserProfile.uid partner)))
  | None => None
  end.

(** No [_] in a string. *)
Fixpoint underscoreFree (s : string) : bool :=
  match s with
  | EmptyString => true
  | String c s' => negb (Ascii.eqb c underscore) && underscoreFree s'
  end.

End Chat.

(* ================================================================== *)
(** ** What the further properties are stated with *)

(** The invitation an initiator writes. *)
Definition callData (props : CallModalProps.t) (callId : string) (sdp : string)
    : IncomingCallData.t :=
  IncomingCallData.mk
    (UserProfile.uid (CallModalProps.currentUser props))
    (UserProfile.displayName (CallModalProps.currentUser props))
    (Some (default "" (UserProfile.photoURL (CallModalProps.currentUser props))))
    callId
    (CallModalProps.isVideo props)
    (CallSignal.mk CallSignal.offer sdp).

(** The calls of one run of the initiator are in order when every write of
    an invitation to the partner's inbox comes directly after the status
    write, [createOffer()] and [setLocalDescription(offer)], the last two
    resolved, and the invitation carries that offer. *)
Definition invitationAfterOffer (b : Browser) (props : CallModalProps.t) (callId : string)
    (partner : UserProfile.t) (added : list Effect) : Prop :=
  ∀ (j : nat) (v : DbValue),
    added !! j = Some (DbSet ["users"; UserProfile.uid partner; "incomingCall"] v) →
    ∃ (sdp : string) (pc : RTCPeerConnection.t),
      (3 ≤ j)%nat ∧
      added !! (j - 3)%nat = Some (DbSet ["calls"; callId; "status"] (VStr "active")) ∧
      added !! (j - 2)%nat = Some CreateOffer ∧
      offerSdp b = Some sdp ∧
      added !! (j - 1)%nat
        = Some (SetLocalDescription (CallSignal.mk CallSignal.offer sdp)) ∧
      acceptsLocal b pc (CallSignal.mk CallSignal.offer sdp) = true ∧
      v = VCall (callData props callId sdp).

(** The senders of a peer connection to which the tracks were added. *)
Definition sendersOf (tracks : list MediaStreamTrack.t) : list RTCRtpSender.t :=
  (λ t, RTCRtpSender.mk (Some t)) <$> tracks.

(** [snapshot.val()] of the listeners on [calls/${callId}/answer] and on
    [calls/${callId}/status]. *)
Definition answerOf (st : Store) (callId : string) : option CallSignal.t :=
  match st !! ["calls"; callId; "answer"] with
  | Some (VSignal d) => Some d
  | _ => None
  end.

Definition statusOf (st : Store) (callId : string) : option string :=
  match st !! ["calls"; callId; "status"] with
  | Some (VStr s) => Some s
  | _ => None
  end.

(** The peer connection finds candidates one after the other. *)
Definition candidatesFound (b : Browser) (props : CallModalProps.t) (callId : string)
    (candidates : list IceCandidateData.t) : M unit :=
  forEach candidates (λ c, CallModal.onicecandidate b props callId (Some c)).

(** Where a side keeps the candidates it has found. *)
Definition ownCandidates (props : CallModalProps.t) (callId : string) : Path :=
  ["calls"; callId; "candidates"; UserProfile.uid (CallModalProps.currentUser props)].

(** Whether one of the awaited steps of [startCall] is rejected: the media
    request; on the initiator side [createOffer], [setLocalDescription] of
    the offer, the write of the invitation; on the responder side
    [setRemoteDescription] of the offer, [createAnswer],
    [setLocalDescription] of the answer, the write of the answer.  The peer
    connection the browser is asked about is the new one with the tracks
    added. *)
Definition stepRejected (b : Browser) (props : CallModalProps.t) (callId : string)
    (w : World) : bool :=
  match mediaGranted b (mediaRequests w) (CallModal.userMediaRequest props) with
  | None => true
  | Some tracks =>
      let pc :=
        RTCPeerConnection.with_senders
          (RTCPeerConnection.senders RTCPeerConnection.fresh ++ sendersOf tracks)
          RTCPeerConnection.fresh in
      match CallModal.initiatorPartner props with
      | Some partner =>
          match offerSdp b with
          | None => true
          | Some sdp =>
              negb (acceptsLocal b pc (CallSignal.mk CallSignal.offer sdp))
              || negb (storeAccepts b ["users"; UserProfile.uid partner; "incomingCall"])
          end
      | None =>
          match CallModalProps.incomingCall props with
          | Some incomingCall =>
              negb (acceptsRemote b pc (IncomingCallData.offer incomingCall))
              || match answerSdp b with
                 | None => true
                 | Some sdp =>
                     negb (acceptsLocal b
                             (RTCPeerConnection.applyRemote
                                (IncomingCallData.offer incomingCall) pc)
                             (CallSignal.mk CallSignal.answer sdp))
                     || negb (storeAccepts b ["calls"; callId; "answer"])
                 end
          | None => false
          end
      end
  end.

(** An unmount that falls into the first suspension of [startCall].  The
    effect runs up to the media request, which is pending; the component
    unmounts and its cleanup runs; the media request settles and [startCall]
    goes on from there, with nothing in it that asks whether the component
    is still mounted.  (The media request is taken where it settles.) *)
Definition endedWhileMediaPending (b : Browser) (props : CallModalProps.t)
    (callId : string) : M unit :=
  log EnumerateDevices ;;
  Database.onValue ["calls"; callId; "status"] statusListener ;;
  CallModal.cleanup b props callId ;;
  CallModal.startCall b props callId.





(** The claim of the specification about a single camera: when the browser
    lists fewer than two video inputs, [switchCamera] leaves the tracks of
    the local stream as they are. *)
Definition unchangedWithoutSecondCamera (b : Browser) (w : World) : Prop :=
  ∀ devs stream,
    devices b = Some devs →
    (length (CallModal.videoInputs devs) < 2)%nat →
    CallModalState.localStream (cm w) = Some stream →
    streams (exec (CallModal.switchCamera b) w) !! stream = streams w !! stream.

(* ================================================================== *)
(** ** Further concrete cases *)

Module Refusing.
(** A browser whose peer connection refuses to replace a track. *)
Definition noReplace : Browser := {|
  mediaGranted := mediaGranted Scenario.browser;
  devices := devices Scenario.browser;
  offerSdp := offerSdp Scenario.browser;
  answerSdp := answerSdp Scenario.browser;
  acceptsLocal := acceptsLocal Scenario.browser;
  acceptsRemote := acceptsRemote Scenario.browser;
  acceptsCandidate := acceptsCandidate Scenario.browser;
  acceptsReplace := λ _, false;
  storeAccepts := storeAccepts Scenario.browser
|}.

(** A browser that cannot create an offer. *)
Definition noOffer : Browser := {|
  mediaGranted := mediaGranted Scenario.browser;
  devices := devices Scenario.browser;
  offerSdp := None;
  answerSdp := answerSdp Scenario.browser;
  acceptsLocal := acceptsLocal Scenario.browser;
  acceptsRemote := acceptsRemote Scenario.browser;
  acceptsCandidate := acceptsCandidate Scenario.browser;
  acceptsReplace := acceptsReplace Scenario.browser;
  storeAccepts := storeAccepts Scenario.browser
|}.
End Refusing.

Module Cases.
(** Alice's call failed for want of a camera; she hangs up before the three
    seconds have passed, and calls again with the camera allowed. *)
Definition failedCall : System := commit Scenario.denied 1700000000000 Scenario.dialing.
Definition hungUp : System := endCall Scenario.denied 1700000000000 failedCall.
Definition secondCall : System :=
  step Scenario.browser 1700000001000 (StartCallClicked true) hungUp.

(** Alice has pressed the call button and, before the browser has answered
    the media request, the end button. *)
Definition endedEarly : World := exec App.endCall (world Scenario.dialing).
End Cases.

Module Unplugged.
(** Alice's second camera has been unplugged during the call: the browser
    lists one camera, and hands out a new track of it when asked. *)
Definition again : MediaStreamTrack.t := MediaStreamTrack.mk 11 VideoTrack (Some "cam0").
Definition browser : Browser := {|
  mediaGranted := λ n c,
    match MediaStreamConstraints.video c with
    | video_deviceId_exact d => if bool_decide (d = "cam0") then Some [again] else None
    | _ => mediaGranted Scenario.browser n c
    end;
  devices := Some [Scenario.mic0; Scenario.cam0];
  offerSdp := offerSdp Scenario.browser;
  answerSdp := answerSdp Scenario.browser;
  acceptsLocal := acceptsLocal Scenario.browser;
  acceptsRemote := acceptsRemote Scenario.browser;
  acceptsCandidate := acceptsCandidate Scenario.browser;
  acceptsReplace := acceptsReplace Scenario.browser;
  storeAccepts := storeAccepts Scenario.browser
|}.
End Unplugged.

Module Handshake.
(** Bob's world when Alice's invitation has reached his inbox. *)
Definition aliceOffering : World :=
  exec (CallModal.startCall Scenario.browser Scenario.aliceProps "alice_1700000000000")
       (world Scenario.dialing).
Definition bobInvited : World :=
  with_store (λ _, store aliceOffering) Scenario.bobRinging.
End Handshake.

Module Ringing.
(** Bob has Carol's chat open while Alice's invitation is ringing. *)
Definition carol : UserProfile.t := UserProfile.mk "carol" "carol@example.org" "Carol" None.
Definition bobRingingWithCarol : System :=
  mkSystem None
    (with_store (db_set ["users"; "bob"; "incomingCall"] (VCall Scenario.invitation))
       (with_app (App.setIncomingCall (Some Scenario.invitation))
          (Scenario.idle Scenario.bob (Some carol)))).
End Ringing.

Module Saving.
(** Alice edits her profile while an invitation is in her inbox; the
    database refuses the write, or accepts it. *)
Definition editing : ProfileModal.World :=
  ProfileModal.mkWorld "Alice L." "" false
    (Some (ProfileModal.mkAccount (Some "Alice") (Some "https://example.org/a.png")))
    (db_set ["users"; "alice"; "incomingCall"] (VCall Scenario.invitation)
       (db_set ["users"; "alice"; "photoURL"] (VStr "https://example.org/a.png")
          (db_set ["users"; "alice"; "displayName"] (VStr "Alice") ∅)))
    false [] [].
Definition own : ProfileModal.Props := ProfileModal.mkProps Scenario.alice true.
Definition databaseDown : ProfileModal.Services := ProfileModal.mkServices true false.
Definition allUp : ProfileModal.Services := ProfileModal.mkServices true true.
End Saving.

Module SignIn.
(** A first sign-in with an e-mail address and no name. *)
Definition dave : AuthUser.t := AuthUser.mk "u4" (Some "dave@example.org") None None.
End SignIn.

Module Waiting.
(** While Alice is calling Bob, Carol's invitation arrives in Alice's inbox
    and [App] shows it. *)
Definition carolsInvitation : IncomingCallData.t :=
  IncomingCallData.mk "carol" "Carol" (Some "") "carol_1700000002000" false
    (CallSignal.mk CallSignal.offer "v=0 carol").
Definition aliceInvitedByCarol : System :=
  mkSystem (mounted Scenario.aliceCalling)
    (with_app (App.setIncomingCall (Some carolsInvitation))
       (with_store (db_set ["users"; "alice"; "incomingCall"] (VCall carolsInvitation))
          (world Scenario.aliceCalling))).
End Waiting.

(* ================================================================== *)
(** * Properties *)

(** ** The scenario runs *)

(** Alice's effect leaves the invitation in Bob's inbox, with her offer. *)
Example alice_invites_bob :
  store (world Scenario.aliceCalling) !! ["users"; "bob"; "incomingCall"]
  = Some (VCall Scenario.invitation).
Proof. vm_compute. reflexivity. Qed.

(** Bob's effect leaves his answer under the call, and both descriptions are
    current on his peer connection. *)
Example bob_answers :
  store (world Scenario.bobAnswering) !! ["calls"; "alice_1700000000000"; "answer"]
  = Some (VSignal Scenario.theAnswer) ∧
  CallModalState.peerConnection (cm (world Scenario.bobAnswering))
    ≫= RTCPeerConnection.currentRemoteDescription = Some Scenario.theOffer.
Proof. vm_compute. split; reflexivity. Qed.

(** [-1 % 3] keeps the sign of the dividend, [0 % 0] is [NaN]. *)
Example js_rem_examples :
  js_rem (-1) 3 = Some (-1)%Z ∧ js_rem 3 3 = Some 0%Z ∧ js_rem 0 0 = None.
Proof. repeat split. Qed.

(** ** Running monadic code *)

Ltac munfold :=
  unfold mbind, M_bind, mret, M_ret, get, log, modify, throw, try_catch,
         not_awaited, exec in *.

Lemma bind_run {A B} (m : M A) (f : A → M B) (w : World) :
  (m ≫= f) w =
  match m w with
  | (Ok a, w') => f a w'
  | (Throw e, w') => (Throw e, w')
  end.
Proof. reflexivity. Qed.

(** ** Rules of the weakest precondition

    The rules below run a piece of component code forward, one call at a
    time. *)

Lemma wp_ret {A} (a : A) Q w : Q (Ok a) w → wp (mret a) Q w.
Proof. exact id. Qed.

Lemma wp_bind {A B} (m : M A) (f : A → M B) Q w :
  wp m (λ r w', match r with Ok a => wp (f a) Q w' | Throw e => Q (Throw e) w' end) w →
  wp (m ≫= f) Q w.
Proof. unfold wp. rewrite bind_run. destruct (m w) as [[a|e] w']; exact id. Qed.

Lemma wp_get Q w : Q (Ok w) w → wp get Q w.
Proof. exact id. Qed.

Lemma wp_modify f Q w : Q (Ok tt) (f w) → wp (modify f) Q w.
Proof. exact id. Qed.

Lemma wp_throw {A} e (Q : Result A → World → Prop) w : Q (Throw e) w → wp (throw e) Q w.
Proof. exact id. Qed.

Lemma wp_try_catch {A} (m : M A) h Q w :
  wp m (λ r w', match r with Ok a => Q (Ok a) w' | Throw e => wp (h e) Q w' end) w →
  wp (try_catch m h) Q w.
Proof. unfold wp, try_catch. destruct (m w) as [[a|e] w']; exact id. Qed.

Lemma wp_not_awaited {A} (m : M A) Q w :
  wp m (λ _ w', Q (Ok tt) w') w → wp (not_awaited m) Q w.
Proof. exact id. Qed.

Lemma wp_mono {A} (m : M A) (Q Q' : Result A → World → Prop) w :
  (∀ r w', Q r w' → Q' r w') → wp m Q w → wp m Q' w.
Proof. unfold wp. auto. Qed.

Lemma wp_exact {A} (m : M A) Q w r w' : m w = (r, w') → Q r w' → wp m Q w.
Proof. unfold wp. intros ->. exact id. Qed.

(** A loop whose body keeps [I] and does not throw keeps [I] and does not
    throw. *)
Lemma wp_forEach {A} (I : World → Prop) (l : list A) (f : A → M unit) Q w :
  (∀ x w, I w → wp (f x) (λ r w', r = Ok tt ∧ I w') w) →
  I w →
  (∀ w', I w' → Q (Ok tt) w') →
  wp (forEach l f) Q w.
Proof.
  intros Hf Hw HQ. revert w Hw. induction l as [|x l IH]; intros w Hw; simpl.
  - apply HQ, Hw.
  - apply wp_bind. eapply wp_mono; [|apply Hf, Hw].
    intros r w' [-> Hw']. apply IH, Hw'.
Qed.

Ltac head t := lazymatch t with ?f _ => head f | _ => t end.

(** Reads of a field through the updates of other fields. *)
Ltac wsimpl :=
  cbn [cm app store streams stopped mediaRequests pushed listeners timers trace
       with_cm with_app with_store with_streams with_stopped with_mediaRequests
       with_pushed with_listeners with_timers with_trace
       CallModalState.connectionStatus CallModalState.hasMultipleCameras
       CallModalState.localVideoRef CallModalState.remoteVideoRef
       CallModalState.peerConnection CallModalState.localStream
       CallModalState.with_connectionStatus CallModalState.with_hasMultipleCameras
       CallModalState.with_localVideoRef CallModalState.with_remoteVideoRef
       CallModalState.with_peerConnection CallModalState.with_localStream
       fst snd] in *.

Ltac wp_step :=
  lazymatch goal with
  | |- wp (mret _) _ _ => apply wp_ret
  | |- wp (_ ≫= _) _ _ => apply wp_bind
  | |- wp get _ _ => apply wp_get
  | |- wp (modify _) _ _ => apply wp_modify
  | |- wp (log _) _ _ => apply wp_modify
  | |- wp (throw _) _ _ => apply wp_throw
  | |- wp (try_catch _ _) _ _ => apply wp_try_catch
  | |- wp (not_awaited _) _ _ => apply wp_not_awaited
  | |- wp (forEach _ _) _ _ => fail "a loop"
  | |- wp (match _ with _ => _ end) _ _ => fail "a case distinction"
  | |- wp (if _ then _ else _) _ _ => fail "a case distinction"
  | |- wp ?m _ _ => let h := head m in unfold h
  end; cbv beta iota zeta; wsimpl.

Ltac wp_case :=
  lazymatch goal with
  | |- wp (match ?x with _ => _ end) _ _ => destruct x eqn:?
  | |- wp (if ?x then _ else _) _ _ => destruct x eqn:?
  end; cbv beta iota zeta; wsimpl.

Lemma wp_elim {A} (m : M A) (Q : World → Result A → Prop) w :
  wp m (λ r w', Q w' r) w → Q (m w).2 (m w).1.
Proof. exact id. Qed.

Ltac wp_start m w := pattern (m w).2, (m w).1; apply wp_elim.

(** At a case distinction that a hypothesis decides. *)
Ltac wp_hyp :=
  lazymatch goal with
  | |- wp (match ?x with _ => _ end) _ _ => match goal with H : x = _ |- _ => rewrite H end
  | |- wp (if ?x then _ else _) _ _ => match goal with H : x = _ |- _ => rewrite H end
  end; cbv beta iota zeta; wsimpl.

Ltac wp_run := repeat wp_step.
Ltac wp_all := repeat (wp_step || wp_case).

Lemma preserves_exec (I : World → Prop) {A} (m : M A) w :
  preserves I m → I w → I (exec m w).
Proof. intros H Hw. exact (H w Hw). Qed.

Arguments CallModal.startCall : simpl never.
Arguments CallModal.cleanup : simpl never.
Arguments CallModal.switchCamera : simpl never.
Arguments CallModal.effect : simpl never.

(** The loops of the component: stopping the tracks of a stream, and adding
    them to the peer connection. *)
Lemma forEach_stop (tracks : list MediaStreamTrack.t) (w : World) :
  forEach tracks stop w =
  (Ok tt,
   with_stopped (λ s, foldl (λ s t, {[MediaStreamTrack.id t]} ∪ s) s tracks)
     (with_trace (λ t, t ++ (TrackStop <$> tracks)) w)).
Proof.
  revert w. induction tracks as [|t tracks IH]; intros w.
  - destruct w; unfold with_stopped, with_trace; cbn. rewrite app_nil_r. reflexivity.
  - cbn [forEach]. rewrite bind_run. unfold stop at 1. munfold. cbn.
    rewrite IH. destruct w; unfold with_stopped, with_trace; cbn.
    rewrite <- app_assoc. reflexivity.
Qed.

Lemma forEach_addTrack (tracks : list MediaStreamTrack.t) (stream : nat)
    (pc : RTCPeerConnection.t) (w : World) :
  CallModalState.peerConnection (cm w) = Some pc →
  forEach tracks (λ track, addTrack track stream) w =
  (Ok tt,
   with_cm (CallModalState.with_peerConnection
              (Some (RTCPeerConnection.with_senders
                       (RTCPeerConnection.senders pc
                          ++ ((λ t, RTCRtpSender.mk (Some t)) <$> tracks)) pc)))
     (with_trace (λ t, t ++ ((λ t, AddTrack t stream) <$> tracks)) w)).
Proof.
  revert pc w. induction tracks as [|t tracks IH]; intros pc w Hpc.
  - destruct w as [c ? ? ? ? ? ? ? ? ?], c. cbn in Hpc. subst.
    unfold with_cm, with_trace; cbn. rewrite !app_nil_r. destruct pc; reflexivity.
  - cbn [forEach]. rewrite bind_run. unfold addTrack at 1, setPeerConnection. munfold.
    rewrite Hpc. cbn.
    erewrite IH by reflexivity.
    destruct w as [c ? ? ? ? ? ? ? ? ?], c. unfold with_cm, with_trace; cbn.
    rewrite <- !app_assoc. reflexivity.
Qed.

Lemma effect_run b props cid w :
  CallModal.effect b props cid w =
  CallModal.startCall b props cid
    (with_listeners (λ ls, ls ++ [(["calls"; cid; "status"], statusListener)])
       (with_trace
          (λ t, t ++ [EnumerateDevices; OnValue ["calls"; cid; "status"] statusListener]) w)).
Proof.
  unfold CallModal.effect, Database.onValue. munfold. cbn.
  f_equal. destruct w; unfold with_listeners, with_trace; cbn.
  rewrite <- app_assoc. reflexivity.
Qed.

(** The cleanup leaves the state of [App] alone. *)
Lemma cleanup_app b props cid a :
  preserves (λ w, app w = a) (CallModal.cleanup b props cid).
Proof.
  intros w H. unfold CallModal.cleanup.
  repeat first
    [ wp_step | wp_case
    | eapply wp_exact; [apply forEach_stop|]; cbv beta iota zeta; wsimpl ];
    exact H.
Qed.

(** ** C10: an unknown current device *)

Lemma findIndex_none {A} (f : A → bool) (l : list A) :
  (∀ x, x ∈ l → f x = false) → findIndex f l = (-1)%Z.
Proof.
  induction l as [|x l IH]; intros H; simpl; [reflexivity|].
  rewrite (H x) by apply list_elem_of_here.
  rewrite IH by (intros y Hy; apply H, list_elem_of_further, Hy).
  reflexivity.
Qed.

(** C10.  When the id of the active device is not among the enumerated
    video inputs, [findIndex] answers [-1], [(-1 + 1) % count] is [0], and
    the device selected is the first one enumerated (none only when no
    video input was enumerated at all). *)
Theorem unknown_device_selects_first
    (videoInputs : list MediaDeviceInfo.t) (currentDeviceId : option string) :
  (∀ d, d ∈ videoInputs → Some (MediaDeviceInfo.deviceId d) ≠ currentDeviceId) →
  CallModal.currentIndex videoInputs currentDeviceId = (-1)%Z ∧
  (videoInputs ≠ [] →
     js_rem (CallModal.currentIndex videoInputs currentDeviceId + 1)
            (Z.of_nat (length videoInputs)) = Some 0%Z) ∧
  CallModal.nextDevice videoInputs currentDeviceId = head videoInputs.
Proof.
  intros H.
  assert (Hi : CallModal.currentIndex videoInputs currentDeviceId = (-1)%Z).
  { apply findIndex_none. intros d Hd. apply bool_decide_eq_false, H, Hd. }
  unfold CallModal.nextDevice. rewrite Hi. split; [reflexivity|].
  destruct videoInputs as [|d l]; simpl.
  - split; [congruence | reflexivity].
  - split; reflexivity.
Qed.

Lemma unknown_device_selects_first_witness :
  CallModal.nextDevice [Scenario.cam0; Scenario.cam1] (Some "usb-cam") = Some Scenario.cam0.
Proof.
  refine (proj2 (proj2 (unknown_device_selects_first
                          [Scenario.cam0; Scenario.cam1] (Some "usb-cam") _))).
  intros d Hd. apply list_elem_of_In in Hd. simpl in Hd.
  destruct Hd as [<-|[<-|[]]]; vm_compute; congruence.
Defined.

(** ** C7: media capture refused *)

Lemma startCall_media_refused b props callId w :
  mediaGranted b (mediaRequests w) (CallModal.userMediaRequest props) = None →
  CallModal.startCall b props callId w =
    (Ok tt,
     with_timers (λ ts, ts ++ [(3000%Z, cb_onEndCall)])
       (with_cm (CallModalState.with_connectionStatus "Failed to access media devices")
          (with_mediaRequests S
             (with_trace
                (λ t, t ++ [GetUserMedia (CallModal.userMediaRequest props);
                            ConsoleError "Error starting call:";
                            SetTimeout cb_onEndCall 3000]) w)))).
Proof.
  intros H.
  unfold CallModal.startCall, getUserMedia, CallModal.setConnectionStatus, setTimeout.
  munfold. cbn. rewrite H. cbn.
  destruct w; unfold with_timers, with_cm, with_mediaRequests, with_trace; cbn.
  rewrite <- !app_assoc. reflexivity.
Qed.

Lemma rendered_inCall a props :
  rendered a = Some props → AppState.isInCall a = true.
Proof.
  unfold rendered. destruct (AppState.userProfile a); [|discriminate].
  destruct (AppState.isInCall a); [reflexivity|discriminate].
Qed.

Lemma rendered_endCall w : rendered (app (exec App.endCall w)) = None.
Proof.
  unfold App.endCall, rendered. munfold. cbn.
  destruct (AppState.userProfile (app w)); reflexivity.
Qed.

(** C7.  When the browser refuses the media request of a call that is
    being mounted, the component shows "Failed to access media devices" (not
    "Connected", not "Disconnected"), no peer connection is created and
    nothing is written to the store, [App] is left as it was (still in the
    call: [onEndCall] has not run), and one timer of 3000 ms is pending whose
    callback is [onEndCall]; when that timer fires the call ends and the
    component unmounts. *)
Theorem media_failure_ends_after_delay b now s props :
  mounted s = None →
  rendered (app (world s)) = Some props →
  mediaGranted b (mediaRequests (world s)) (CallModal.userMediaRequest props) = None →
  let s' := commit b now s in
  mounted s' = Some (props, CallModal.callId props now) ∧
  CallModalState.connectionStatus (cm (world s')) = "Failed to access media devices" ∧
  CallModalState.connectionStatus (cm (world s')) ≠ "Connected" ∧
  CallModalState.connectionStatus (cm (world s')) ≠ "Disconnected" ∧
  CallModalState.peerConnection (cm (world s')) = None ∧
  store (world s') = store (world s) ∧
  app (world s') = app (world s) ∧
  AppState.isInCall (app (world s')) = true ∧
  timers (world s') = timers (world s) ++ [(3000%Z, cb_onEndCall)] ∧
  let s'' := step b now (TimerFired (length (timers (world s)))) s' in
  mounted s'' = None ∧ AppState.isInCall (app (world s'')) = false.
Proof.
  intros Hm Hr Hg s'.
  assert (Hs' : s' =
    mkSystem (Some (props, CallModal.callId props now))
      (exec (CallModal.effect b props (CallModal.callId props now))
            (with_cm (λ _, CallModalState.initial) (world s)))).
  { unfold s', commit. rewrite Hm, Hr. reflexivity. }
  clearbody s'. subst s'.
  set (cid := CallModal.callId props now).
  unfold exec. rewrite effect_run.
  rewrite startCall_media_refused by exact Hg.
  pose proof (rendered_inCall _ _ Hr) as Hin.
  cbn [mounted world snd].
  split; [reflexivity|]. split; [reflexivity|].
  split; [cbn; discriminate|]. split; [cbn; discriminate|].
  split; [reflexivity|]. split; [reflexivity|]. split; [reflexivity|].
  split; [exact Hin|]. split; [reflexivity|].
  unfold step. cbn [world timers with_timers with_cm with_mediaRequests with_trace
                        with_listeners mounted].
  rewrite lookup_app_r by reflexivity. rewrite Nat.sub_diag. cbn [lookup list_lookup].
  unfold commit. cbn [mounted world]. rewrite rendered_endCall.
  cbn [mounted world]. split; [reflexivity|].
  match goal with |- context [exec (CallModal.cleanup ?b ?p ?c) ?w] =>
    rewrite (preserves_exec _ _ w (cleanup_app b p c (app w)) eq_refl) end.
  reflexivity.
Qed.

Lemma media_failure_ends_after_delay_witness :
  let s' := commit Scenario.denied 1700000000000 Scenario.dialing in
  CallModalState.connectionStatus (cm (world s')) = "Failed to access media devices" ∧
  timers (world s') = [(3000%Z, cb_onEndCall)] ∧
  mounted (step Scenario.denied 1700000000000 (TimerFired 0) s') = None.
Proof.
  pose proof (media_failure_ends_after_delay Scenario.denied 1700000000000
                Scenario.dialing Scenario.aliceProps eq_refl eq_refl eq_refl) as H.
  cbv zeta in H.
  destruct H as (_ & H1 & _ & _ & _ & _ & _ & _ & H2 & H3 & _).
  intros s'. split; [exact H1 | split; [exact H2 | exact H3]].
Defined.

(** ** C3: the store after the cleanup *)

Lemma lookup_db_remove (p k : Path) (st : Store) :
  db_remove p st !! k = if decide (p `prefix_of` k) then None else st !! k.
Proof.
  unfold db_remove. rewrite map_lookup_filter.
  destruct (st !! k) as [v|]; simpl; [|by case_decide].
  case_decide; case_guard; simpl in *; done.
Qed.

Lemma lookup_db_set (p k : Path) (v : DbValue) (st : Store) :
  v ≠ VNull →
  db_set p v st !! k =
  if decide (p = k) then Some v
  else if decide (p `prefix_of` k ∨ k `prefix_of` p) then None else st !! k.
Proof.
  intros Hv.
  assert (db_set p v st =
          <[p := v]> (filter (λ kv, ¬ p `prefix_of` kv.1 ∧ ¬ kv.1 `prefix_of` p) st)) as ->.
  { destruct v; done. }
  rewrite lookup_insert. case_decide; [done|].
  rewrite map_lookup_filter.
  destruct (st !! k) as [x|]; simpl; [|by case_decide].
  case_decide; case_guard; simpl in *; try done; tauto.
Qed.

Lemma cleanup_store b props cid w :
  store (exec (CallModal.cleanup b props cid) w) = cleanupStore b props cid (store w).
Proof.
  change (wp (CallModal.cleanup b props cid)
            (λ _ w', store w' = cleanupStore b props cid (store w)) w).
  unfold CallModal.cleanup, cleanupStore, invitationRef, CallModal.partnerId,
    CallModal.initiatorPartner, CallModal.isInitiator.
  destruct (CallModalProps.incomingCall props) as [ic|],
           (CallModalProps.partner props) as [partner|];
    cbn [negb fmap option_fmap option_map];
  repeat first
    [ wp_step | wp_case
    | eapply wp_exact; [apply forEach_stop|]; cbv beta iota zeta; wsimpl ];
  reflexivity.
Qed.

Lemma invitationRef_users props inv :
  invitationRef props = Some inv → ∃ u, inv = ["users"; u; "incomingCall"].
Proof.
  unfold invitationRef. destruct (CallModalProps.incomingCall props).
  - intros [= <-]. eauto.
  - destruct (CallModalProps.partner props); simpl; [|discriminate].
    intros [= <-]. eauto.
Qed.

(** C3, as the code has it.  When the component unmounts and the store
    accepts its writes, the cleanup sets [calls/${callId}/status] to [ended]
    and removes the invitation from the responder's inbox; the answer under
    [calls/${callId}/answer] and every candidate under
    [calls/${callId}/candidates] stay in the store as they were (only their
    listeners are detached). *)
Theorem cleanup_removes_invitation_only b props cid w inv :
  invitationRef props = Some inv →
  storeAccepts b ["calls"; cid] = true →
  storeAccepts b inv = true →
  let st' := store (exec (CallModal.cleanup b props cid) w) in
  st' !! inv = None ∧
  st' !! ["calls"; cid; "status"] = Some (VStr "ended") ∧
  (∀ p, ["calls"; cid; "answer"] `prefix_of` p → st' !! p = store w !! p) ∧
  (∀ p, ["calls"; cid; "candidates"] `prefix_of` p → st' !! p = store w !! p).
Proof.
  intros Hinv Hc Hi st'. subst st'. rewrite cleanup_store.
  unfold cleanupStore. rewrite Hinv, Hc, Hi.
  destruct (invitationRef_users _ _ Hinv) as [u ->].
  cbn [db_update foldl fst snd app].
  assert (Hne : VStr "ended" ≠ VNull) by discriminate.
  split; [|split; [|split]].
  - rewrite lookup_db_remove. by rewrite decide_True.
  - rewrite lookup_db_remove, decide_False, lookup_db_set, decide_True; try done.
    intros [k Hk]. discriminate Hk.
  - intros p [k ->].
    rewrite lookup_db_remove, decide_False, lookup_db_set, decide_False, decide_False;
      try done.
    + intros [[k' Hk']|[k' Hk']]; discriminate.
    + intros [k' Hk']. discriminate Hk'.
  - intros p [k ->].
    rewrite lookup_db_remove, decide_False, lookup_db_set, decide_False, decide_False;
      try done.
    + intros [[k' Hk']|[k' Hk']]; discriminate.
    + intros [k' Hk']. discriminate Hk'.
Qed.

Lemma cleanup_removes_invitation_only_witness :
  let st' := store (exec (CallModal.cleanup Scenario.browser Scenario.aliceProps
                            "alice_1700000000000") Scenario.answered) in
  st' !! ["users"; "bob"; "incomingCall"] = None ∧
  st' !! ["calls"; "alice_1700000000000"; "status"] = Some (VStr "ended") ∧
  st' !! ["calls"; "alice_1700000000000"; "answer"] = Some (VSignal Scenario.theAnswer).
Proof.
  destruct (cleanup_removes_invitation_only Scenario.browser Scenario.aliceProps
              "alice_1700000000000" Scenario.answered ["users"; "bob"; "incomingCall"]
              eq_refl eq_refl eq_refl) as (H1 & H2 & H3 & _).
  split; [exact H1|]. split; [exact H2|].
  rewrite (H3 ["calls"; "alice_1700000000000"; "answer"]) by reflexivity.
  vm_compute. reflexivity.
Defined.

(** C3, as stated, fails: after Alice's cleanup the answer Bob wrote is
    still in the store. *)
Lemma cleanup_keeps_answer_and_candidates :
  ¬ artifactsDeleted "alice_1700000000000" ["users"; "bob"; "incomingCall"]
      (store (exec (CallModal.cleanup Scenario.browser Scenario.aliceProps
                      "alice_1700000000000") Scenario.answered)).
Proof.
  intros (_ & H & _).
  specialize (H ["calls"; "alice_1700000000000"; "answer"] (reflexivity _)).
  vm_compute in H. discriminate H.
Qed.

(** ** C2: the guard of the answer listener *)

(** Once a remote description is current, the listener does nothing at all,
    whatever the notification carries. *)
Lemma answerChanged_guard b data w pc d :
  CallModalState.peerConnection (cm w) = Some pc →
  RTCPeerConnection.currentRemoteDescription pc = Some d →
  CallModal.answerChanged b data w = (Ok tt, w).
Proof.
  intros Hpc Hd. unfold CallModal.answerChanged. munfold.
  rewrite Hpc. cbn. rewrite Hd. destruct data; reflexivity.
Qed.

(** The guard once the first call has settled.  On a session with no
    remote description yet, let a first notification deliver an answer that
    the browser accepts, and let the call settle.  Any further notification,
    with the same payload, another one or none, and whatever the browser
    would answer, leaves the whole world as the first one left it (no call
    to the peer connection is even made) and returns normally. *)
Theorem remote_description_applied_once b b' w pc d1 data :
  CallModalState.peerConnection (cm w) = Some pc →
  RTCPeerConnection.currentRemoteDescription pc = None →
  CallSignal.type d1 = CallSignal.answer →
  acceptsRemote b pc d1 = true →
  let first := CallModal.answerChanged b (Some d1) w in
  first.1 = Ok tt ∧
  CallModalState.peerConnection (cm first.2) ≫= RTCPeerConnection.currentRemoteDescription
    = Some d1 ∧
  CallModal.answerChanged b' data first.2 = (Ok tt, first.2).
Proof.
  intros Hpc Hnone Hans Hacc first.
  assert (Hfirst : first =
    (Ok tt, with_cm (CallModalState.with_peerConnection
                       (Some (RTCPeerConnection.applyRemote d1 pc)))
              (with_trace (λ t, t ++ [SetRemoteDescription d1]) w))).
  { unfold first, CallModal.answerChanged, setRemoteDescription, thePeerConnection,
      setPeerConnection. munfold.
    rewrite Hpc. cbn. rewrite Hnone, Hpc. cbn. rewrite Hacc. reflexivity. }
  rewrite Hfirst. cbn [fst snd].
  assert (Hcur : RTCPeerConnection.currentRemoteDescription
                   (RTCPeerConnection.applyRemote d1 pc) = Some d1).
  { unfold RTCPeerConnection.applyRemote. rewrite Hans. reflexivity. }
  split; [reflexivity|]. split.
  - wsimpl. cbn. exact Hcur.
  - eapply answerChanged_guard; [reflexivity | exact Hcur].
Qed.

Lemma remote_description_applied_once_witness :
  let w := world Scenario.aliceCalling in
  let first := CallModal.answerChanged Scenario.browser (Some Scenario.theAnswer) w in
  CallModalState.peerConnection (cm first.2) ≫= RTCPeerConnection.currentRemoteDescription
    = Some Scenario.theAnswer ∧
  CallModal.answerChanged Scenario.browser (Some Scenario.otherAnswer) first.2
    = (Ok tt, first.2).
Proof.
  intros w first.
  assert (Hpc : ∃ pc, CallModalState.peerConnection (cm w) = Some pc ∧
                      RTCPeerConnection.currentRemoteDescription pc = None).
  { vm_compute. eexists. split; reflexivity. }
  destruct Hpc as (pc & Hpc & Hnone).
  destruct (remote_description_applied_once Scenario.browser Scenario.browser w pc
              Scenario.theAnswer (Some Scenario.otherAnswer) Hpc Hnone eq_refl eq_refl)
    as (_ & H2 & H3).
  split; [exact H2 | exact H3].
Defined.

(** The listener of [CallModal] is the notification followed at once by the
    settlement of the call it made. *)
Lemma answerChanged_settles b data w :
  exec (CallModal.answerChanged b data) w
  = AnswerListener.state
      (AnswerListener.settled b
         (AnswerListener.notified data (AnswerListener.mk w []))).
Proof.
  unfold exec, CallModal.answerChanged, AnswerListener.notified, AnswerListener.settled,
    setRemoteDescription, thePeerConnection, setPeerConnection.
  munfold. cbn [AnswerListener.state AnswerListener.unsettled].
  destruct data as [d|]; [|reflexivity].
  destruct (CallModalState.peerConnection (cm w)) as [pc|] eqn:Hpc; [|reflexivity].
  cbn [mbind option_bind].
  destruct (RTCPeerConnection.currentRemoteDescription pc); [reflexivity|].
  cbn. rewrite Hpc. cbn. destruct (acceptsRemote b pc d); reflexivity.
Qed.




(** ** C4: ending a call more than once *)

Lemma endCall_fixed w :
  AppState.isInCall (app w) = false →
  AppState.incomingCall (app w) = None →
  exec App.endCall w = w.
Proof.
  destruct w as [? a ? ? ? ? ? ? ? ?], a. cbn. intros -> ->. reflexivity.
Qed.

Lemma endCall_app w :
  AppState.isInCall (app (exec App.endCall w)) = false ∧
  AppState.incomingCall (app (exec App.endCall w)) = None.
Proof. split; reflexivity. Qed.

Lemma endCall_ended b now s :
  mounted (endCall b now s) = None ∧
  AppState.isInCall (app (world (endCall b now s))) = false ∧
  AppState.incomingCall (app (world (endCall b now s))) = None.
Proof.
  unfold endCall, commit. cbn [mounted world]. rewrite rendered_endCall.
  destruct (mounted s) as [[props cid]|]; cbn [mounted world].
  - rewrite (preserves_exec _ _ _ (cleanup_app b props cid _) eq_refl).
    split; [reflexivity|]. apply endCall_app.
  - split; [reflexivity|]. apply endCall_app.
Qed.

Lemma endCall_twice b now s : endCall b now (endCall b now s) = endCall b now s.
Proof.
  destruct (endCall_ended b now s) as (Hm & Hin & Hinc).
  destruct (endCall b now s) as [m w]. cbn [mounted world] in *. subst m.
  unfold endCall, commit. cbn [mounted world].
  rewrite rendered_endCall. rewrite endCall_fixed by assumption. reflexivity.
Qed.

(** A remote hang-up, seen by the status listener, is [end()]. *)
Lemma remote_end_is_endCall b now s props cid :
  mounted s = Some (props, cid) →
  registered ["calls"; cid; "status"] statusListener (world s) = true →
  step b now (StatusChanged (Some "ended")) s = endCall b now s.
Proof.
  intros Hm Hreg. unfold step, endCall. rewrite Hm. do 2 f_equal.
  unfold dispatch, exec. rewrite bind_run. cbn [get]. rewrite Hreg. reflexivity.
Qed.

(** C4.  Calling [end()] [N ≥ 1] times leaves the application, the store,
    the media objects and the whole record of calls made to the store and the
    browser exactly as one call does; in particular the same store entries
    have been deleted, each once.  This holds from every state; and when the
    remote side has ended the call first (the status listener saw [ended]),
    a local [end()] after it changes nothing. *)
Theorem endCall_idempotent b now s (N : nat) :
  (1 ≤ N)%nat →
  Nat.iter N (endCall b now) s = endCall b now s ∧
  store (world (Nat.iter N (endCall b now) s)) = store (world (endCall b now s)) ∧
  deletions (world (Nat.iter N (endCall b now) s)) = deletions (world (endCall b now s)) ∧
  (∀ props cid,
     mounted s = Some (props, cid) →
     registered ["calls"; cid; "status"] statusListener (world s) = true →
     Nat.iter N (endCall b now) (step b now (StatusChanged (Some "ended")) s)
     = step b now (StatusChanged (Some "ended")) s).
Proof.
  intros HN.
  assert (H : ∀ s, Nat.iter N (endCall b now) s = endCall b now s).
  { clear s. intros s. destruct N as [|n]; [lia|]. clear HN.
    induction n as [|n IH]; [reflexivity|].
    change (Nat.iter (S (S n)) (endCall b now) s)
      with (endCall b now (Nat.iter (S n) (endCall b now) s)).
    rewrite IH. apply endCall_twice. }
  rewrite H. repeat split.
  intros props cid Hm Hreg.
  rewrite (remote_end_is_endCall b now s props cid Hm Hreg), H. apply endCall_twice.
Qed.

Lemma endCall_idempotent_witness :
  Nat.iter 3 (endCall Scenario.browser 1700000009000) Scenario.aliceCalling
  = endCall Scenario.browser 1700000009000 Scenario.aliceCalling ∧
  Nat.iter 3 (endCall Scenario.browser 1700000009000)
    (step Scenario.browser 1700000009000 (StatusChanged (Some "ended")) Scenario.aliceCalling)
  = step Scenario.browser 1700000009000 (StatusChanged (Some "ended")) Scenario.aliceCalling.
Proof.
  destruct (endCall_idempotent Scenario.browser 1700000009000 Scenario.aliceCalling 3)
    as (H1 & _ & _ & H2); [lia|].
  split; [exact H1|].
  apply (H2 Scenario.aliceProps "alice_1700000000000"); vm_compute; reflexivity.
Defined.

(** ** C1: the candidate relay *)

Lemma applied_log e w :
  applied (with_trace (λ t, t ++ [e]) w) =
  applied w ++ match e with AddIceCandidate c => [c] | _ => [] end.
Proof. unfold applied. cbn [trace with_trace]. rewrite omap_app. by destruct e. Qed.

Lemma candidatesChanged_run b children w pc :
  CallModalState.peerConnection (cm w) = Some pc →
  ∃ w', CallModal.candidatesChanged b children w = (Ok tt, w') ∧
        cm w' = cm w ∧ applied w' = applied w ++ children.
Proof.
  revert w. induction children as [|c children IH]; intros w Hpc.
  - exists w. rewrite app_nil_r. done.
  - unfold CallModal.candidatesChanged in *. cbn [forEach]. rewrite bind_run.
    assert (Hc : ∃ w1,
      (w0 ← get;
       match CallModalState.peerConnection (cm w0) with
       | Some _ => try_catch (addIceCandidate b c) (λ _, log (ConsoleError "Ice error"))
       | None => mret ()
       end) w = (Ok tt, w1) ∧ cm w1 = cm w ∧ applied w1 = applied w ++ [c]).
    { unfold addIceCandidate, thePeerConnection. munfold. rewrite Hpc. cbn.
      rewrite Hpc. cbn.
      destruct (acceptsCandidate b pc c); cbn; eexists; (split; [reflexivity|]).
      - split; [reflexivity|]. apply (applied_log (AddIceCandidate c)).
      - split; [reflexivity|].
        rewrite (applied_log (ConsoleError "Ice error")),
                (applied_log (AddIceCandidate c)), app_nil_r. reflexivity. }
    destruct Hc as (w1 & -> & Hcm & Happ).
    destruct (IH w1) as (w' & Hrun & Hcm' & Happ'); [by rewrite Hcm|].
    exists w'. split; [exact Hrun|]. split; [congruence|].
    rewrite Happ', Happ, <- app_assoc. reflexivity.
Qed.

Lemma relay_run b notifications w pc :
  CallModalState.peerConnection (cm w) = Some pc →
  ∃ w', relay b notifications w = (Ok tt, w') ∧
        cm w' = cm w ∧ applied w' = applied w ++ concat notifications.
Proof.
  revert w. induction notifications as [|n ns IH]; intros w Hpc.
  - exists w. cbn. rewrite app_nil_r. done.
  - unfold relay in *. cbn [forEach]. rewrite bind_run.
    destruct (candidatesChanged_run b n w pc Hpc) as (w1 & -> & Hcm & Happ).
    destruct (IH w1) as (w' & Hrun & Hcm' & Happ'); [by rewrite Hcm|].
    exists w'. split; [exact Hrun|]. split; [congruence|].
    rewrite Happ', Happ. cbn [concat]. rewrite <- app_assoc. reflexivity.
Qed.

Lemma occurrences_app c l1 l2 :
  occurrences c (l1 ++ l2) = (occurrences c l1 + occurrences c l2)%nat.
Proof. unfold occurrences. rewrite filter_app, length_app. reflexivity. Qed.

(** C1, as the code has it.  With a peer connection in place, a sequence
    of notifications is handled without an error reaching the caller, and the
    candidates handed to [addIceCandidate] are those of every notification,
    all of them, in the order delivered: a candidate is applied once for each
    time it is delivered (so at least once), not once overall. *)
Theorem relay_applies_every_delivery b w pc notifications :
  CallModalState.peerConnection (cm w) = Some pc →
  let w' := exec (relay b notifications) w in
  (relay b notifications w).1 = Ok tt ∧
  applied w' = applied w ++ concat notifications ∧
  ∀ c, occurrences c (applied w')
       = (occurrences c (applied w) + occurrences c (concat notifications))%nat.
Proof.
  intros Hpc w'. subst w'. unfold exec.
  destruct (relay_run b notifications w pc Hpc) as (w' & -> & _ & Happ).
  cbn [fst snd]. split; [reflexivity|]. split; [exact Happ|].
  intros c. rewrite Happ. apply occurrences_app.
Qed.

Lemma relay_applies_every_delivery_witness :
  applied (exec (relay Scenario.browser [[Scenario.c1]; [Scenario.c1; Scenario.c2]])
             (world Scenario.aliceCalling))
  = [Scenario.c1; Scenario.c1; Scenario.c2].
Proof.
  assert (Hpc : ∃ pc, CallModalState.peerConnection (cm (world Scenario.aliceCalling))
                      = Some pc).
  { vm_compute. eexists. reflexivity. }
  destruct Hpc as (pc & Hpc).
  destruct (relay_applies_every_delivery Scenario.browser (world Scenario.aliceCalling) pc
              [[Scenario.c1]; [Scenario.c1; Scenario.c2]] Hpc) as (_ & H & _).
  exact H.
Defined.

(** C1, as stated, fails: of two notifications the second repeats the
    candidate of the first, and that candidate is applied twice. *)
Lemma relay_applies_duplicates :
  ¬ appliedExactlyOnce Scenario.browser (world Scenario.aliceCalling)
      [[Scenario.c1]; [Scenario.c1; Scenario.c2]].
Proof.
  intros H. specialize (H Scenario.c1).
  assert (Hin : Scenario.c1 ∈ concat [[Scenario.c1]; [Scenario.c1; Scenario.c2]])
    by apply list_elem_of_here.
  specialize (H Hin). vm_compute in H. discriminate H.
Qed.

(** ** C6: the responder writes its answer last *)

Lemma lookup_setup_rest (g n : Effect) (adds rest : list Effect) (k : nat) :
  ([g] ++ [n] ++ adds ++ rest) !! (2 + length adds + k)%nat = rest !! k.
Proof. do 3 (rewrite lookup_app_r by (simpl; lia)). f_equal. simpl. lia. Qed.

Lemma lookup_setup_back (g n : Effect) (adds rest : list Effect) (k d : nat) :
  (d ≤ k)%nat →
  ([g] ++ [n] ++ adds ++ rest) !! (2 + length adds + k - d)%nat = rest !! (k - d)%nat.
Proof.
  intros Hd.
  replace (2 + length adds + k - d)%nat with (2 + length adds + (k - d))%nat by lia.
  apply lookup_setup_rest.
Qed.

Lemma lookup_setup_inv (g n : Effect) (adds rest : list Effect) (j : nat) (e : Effect) :
  g ≠ e → n ≠ e → e ∉ adds →
  ([g] ++ [n] ++ adds ++ rest) !! j = Some e →
  ∃ k, j = (2 + length adds + k)%nat ∧ rest !! k = Some e.
Proof.
  intros Hg Hn Ha Hj. destruct j as [|[|j]]; simpl in Hj; [congruence..|].
  destruct (decide (j < length adds)%nat) as [Hlt|Hge].
  - rewrite lookup_app_l in Hj by exact Hlt.
    exfalso. apply Ha. eapply list_elem_of_lookup_2, Hj.
  - rewrite lookup_app_r in Hj by lia.
    exists (j - length adds)%nat. split; [lia|exact Hj].
Qed.

Lemma addTrack_not_write (tracks : list MediaStreamTrack.t) (stream : nat) p v :
  DbSet p v ∉ (λ t, AddTrack t stream) <$> tracks.
Proof. intros H. apply list_elem_of_fmap in H as (t & Ht & _). discriminate Ht. Qed.

(** C6.  On the responder side, the answer is written only after the offer
    was applied.  In every run of [startCall], whatever the browser and the
    store answer, a write of [calls/${callId}/answer] is made only directly
    after [setRemoteDescription(offer)], [createAnswer()] and
    [setLocalDescription(answer)], in that order, each of them resolved, and
    what is written is the answer that was created.  And the responder does
    take these steps: when the media are granted and nothing is refused, the
    calls it makes are the media request, the new peer connection, the
    tracks, then [setRemoteDescription(offer)], [createAnswer()],
    [setLocalDescription(answer)] and the write of the answer, in this order
    and each once, followed by nothing but the registration of a listener;
    the answer is in the store afterwards. *)
Theorem responder_answers_after_offer b props cid w ic :
  CallModalProps.incomingCall props = Some ic →
  (∃ added,
     trace (exec (CallModal.startCall b props cid) w) = trace w ++ added ∧
     answerAfterOffer b cid (IncomingCallData.offer ic) added) ∧
  (∀ tracks sdp,
     mediaGranted b (mediaRequests w) (CallModal.userMediaRequest props) = Some tracks →
     (∀ pc, acceptsRemote b pc (IncomingCallData.offer ic) = true) →
     answerSdp b = Some sdp →
     (∀ pc, acceptsLocal b pc (CallSignal.mk CallSignal.answer sdp) = true) →
     storeAccepts b ["calls"; cid; "answer"] = true →
     let answer := CallSignal.mk CallSignal.answer sdp in
     let r := CallModal.startCall b props cid w in
     r.1 = Ok tt ∧
     (∃ rest,
        trace r.2
        = trace w
            ++ [GetUserMedia (CallModal.userMediaRequest props); NewRTCPeerConnection]
            ++ ((λ t, AddTrack t (mediaRequests w)) <$> tracks)
            ++ [SetRemoteDescription (IncomingCallData.offer ic); CreateAnswer;
                SetLocalDescription answer;
                DbSet ["calls"; cid; "answer"] (VSignal answer)]
            ++ rest ∧
        ∀ e, e ∈ rest → ∃ p l, e = OnValue p l) ∧
     store r.2 !! ["calls"; cid; "answer"] = Some (VSignal answer)).
Proof.
  intros Hic. split.
  - change (wp (CallModal.startCall b props cid)
              (λ _ w', ∃ added, trace w' = trace w ++ added ∧
                         answerAfterOffer b cid (IncomingCallData.offer ic) added) w).
    unfold CallModal.startCall, CallModal.initiatorPartner, CallModal.isInitiator.
    rewrite Hic.
    repeat first
      [ wp_step | wp_case
      | eapply wp_exact; [apply forEach_addTrack; reflexivity|]; cbv beta iota zeta; wsimpl ].
    all: rewrite <- ?app_assoc.
    all: eexists; (split; [reflexivity|]).
    all: intros j v Hj.
    all: try (destruct j as [|[|[|j]]]; discriminate Hj).
    all: apply lookup_setup_inv in Hj as (k & -> & Hk);
           [|discriminate|discriminate|apply addTrack_not_write].
    all: do 8 (try (destruct k as [|k]; [try discriminate Hk|])); try discriminate Hk.
    all: injection Hk as <-.
    all: do 3 eexists.
    all: (split; [lia|]).
    all: rewrite !lookup_setup_back by lia.
    all: cbn [Nat.sub].
    all: (split; [reflexivity|]).
    all: (split; [eassumption|]).
    all: (split; [reflexivity|]).
    all: (split; [eassumption|]).
    all: (split; [reflexivity|]).
    all: (split; [eassumption|reflexivity]).
  - intros tracks sdp Hg Hr Ha Hl Hs answer r. subst answer r.
    wp_start (CallModal.startCall b props cid) w.
    unfold CallModal.startCall, CallModal.initiatorPartner, CallModal.isInitiator.
    rewrite Hic.
    repeat first
      [ wp_step | wp_hyp | wp_case
      | eapply wp_exact; [apply forEach_addTrack; reflexivity|]; cbv beta iota zeta; wsimpl ].
    all: try match goal with H : acceptsLocal _ _ _ = false |- _ =>
           rewrite Hl in H; discriminate H end.
    all: try match goal with H : acceptsRemote _ _ _ = false |- _ =>
           rewrite Hr in H; discriminate H end.
    all: rewrite ?lookup_insert_eq; cbn [default from_option id].
    all: split; [reflexivity|].
    all: split; [|rewrite lookup_db_set by discriminate;
                   rewrite decide_True by reflexivity; reflexivity].
    all: rewrite <- ?app_assoc.
    all: first
      [ exists []; split; [reflexivity|]; intros e He; by apply elem_of_nil in He
      | eexists [_]; split; [reflexivity|]; intros e He;
        apply list_elem_of_singleton in He as ->; eauto ].
Qed.

Lemma responder_answers_after_offer_witness :
  ∃ rest,
    trace (CallModal.startCall Scenario.browser Scenario.bobProps
             "alice_1700000000000" Scenario.bobRinging).2
    = trace Scenario.bobRinging
        ++ [GetUserMedia (CallModal.userMediaRequest Scenario.bobProps); NewRTCPeerConnection]
        ++ ((λ t, AddTrack t 0%nat) <$> [Scenario.mic; Scenario.front])
        ++ [SetRemoteDescription Scenario.theOffer; CreateAnswer;
            SetLocalDescription Scenario.theAnswer;
            DbSet ["calls"; "alice_1700000000000"; "answer"] (VSignal Scenario.theAnswer)]
        ++ rest.
Proof.
  destruct (proj2 (responder_answers_after_offer Scenario.browser Scenario.bobProps
                     "alice_1700000000000" Scenario.bobRinging Scenario.invitation eq_refl)
              [Scenario.mic; Scenario.front] "v=0 answer"
              eq_refl (λ _, eq_refl) eq_refl (λ _, eq_refl) eq_refl)
    as (_ & (rest & Hrest & _) & _).
  exists rest. exact Hrest.
Defined.

(** Bob's run does write the answer, as its eighth call. *)
Example bob_writes_answer :
  trace (exec (CallModal.startCall Scenario.browser Scenario.bobProps
                 "alice_1700000000000") Scenario.bobRinging) !! 7%nat
  = Some (DbSet ["calls"; "alice_1700000000000"; "answer"] (VSignal Scenario.theAnswer)).
Proof. vm_compute. reflexivity. Qed.

(** ** C5: when the status becomes "Connected" *)

(** Runs component code that has no [setConnectionStatus("Connected")] on
    its path, keeping the invariant through every call and loop. *)
Ltac keep_notConnected :=
  unfold notConnected in *;
  repeat first
    [ wp_step | wp_case
    | apply (wp_forEach (λ w, CallModalState.connectionStatus (cm w) ≠ "Connected"));
      [ intros ? ? ? | | intros ? ? ] ];
  cbv beta; wsimpl;
  try (split; [reflexivity|]);
  first [ assumption | discriminate ].

Lemma startCall_notConnected b props cid :
  preserves notConnected (CallModal.startCall b props cid).
Proof. intros w H. unfold CallModal.startCall. keep_notConnected. Qed.

Lemma effect_notConnected b props cid :
  preserves notConnected (CallModal.effect b props cid).
Proof.
  intros w H. unfold wp. rewrite effect_run. apply startCall_notConnected. exact H.
Qed.

Lemma cleanup_notConnected b props cid :
  preserves notConnected (CallModal.cleanup b props cid).
Proof. intros w H. unfold CallModal.cleanup. keep_notConnected. Qed.

Lemma dispatch_notConnected b props cid ev :
  ev ≠ ConnectionStateChanged connected →
  preserves notConnected (dispatch b props cid ev).
Proof.
  intros Hev w H. destruct ev; unfold dispatch.
  6: { destruct state; try congruence; keep_notConnected. }
  all: keep_notConnected.
Qed.

Lemma commit_notConnected b now s :
  notConnected (world s) → notConnected (world (commit b now s)).
Proof.
  intros H. unfold commit.
  destruct (mounted s) as [[props cid]|], (rendered (app (world s))) as [props'|];
    cbn [world]; try exact H.
  - apply cleanup_notConnected, H.
  - apply effect_notConnected. unfold notConnected. cbn. discriminate.
Qed.

Lemma step_notConnected b now ev s :
  ev ≠ ConnectionStateChanged connected →
  notConnected (world s) → notConnected (world (step b now ev s)).
Proof.
  intros Hev H.
  assert (Hc : ∀ mo props cid,
    notConnected (world (commit b now
      (mkSystem mo (exec (dispatch b props cid ev) (world s)))))).
  { intros mo props cid. apply commit_notConnected. cbn [world].
    apply dispatch_notConnected; assumption. }
  assert (Ha : ∀ m : M unit, preserves notConnected m →
    notConnected (world (commit b now (mkSystem (mounted s) (exec m (world s)))))).
  { intros m Hm. apply commit_notConnected. cbn [world]. apply Hm, H. }
  unfold step.
  destruct ev; try (destruct (mounted s) as [[props cid]|]; [apply Hc | exact H]).
  - match goal with |- context [timers (world s) !! ?n] =>
      destruct (timers (world s) !! n) as [[ms []]|]; [|exact H] end.
    apply commit_notConnected. cbn [world].
    unfold runCallback, CallModal.onEndCall, App.endCall, exec. munfold. exact H.
  - apply Ha. intros w Hw. keep_notConnected.
  - apply Ha. intros w Hw. keep_notConnected.
  - apply Ha. intros w Hw. keep_notConnected.
Qed.

(** C5.  Whatever the event (a store notification, a callback of the peer
    connection, a timer, a button) and whatever the browser answers, the
    status shown is "Connected" after the event only if it already was, or
    the event is the connection-state callback reporting [connected].
    Mounting the component, which on the responder side runs the whole
    offer/answer exchange, never yields "Connected", and neither does the
    arrival of the answer on the initiator side. *)
Theorem connected_only_on_connection_state b now :
  (∀ ev s,
     CallModalState.connectionStatus (cm (world (step b now ev s))) = "Connected" →
     CallModalState.connectionStatus (cm (world s)) = "Connected" ∨
     ev = ConnectionStateChanged connected) ∧
  (∀ s,
     CallModalState.connectionStatus (cm (world (commit b now s))) = "Connected" →
     CallModalState.connectionStatus (cm (world s)) = "Connected").
Proof.
  split.
  - intros ev s Hafter.
    destruct (decide (CallModalState.connectionStatus (cm (world s)) = "Connected"))
      as [Hs|Hs]; [left; exact Hs|right].
    assert (Hdec : ev = ConnectionStateChanged connected ∨
                   ev ≠ ConnectionStateChanged connected).
    { destruct ev; try (right; discriminate).
      destruct state; (left; reflexivity) || (right; discriminate). }
    destruct Hdec as [Hev|Hev]; [exact Hev|].
    exfalso. exact (step_notConnected b now ev s Hev Hs Hafter).
  - intros s Hafter.
    destruct (decide (CallModalState.connectionStatus (cm (world s)) = "Connected"))
      as [Hs|Hs]; [exact Hs|].
    exfalso. exact (commit_notConnected b now s Hs Hafter).
Qed.

Lemma connected_only_on_connection_state_witness :
  CallModalState.connectionStatus
    (cm (world (step Scenario.browser 1700000001000 (ConnectionStateChanged connected)
                  Scenario.aliceCalling))) = "Connected" ∧
  (CallModalState.connectionStatus (cm (world Scenario.aliceCalling)) = "Connected" ∨
   ConnectionStateChanged connected = ConnectionStateChanged connected).
Proof.
  assert (H : CallModalState.connectionStatus
    (cm (world (step Scenario.browser 1700000001000 (ConnectionStateChanged connected)
                  Scenario.aliceCalling))) = "Connected") by (vm_compute; reflexivity).
  split; [exact H|].
  exact (proj1 (connected_only_on_connection_state Scenario.browser 1700000001000)
           (ConnectionStateChanged connected) Scenario.aliceCalling H).
Defined.

(** ** C8: switching the camera *)

Lemma findIndex_bounds {A} (f : A → bool) (l : list A) :
  (-1 ≤ findIndex f l < Z.of_nat (length l))%Z.
Proof.
  induction l as [|x l IH]; simpl; [lia|].
  destruct (f x); [lia|].
  destruct (Z.ltb_spec (findIndex f l) 0); lia.
Qed.

(** The JavaScript expression [videoInputs[(currentIndex + 1) % videoInputs.length]]
    is the element at [(currentIndex + 1) mod count]. *)
Lemma nextDevice_mod (videoInputs : list MediaDeviceInfo.t) (currentDeviceId : option string) :
  videoInputs ≠ [] →
  CallModal.nextDevice videoInputs currentDeviceId =
  videoInputs !! Z.to_nat ((CallModal.currentIndex videoInputs currentDeviceId + 1)
                             `mod` Z.of_nat (length videoInputs)).
Proof.
  intros Hne. unfold CallModal.nextDevice, js_rem, js_index.
  pose proof (findIndex_bounds
    (λ d, bool_decide (Some (MediaDeviceInfo.deviceId d) = currentDeviceId)) videoInputs) as Hb.
  fold (CallModal.currentIndex videoInputs currentDeviceId) in Hb.
  destruct (Z.eqb_spec (Z.of_nat (length videoInputs)) 0) as [H0|H0].
  { destruct videoInputs; [done|simpl in H0; lia]. }
  rewrite Z.rem_mod_nonneg by lia.
  destruct (Z.ltb_spec ((CallModal.currentIndex videoInputs currentDeviceId + 1)
                          `mod` Z.of_nat (length videoInputs)) 0) as [Hlt|_]; [|reflexivity].
  pose proof (Z.mod_pos_bound (CallModal.currentIndex videoInputs currentDeviceId + 1)
                (Z.of_nat (length videoInputs))). lia.
Qed.

(** What [switchCamera] does.  With more than one camera known, a local
    stream with a video track, a sender for it on the peer connection and a
    browser that grants the request, [switchCamera] enumerates the devices,
    takes the video input at [(currentIndex + 1) mod count], acquires a
    video-only stream from exactly that device, replaces the track of the
    video sender by the new track, takes the old track out of the local
    stream and puts the new one in, and points the preview at the local
    stream.  The only calls made are [enumerateDevices], [getUserMedia] and
    [replaceTrack]: no description is created or set, the description slots
    of the peer connection are untouched, and no track is stopped. *)
Theorem switchCamera_replaces_track b w localStream tracks currentTrack devs nextDevice
    newTracks newTrack pc i preview :
  CallModalState.localStream (cm w) = Some localStream →
  CallModalState.hasMultipleCameras (cm w) = true →
  streams w !! localStream = Some tracks →
  (localStream < mediaRequests w)%nat →
  head (filter isVideoTrack tracks) = Some currentTrack →
  devices b = Some devs →
  CallModal.nextDevice (CallModal.videoInputs devs) (MediaStreamTrack.deviceId currentTrack)
    = Some nextDevice →
  mediaGranted b (mediaRequests w) (CallModal.cameraRequest nextDevice) = Some newTracks →
  head (filter isVideoTrack newTracks) = Some newTrack →
  CallModalState.peerConnection (cm w) = Some pc →
  findPosition CallModal.isVideoSender (RTCPeerConnection.senders pc) = Some i →
  acceptsReplace b (Some newTrack) = true →
  CallModalState.localVideoRef (cm w) = Some preview →
  CallModal.videoInputs devs
    !! Z.to_nat ((CallModal.currentIndex (CallModal.videoInputs devs)
                    (MediaStreamTrack.deviceId currentTrack) + 1)
                 `mod` Z.of_nat (length (CallModal.videoInputs devs)))
    = Some nextDevice ∧
  let r := CallModal.switchCamera b w in
  r.1 = Ok tt ∧
  trace r.2 = trace w ++ [EnumerateDevices; GetUserMedia (CallModal.cameraRequest nextDevice);
                          ReplaceTrack i (Some newTrack)] ∧
  CallModalState.peerConnection (cm r.2)
    = Some (RTCPeerConnection.with_senders
              (<[i := RTCRtpSender.mk (Some newTrack)]> (RTCPeerConnection.senders pc)) pc) ∧
  CallModalState.localStream (cm r.2) = Some localStream ∧
  streams r.2 !! localStream
    = Some (let rest := filter (λ t, t ≠ currentTrack) tracks in
            if decide (newTrack ∈ rest) then rest else rest ++ [newTrack]) ∧
  CallModalState.localVideoRef (cm r.2) = Some (HTMLVideoElement.mk (Some localStream)) ∧
  stopped r.2 = stopped w.
Proof.
  intros Hls Hmulti Htracks Hfresh Hcur Hdevs Hnext Hgrant Hnew Hpc Hsender Hrep Hprev.
  split.
  { rewrite <- nextDevice_mod; [exact Hnext|].
    intros E. rewrite E in Hnext. discriminate Hnext. }
  intros r. subst r.
  wp_start (CallModal.switchCamera b) w.
  unfold CallModal.switchCamera.
  repeat first [ wp_step | wp_hyp ].
  rewrite Hmulti. cbn [negb].
  repeat first [ wp_step | wp_hyp ].
  rewrite Htracks. cbn [default from_option id]. rewrite Hcur. cbn [mbind option_bind].
  repeat first [ wp_step | wp_hyp ].
  rewrite lookup_insert_eq. cbn [default from_option id]. rewrite Hnew.
  rewrite Hpc. cbn [mbind option_bind].
  repeat first [ wp_step | wp_hyp ].
  split; [reflexivity|]. split; [by rewrite <- !app_assoc|].
  split; [reflexivity|]. split; [exact Hls|].
  split; [|split; reflexivity].
  rewrite !lookup_alter_eq, lookup_insert_ne, Htracks by lia. reflexivity.
Qed.

Lemma switchCamera_replaces_track_witness :
  let r := CallModal.switchCamera Scenario.browser Scenario.twoCameras in
  r.1 = Ok tt ∧
  trace r.2 = trace Scenario.twoCameras
                ++ [EnumerateDevices; GetUserMedia (CallModal.cameraRequest Scenario.cam1);
                    ReplaceTrack 1 (Some Scenario.back)] ∧
  streams r.2 !! 0%nat = Some [Scenario.mic; Scenario.back] ∧
  CallModalState.localVideoRef (cm r.2) = Some (HTMLVideoElement.mk (Some 0%nat)).
Proof.
  assert (Hpc : ∃ pc, CallModalState.peerConnection (cm Scenario.twoCameras) = Some pc ∧
                      findPosition CallModal.isVideoSender (RTCPeerConnection.senders pc)
                      = Some 1%nat).
  { vm_compute. eexists. split; reflexivity. }
  destruct Hpc as (pc & Hpc & Hsender).
  assert (Hfresh : (0 < mediaRequests Scenario.twoCameras)%nat) by (vm_compute; lia).
  destruct (switchCamera_replaces_track Scenario.browser Scenario.twoCameras 0%nat
              [Scenario.mic; Scenario.front] Scenario.front
              [Scenario.mic0; Scenario.cam0; Scenario.cam1] Scenario.cam1
              [Scenario.back] Scenario.back pc 1%nat (HTMLVideoElement.mk (Some 0%nat))
              eq_refl eq_refl eq_refl Hfresh eq_refl eq_refl eq_refl eq_refl eq_refl
              Hpc Hsender eq_refl eq_refl)
    as (_ & H1 & H2 & _ & _ & H3 & H4 & _).
  split; [exact H1|]. split; [exact H2|]. split; [exact H3|exact H4].
Defined.

(** C8, as stated, fails on its last step: after Alice has switched from
    her front camera to the back one, the front track has not been
    stopped. *)
Lemma switchCamera_leaves_old_track_live :
  ¬ stopsOldTrack Scenario.browser Scenario.twoCameras Scenario.front.
Proof.
  unfold stopsOldTrack. intros H.
  assert (Hs : stopped (exec (CallModal.switchCamera Scenario.browser) Scenario.twoCameras)
               = ∅) by (vm_compute; reflexivity).
  rewrite Hs in H. exact (not_elem_of_empty _ H).
Qed.

(** C8, at the failing input.  Alice switches from her front camera to the
    back one and then hangs up.  [switchCamera] takes the front track out
    of the local stream without stopping it; the cleanup stops the tracks
    that are in the local stream, the microphone and the back camera, and
    so the front camera is never stopped. *)
Lemma switchCamera_leaks_old_track :
  let w1 := exec (CallModal.switchCamera Scenario.browser) Scenario.twoCameras in
  let w2 := exec (CallModal.cleanup Scenario.browser Scenario.aliceProps
                    "alice_1700000000000") w1 in
  streams Scenario.twoCameras !! 0%nat = Some [Scenario.mic; Scenario.front] ∧
  streams w1 !! 0%nat = Some [Scenario.mic; Scenario.back] ∧
  stopped w1 = ∅ ∧
  MediaStreamTrack.id Scenario.mic ∈ stopped w2 ∧
  MediaStreamTrack.id Scenario.back ∈ stopped w2 ∧
  MediaStreamTrack.id Scenario.front ∉ stopped w2.
Proof.
  intros w1 w2.
  assert (Hs : stopped w2 = {[0%nat; 2%nat]}) by (vm_compute; reflexivity).
  rewrite Hs.
  split; [vm_compute; reflexivity|]. split; [vm_compute; reflexivity|].
  split; [vm_compute; reflexivity|].
  cbn [MediaStreamTrack.id Scenario.mic Scenario.back Scenario.front].
  rewrite !elem_of_union, !elem_of_singleton.
  split; [by left|]. split; [by right|]. intros [H|H]; discriminate H.
Qed.

(** ** C9: no second camera, or the new camera refused *)

(** If the device check of the component found fewer than two video
    inputs, or the browser refuses every request for a camera, then
    [switchCamera] returns normally and changes neither the local stream, nor
    its tracks, nor the peer connection and its senders, nor the preview,
    nor the store: the call goes on with the track it had.  A refused
    request is reported: when a camera was asked for, the last call made is
    the [console.error] of the catch block. *)
Theorem switchCamera_fails_silently b w devs :
  (length (CallModal.videoInputs devs) < 2)%nat ∨
  (∀ n d, mediaGranted b n (CallModal.cameraRequest d) = None) →
  let w0 := exec (CallModal.devicesEnumerated devs) w in
  let r := CallModal.switchCamera b w0 in
  r.1 = Ok tt ∧
  cm r.2 = cm w0 ∧ streams r.2 = streams w0 ∧ stopped r.2 = stopped w0 ∧
  store r.2 = store w0 ∧ app r.2 = app w0 ∧
  listeners r.2 = listeners w0 ∧ timers r.2 = timers w0 ∧
  (∀ c, GetUserMedia c ∈ drop (length (trace w0)) (trace r.2) →
        last (trace r.2) = Some (ConsoleError "Error switching camera:")).
Proof.
  intros H w0 r. subst r.
  wp_start (CallModal.switchCamera b) w0.
  destruct H as [H|H].
  - assert (Hflag : CallModalState.hasMultipleCameras (cm w0) = false).
    { subst w0. unfold CallModal.devicesEnumerated, CallModal.setHasMultipleCameras.
      munfold. wsimpl. apply bool_decide_eq_false. lia. }
    unfold CallModal.switchCamera. wp_step. wp_step.
    wp_case; [rewrite Hflag; cbn [negb]|]; wp_step; repeat (split; [done|]).
    all: intros c Hc; rewrite drop_all in Hc; by apply elem_of_nil in Hc.
  - clearbody w0. unfold CallModal.switchCamera.
    repeat first [ wp_step | wp_case ].
    all: try match goal with Hg : mediaGranted _ _ _ = Some _ |- _ =>
           rewrite H in Hg; discriminate Hg end.
    all: repeat (split; [done|]).
    all: intros c Hc; rewrite ?last_snoc; try reflexivity.
    all: exfalso; rewrite ?drop_all, ?drop_app_length in Hc.
    all: apply list_elem_of_In in Hc; simpl in Hc; intuition discriminate.
Qed.

Lemma switchCamera_fails_silently_witness :
  let w0 := exec (CallModal.devicesEnumerated [Scenario.mic0; Scenario.cam0])
                 (world Scenario.aliceCalling) in
  (CallModal.switchCamera Scenario.browser w0).1 = Ok tt ∧
  streams (CallModal.switchCamera Scenario.browser w0).2 !! 0%nat
  = Some [Scenario.mic; Scenario.front].
Proof.
  intros w0.
  destruct (switchCamera_fails_silently Scenario.browser (world Scenario.aliceCalling)
              [Scenario.mic0; Scenario.cam0]) as (H1 & _ & H2 & _).
  { left. vm_compute. lia. }
  split; [exact H1|].
  fold w0 in H2. rewrite H2. vm_compute. reflexivity.
Defined.

(** C9, at the failing input.  The device check at mount found two cameras;
    one has been unplugged since.  The guard of [switchCamera] reads the
    flag of the mount, so it lets the press through; the one camera left is
    at position [(0 + 1) mod 1 = 0], it is acquired again, and the video
    track is replaced by the new one, on the sender and in the local
    stream. *)
Lemma switchCamera_with_one_camera_left :
  let w := Scenario.twoCameras in
  let r := CallModal.switchCamera Unplugged.browser w in
  CallModalState.hasMultipleCameras (cm w) = true ∧
  CallModal.videoInputs <$> devices Unplugged.browser = Some [Scenario.cam0] ∧
  streams w !! 0%nat = Some [Scenario.mic; Scenario.front] ∧
  r.1 = Ok tt ∧
  trace r.2 = trace w ++ [EnumerateDevices; GetUserMedia (CallModal.cameraRequest Scenario.cam0);
                          ReplaceTrack 1 (Some Unplugged.again)] ∧
  streams r.2 !! 0%nat = Some [Scenario.mic; Unplugged.again].
Proof. vm_compute. repeat split. Qed.

(** C9, as stated, fails there: with one camera listed the video track of
    the local stream is not the one it was. *)
Lemma switchCamera_replaces_the_only_camera :
  ¬ unchangedWithoutSecondCamera Unplugged.browser Scenario.twoCameras.
Proof.
  intros H.
  specialize (H [Scenario.mic0; Scenario.cam0] 0%nat eq_refl).
  assert (Hlen : (length (CallModal.videoInputs [Scenario.mic0; Scenario.cam0]) < 2)%nat)
    by (vm_compute; lia).
  specialize (H Hlen eq_refl). vm_compute in H. discriminate H.
Qed.

(* ================================================================== *)
(** * Further properties

    Properties of the code beyond the ten claims: of [startCall] and the
    exchange of offer and answer, of the candidates, the cleanup, the
    listeners and timers, of the buttons of [App] and of the component, of
    [ProfileModal], of the profile of a new user and of the chat ids. *)

(** Runs component code to its end: a hypothesis decides a case distinction
    where there is one, the loops over tracks are taken whole. *)
Ltac wp_auto :=
  repeat first
    [ wp_step | wp_hyp | wp_case
    | eapply wp_exact; [apply forEach_addTrack; reflexivity|]; cbv beta iota zeta; wsimpl
    | eapply wp_exact; [apply forEach_stop|]; cbv beta iota zeta; wsimpl ].

Lemma not_prefix_head (a b : string) (p q : Path) : a ≠ b → ¬ (a :: p) `prefix_of` (b :: q).
Proof. intros Hab [k Hk]. injection Hk as ->. congruence. Qed.

(** ** The initiator side of [startCall] *)

(** X1.  In every run of [startCall] on the initiator side, whatever the
    browser and the store answer, the invitation is written to the partner's
    inbox only directly after the status write, [createOffer()] and
    [setLocalDescription(offer)], the last two resolved; it carries the call
    id of this component, the caller's uid and name, and the offer that was
    created. *)
Theorem initiator_invites_after_offer b props cid w partner :
  CallModal.initiatorPartner props = Some partner →
  ∃ added,
    trace (exec (CallModal.startCall b props cid) w) = trace w ++ added ∧
    invitationAfterOffer b props cid partner added.
Proof.
  intros Hp.
  change (wp (CallModal.startCall b props cid)
            (λ _ w', ∃ added, trace w' = trace w ++ added ∧
                       invitationAfterOffer b props cid partner added) w).
  unfold CallModal.startCall. rewrite Hp.
  repeat first
    [ wp_step | wp_case
    | eapply wp_exact; [apply forEach_addTrack; reflexivity|]; cbv beta iota zeta; wsimpl ].
  all: rewrite <- ?app_assoc.
  all: eexists; (split; [reflexivity|]).
  all: intros j v Hj.
  all: try (destruct j as [|[|[|j]]]; discriminate Hj).
  all: apply lookup_setup_inv in Hj as (k & -> & Hk);
         [|discriminate|discriminate|apply addTrack_not_write].
  all: do 8 (try (destruct k as [|k]; [try discriminate Hk|])); try discriminate Hk.
  all: injection Hk as <-.
  all: do 2 eexists.
  all: (split; [lia|]).
  all: rewrite !lookup_setup_back by lia.
  all: cbn [Nat.sub].
  all: (split; [reflexivity|]).
  all: (split; [reflexivity|]).
  all: (split; [eassumption|]).
  all: (split; [reflexivity|]).
  all: (split; [eassumption|reflexivity]).
Qed.

Lemma initiator_invites_after_offer_witness :
  ∃ added,
    trace (exec (CallModal.startCall Scenario.browser Scenario.aliceProps
                   "alice_1700000000000") (world Scenario.dialing))
      = trace (world Scenario.dialing) ++ added ∧
    invitationAfterOffer Scenario.browser Scenario.aliceProps "alice_1700000000000"
      Scenario.bob added.
Proof.
  exact (initiator_invites_after_offer Scenario.browser Scenario.aliceProps
           "alice_1700000000000" (world Scenario.dialing) Scenario.bob eq_refl).
Defined.

(** ** [startCall] lets no error escape *)

(** X2.  [startCall] always returns normally and leaves [App] alone.  If
    one of its awaited steps is rejected (the media request, the offer or
    answer, a description, the write of the invitation or of the answer),
    then, whichever step it was, the status shown is "Failed to access media
    devices", the last two calls made are the [console.error] and the
    [setTimeout] of the catch block, and one timer of 3000 ms for
    [onEndCall] has been added.  If none is rejected, the status shown and
    the timers are as before. *)
Theorem startCall_catches_everything b props cid w :
  let r := CallModal.startCall b props cid w in
  r.1 = Ok tt ∧
  app r.2 = app w ∧
  if stepRejected b props cid w then
    CallModalState.connectionStatus (cm r.2) = "Failed to access media devices" ∧
    timers r.2 = timers w ++ [(3000%Z, cb_onEndCall)] ∧
    ∃ l, trace r.2 = l ++ [ConsoleError "Error starting call:";
                           SetTimeout cb_onEndCall 3000]
  else
    CallModalState.connectionStatus (cm r.2) = CallModalState.connectionStatus (cm w) ∧
    timers r.2 = timers w.
Proof.
  intros r. subst r.
  wp_start (CallModal.startCall b props cid) w.
  unfold CallModal.startCall, stepRejected, sendersOf.
  repeat first
    [ wp_step | wp_case
    | eapply wp_exact; [apply forEach_addTrack; reflexivity|]; cbv beta iota zeta; wsimpl ].
  all: split; [reflexivity|]; split; [reflexivity|].
  all: rewrite ?lookup_insert_eq in *; cbn [default from_option id] in *.
  all: repeat match goal with
         | H : ?x = _ |- context [?x] => rewrite H
         end.
  all: cbn [negb orb].
  all: first
    [ split; reflexivity
    | split; [reflexivity|]; split; [reflexivity|];
      eexists; rewrite <- (app_assoc _ [_] [_]); reflexivity ].
Qed.

(** ** A failure after the media was granted *)

(** X3.  On the initiator side, when the camera and microphone were
    granted but [createOffer] is rejected, the status shown is still
    "Failed to access media devices".  The local stream acquired is kept and
    none of its tracks is stopped by the catch block; no invitation has been
    written to the partner's inbox and [startCall] has registered no
    listener. *)
Theorem rejected_offer_shown_as_media_failure b props cid w partner tracks :
  CallModal.initiatorPartner props = Some partner →
  mediaGranted b (mediaRequests w) (CallModal.userMediaRequest props) = Some tracks →
  offerSdp b = None →
  let w' := exec (CallModal.startCall b props cid) w in
  CallModalState.connectionStatus (cm w') = "Failed to access media devices" ∧
  CallModalState.localStream (cm w') = Some (mediaRequests w) ∧
  streams w' !! mediaRequests w = Some tracks ∧
  stopped w' = stopped w ∧
  store w' !! ["users"; UserProfile.uid partner; "incomingCall"]
    = store w !! ["users"; UserProfile.uid partner; "incomingCall"] ∧
  listeners w' = listeners w.
Proof.
  intros Hp Hg Ho w'. subst w'. unfold exec.
  wp_start (CallModal.startCall b props cid) w.
  unfold CallModal.startCall. rewrite Hp.
  wp_auto.
  all: split; [reflexivity|]; split; [reflexivity|]; split; [apply lookup_insert_eq|].
  all: split; [reflexivity|]; split; [|reflexivity].
  all: try reflexivity.
  all: rewrite lookup_db_set by discriminate.
  all: rewrite decide_False by discriminate.
  all: rewrite decide_False; [reflexivity|].
  all: intros [H|H]; revert H; apply not_prefix_head; discriminate.
Qed.

Lemma rejected_offer_shown_as_media_failure_witness :
  let w' := exec (CallModal.startCall Refusing.noOffer Scenario.aliceProps
                    "alice_1700000000000") (world Scenario.dialing) in
  CallModalState.connectionStatus (cm w') = "Failed to access media devices" ∧
  streams w' !! 0%nat = Some [Scenario.mic; Scenario.front] ∧
  stopped w' = ∅.
Proof.
  destruct (rejected_offer_shown_as_media_failure Refusing.noOffer Scenario.aliceProps
              "alice_1700000000000" (world Scenario.dialing) Scenario.bob
              [Scenario.mic; Scenario.front] eq_refl eq_refl eq_refl)
    as (H1 & _ & H2 & H3 & _).
  intros w'. split; [exact H1|]. split; [exact H2|exact H3].
Defined.

(** ** The exchange when nothing is refused *)

(** X4.  The initiator, when nothing is refused: the local stream is kept,
    the peer connection holds the tracks and has the offer pending as its
    local description, the invitation with that offer is in the partner's
    inbox, the answer listener is registered, and neither the status shown
    nor the timers have changed. *)
Theorem initiator_offers b props cid w partner tracks sdp :
  CallModal.initiatorPartner props = Some partner →
  mediaGranted b (mediaRequests w) (CallModal.userMediaRequest props) = Some tracks →
  offerSdp b = Some sdp →
  (∀ pc, acceptsLocal b pc (CallSignal.mk CallSignal.offer sdp) = true) →
  storeAccepts b ["users"; UserProfile.uid partner; "incomingCall"] = true →
  let r := CallModal.startCall b props cid w in
  r.1 = Ok tt ∧
  CallModalState.localStream (cm r.2) = Some (mediaRequests w) ∧
  CallModalState.peerConnection (cm r.2)
    = Some (RTCPeerConnection.mk new_ (Some (CallSignal.mk CallSignal.offer sdp))
              None None None (sendersOf tracks)) ∧
  inbox (store r.2) (UserProfile.uid partner) = Some (callData props cid sdp) ∧
  (["calls"; cid; "answer"], answerListener) ∈ listeners r.2 ∧
  CallModalState.connectionStatus (cm r.2) = CallModalState.connectionStatus (cm w) ∧
  timers r.2 = timers w.
Proof.
  intros Hp Hg Ho Hl Hs r. subst r.
  wp_start (CallModal.startCall b props cid) w.
  unfold CallModal.startCall. rewrite Hp. wp_auto.
  all: try match goal with H : acceptsLocal _ _ _ = false |- _ =>
         rewrite Hl in H; discriminate H end.
  all: rewrite ?lookup_insert_eq; cbn [default from_option id].
  all: split; [reflexivity|]; split; [reflexivity|]; split; [reflexivity|].
  all: split; [unfold inbox; wsimpl; rewrite lookup_db_set by discriminate;
               rewrite decide_True by reflexivity; reflexivity|].
  all: split; [|split; reflexivity].
  all: rewrite ?elem_of_app, ?list_elem_of_singleton; auto.
Qed.

Lemma initiator_offers_witness :
  inbox (store (CallModal.startCall Scenario.browser Scenario.aliceProps
                  "alice_1700000000000" (world Scenario.dialing)).2) "bob"
  = Some Scenario.invitation.
Proof.
  exact (proj1 (proj2 (proj2 (proj2
    (initiator_offers Scenario.browser Scenario.aliceProps "alice_1700000000000"
       (world Scenario.dialing) Scenario.bob [Scenario.mic; Scenario.front] "v=0 offer"
       eq_refl eq_refl eq_refl (λ _, eq_refl) eq_refl))))).
Defined.

(** X5.  The responder, when nothing is refused: the peer connection
    holds the tracks, the offer of the invitation is its remote description
    and the answer it created is its local one, both current, and that
    answer is in the store under the call of the invitation. *)
Theorem responder_answers b props cid w inv tracks sdp :
  CallModalProps.incomingCall props = Some inv →
  CallSignal.type (IncomingCallData.offer inv) = CallSignal.offer →
  mediaGranted b (mediaRequests w) (CallModal.userMediaRequest props) = Some tracks →
  (∀ pc, acceptsRemote b pc (IncomingCallData.offer inv) = true) →
  answerSdp b = Some sdp →
  (∀ pc, acceptsLocal b pc (CallSignal.mk CallSignal.answer sdp) = true) →
  storeAccepts b ["calls"; cid; "answer"] = true →
  let r := CallModal.startCall b props cid w in
  r.1 = Ok tt ∧
  CallModalState.localStream (cm r.2) = Some (mediaRequests w) ∧
  CallModalState.peerConnection (cm r.2)
    = Some (RTCPeerConnection.mk new_ None None
              (Some (CallSignal.mk CallSignal.answer sdp))
              (Some (IncomingCallData.offer inv)) (sendersOf tracks)) ∧
  answerOf (store r.2) cid = Some (CallSignal.mk CallSignal.answer sdp) ∧
  CallModalState.connectionStatus (cm r.2) = CallModalState.connectionStatus (cm w) ∧
  timers r.2 = timers w.
Proof.
  intros Hi Ht Hg Hr Ha Hl Hs r. subst r.
  wp_start (CallModal.startCall b props cid) w.
  unfold CallModal.startCall, CallModal.initiatorPartner, CallModal.isInitiator.
  rewrite Hi. wp_auto.
  all: try match goal with H : acceptsLocal _ _ _ = false |- _ =>
         rewrite Hl in H; discriminate H end.
  all: try match goal with H : acceptsRemote _ _ _ = false |- _ =>
         rewrite Hr in H; discriminate H end.
  all: rewrite ?lookup_insert_eq; cbn [default from_option id].
  all: unfold RTCPeerConnection.applyRemote, RTCPeerConnection.applyLocal; rewrite Ht.
  all: split; [reflexivity|]; split; [reflexivity|]; split; [reflexivity|].
  all: split; [unfold answerOf; wsimpl; rewrite lookup_db_set by discriminate;
               rewrite decide_True by reflexivity; reflexivity|].
  all: split; reflexivity.
Qed.

Lemma responder_answers_witness :
  answerOf (store (CallModal.startCall Scenario.browser Scenario.bobProps
                     "alice_1700000000000" Scenario.bobRinging).2) "alice_1700000000000"
  = Some Scenario.theAnswer.
Proof.
  exact (proj1 (proj2 (proj2 (proj2
    (responder_answers Scenario.browser Scenario.bobProps "alice_1700000000000"
       Scenario.bobRinging Scenario.invitation [Scenario.mic; Scenario.front] "v=0 answer"
       eq_refl eq_refl eq_refl (λ _, eq_refl) eq_refl (λ _, eq_refl) eq_refl))))).
Defined.

(** ** Both sides of a call *)

Lemma initiator_run b props cid w partner tracks sdp :
  CallModal.initiatorPartner props = Some partner →
  mediaGranted b (mediaRequests w) (CallModal.userMediaRequest props) = Some tracks →
  offerSdp b = Some sdp →
  (∀ pc, acceptsLocal b pc (CallSignal.mk CallSignal.offer sdp) = true) →
  storeAccepts b ["users"; UserProfile.uid partner; "incomingCall"] = true →
  let w' := exec (CallModal.startCall b props cid) w in
  CallModalState.peerConnection (cm w')
    = Some (RTCPeerConnection.mk new_ (Some (CallSignal.mk CallSignal.offer sdp))
              None None None (sendersOf tracks)) ∧
  inbox (store w') (UserProfile.uid partner) = Some (callData props cid sdp) ∧
  registered ["calls"; cid; "answer"] answerListener w' = true.
Proof.
  intros Hp Hg Ho Hl Hs w'. subst w'. unfold exec.
  wp_start (CallModal.startCall b props cid) w.
  unfold CallModal.startCall. rewrite Hp. wp_auto.
  all: try match goal with H : acceptsLocal _ _ _ = false |- _ =>
         rewrite Hl in H; discriminate H end.
  all: rewrite ?lookup_insert_eq; cbn [default from_option id].
  all: split; [reflexivity|].
  all: split; [unfold inbox; wsimpl; rewrite lookup_db_set by discriminate;
               rewrite decide_True by reflexivity; reflexivity|].
  all: apply bool_decide_eq_true; wsimpl.
  all: rewrite ?elem_of_app, ?list_elem_of_singleton; auto.
Qed.

Lemma responder_run b props cid w inv tracks sdp :
  CallModalProps.incomingCall props = Some inv →
  CallSignal.type (IncomingCallData.offer inv) = CallSignal.offer →
  mediaGranted b (mediaRequests w) (CallModal.userMediaRequest props) = Some tracks →
  (∀ pc, acceptsRemote b pc (IncomingCallData.offer inv) = true) →
  answerSdp b = Some sdp →
  (∀ pc, acceptsLocal b pc (CallSignal.mk CallSignal.answer sdp) = true) →
  storeAccepts b ["calls"; cid; "answer"] = true →
  let w' := exec (CallModal.startCall b props cid) w in
  CallModalState.peerConnection (cm w')
    = Some (RTCPeerConnection.mk new_ None None
              (Some (CallSignal.mk CallSignal.answer sdp))
              (Some (IncomingCallData.offer inv)) (sendersOf tracks)) ∧
  answerOf (store w') cid = Some (CallSignal.mk CallSignal.answer sdp).
Proof.
  intros Hi Ht Hg Hr Ha Hl Hs w'. subst w'. unfold exec.
  wp_start (CallModal.startCall b props cid) w.
  unfold CallModal.startCall, CallModal.initiatorPartner, CallModal.isInitiator.
  rewrite Hi. wp_auto.
  all: try match goal with H : acceptsLocal _ _ _ = false |- _ =>
         rewrite Hl in H; discriminate H end.
  all: try match goal with H : acceptsRemote _ _ _ = false |- _ =>
         rewrite Hr in H; discriminate H end.
  all: rewrite ?lookup_insert_eq; cbn [default from_option id].
  all: unfold RTCPeerConnection.applyRemote, RTCPeerConnection.applyLocal; rewrite Ht.
  all: split; [reflexivity|].
  all: unfold answerOf; wsimpl; rewrite lookup_db_set by discriminate.
  all: rewrite decide_True by reflexivity; reflexivity.
Qed.

(** X6.  Offer and answer meet.  The initiator starts a call; the
    responder is mounted with the invitation found in its inbox and with the
    call id of that invitation; the answer listener of the initiator is
    notified of what the responder wrote.  When nothing is refused, both
    components use the same call id, and afterwards the two peer
    connections hold the same two descriptions: the offer is the local
    description of the initiator and the remote one of the responder, the
    answer the other way round, all four current and none pending. *)
Theorem offer_and_answer_meet bA bB propsA propsB cid nowB wA wB partner
    tracksA tracksB sdpO sdpA :
  let offer := CallSignal.mk CallSignal.offer sdpO in
  let answer := CallSignal.mk CallSignal.answer sdpA in
  (* the initiator *)
  CallModal.initiatorPartner propsA = Some partner →
  mediaGranted bA (mediaRequests wA) (CallModal.userMediaRequest propsA) = Some tracksA →
  offerSdp bA = Some sdpO →
  (∀ pc, acceptsLocal bA pc offer = true) →
  (∀ pc, acceptsRemote bA pc answer = true) →
  storeAccepts bA ["users"; UserProfile.uid partner; "incomingCall"] = true →
  let wA1 := exec (CallModal.startCall bA propsA cid) wA in
  (* the responder, on the store the initiator wrote to *)
  UserProfile.uid (CallModalProps.currentUser propsB) = UserProfile.uid partner →
  store wB = store wA1 →
  CallModalProps.incomingCall propsB
    = inbox (store wB) (UserProfile.uid (CallModalProps.currentUser propsB)) →
  mediaGranted bB (mediaRequests wB) (CallModal.userMediaRequest propsB) = Some tracksB →
  (∀ pc, acceptsRemote bB pc offer = true) →
  answerSdp bB = Some sdpA →
  (∀ pc, acceptsLocal bB pc answer = true) →
  storeAccepts bB ["calls"; cid; "answer"] = true →
  let wB1 := exec (CallModal.startCall bB propsB (CallModal.callId propsB nowB)) wB in
  (* the initiator again, notified of the answer in the store *)
  let wA2 := exec (dispatch bA propsA cid (AnswerChanged (answerOf (store wB1) cid))) wA1 in
  CallModal.callId propsB nowB = cid ∧
  CallModal.partnerId propsB = Some (UserProfile.uid (CallModalProps.currentUser propsA)) ∧
  CallModalState.peerConnection (cm wA2)
    = Some (RTCPeerConnection.mk new_ None None (Some offer) (Some answer)
              (sendersOf tracksA)) ∧
  CallModalState.peerConnection (cm wB1)
    = Some (RTCPeerConnection.mk new_ None None (Some answer) (Some offer)
              (sendersOf tracksB)).
Proof.
  intros offer answer Hp HgA Ho HlA HrA HsA wA1 Huid Hst Hinc HgB HrB Ha HlB HsB wB1 wA2.
  destruct (initiator_run bA propsA cid wA partner tracksA sdpO Hp HgA Ho HlA HsA)
    as (HpcA & Hinbox & Hreg).
  fold wA1 in HpcA, Hinbox, Hreg.
  rewrite Hst, Huid, Hinbox in Hinc.
  assert (Hcid : CallModal.callId propsB nowB = cid).
  { unfold CallModal.callId. rewrite Hinc. reflexivity. }
  destruct (responder_run bB propsB cid wB (callData propsA cid sdpO) tracksB sdpA
              Hinc eq_refl HgB HrB Ha HlB HsB) as (HpcB & Hans).
  subst wB1 wA2. rewrite Hcid, Hans.
  split; [reflexivity|].
  split.
  { unfold CallModal.partnerId, CallModal.initiatorPartner, CallModal.isInitiator.
    rewrite Hinc. reflexivity. }
  split; [|exact HpcB].
  unfold exec, dispatch. rewrite bind_run. cbn [get]. rewrite Hreg.
  unfold CallModal.answerChanged. rewrite bind_run. cbn [get]. rewrite HpcA.
  cbn [mbind option_bind RTCPeerConnection.currentRemoteDescription].
  unfold not_awaited, setRemoteDescription, thePeerConnection.
  rewrite !bind_run. cbn [get]. rewrite HpcA. munfold. wsimpl.
  fold answer. rewrite HrA. reflexivity.
Qed.

Lemma offer_and_answer_meet_witness :
  let wB1 := exec (CallModal.startCall Scenario.browser Scenario.bobProps
                     (CallModal.callId Scenario.bobProps 1700000000500))
                  Handshake.bobInvited in
  let wA2 := exec (dispatch Scenario.browser Scenario.aliceProps "alice_1700000000000"
                     (AnswerChanged (answerOf (store wB1) "alice_1700000000000")))
                  Handshake.aliceOffering in
  CallModalState.peerConnection (cm wA2)
    = Some (RTCPeerConnection.mk new_ None None
              (Some Scenario.theOffer) (Some Scenario.theAnswer)
              (sendersOf [Scenario.mic; Scenario.front])) ∧
  CallModalState.peerConnection (cm wB1)
    = Some (RTCPeerConnection.mk new_ None None
              (Some Scenario.theAnswer) (Some Scenario.theOffer)
              (sendersOf [Scenario.mic; Scenario.front])).
Proof.
  exact (proj2 (proj2
    (offer_and_answer_meet Scenario.browser Scenario.browser
       Scenario.aliceProps Scenario.bobProps "alice_1700000000000" 1700000000500
       (world Scenario.dialing) Handshake.bobInvited Scenario.bob
       [Scenario.mic; Scenario.front] [Scenario.mic; Scenario.front]
       "v=0 offer" "v=0 answer"
       eq_refl eq_refl eq_refl (λ _, eq_refl) (λ _, eq_refl) eq_refl
       eq_refl eq_refl eq_refl eq_refl (λ _, eq_refl) eq_refl (λ _, eq_refl) eq_refl))).
Defined.

(** ** Candidates found on this side *)

Lemma onicecandidate_run b props cid c w :
  storeAccepts b (ownCandidates props cid) = true →
  CallModal.onicecandidate b props cid (Some c) w =
  (Ok tt,
   with_store (db_set (ownCandidates props cid ++ [pretty (pushed w)]) (VCandidate c))
     (with_pushed S
        (with_trace (λ t, t ++ [DbPush (ownCandidates props cid) (VCandidate c)]) w))).
Proof.
  intros Hs. unfold CallModal.onicecandidate, Database.push, ownCandidates in *.
  munfold. cbn. rewrite Hs. reflexivity.
Qed.

Lemma own_key_prefix (own : Path) (k k' : string) :
  (own ++ [k]) `prefix_of` (own ++ [k']) → k = k'.
Proof.
  intros H. apply prefix_app_inv in H. destruct H as [r Hr]. by injection Hr.
Qed.

Lemma candidatesFound_keeps b props cid cs w k :
  storeAccepts b (ownCandidates props cid) = true →
  (∀ j, (j < length cs)%nat → k ≠ pretty (pushed w + j)%nat) →
  store (exec (candidatesFound b props cid cs) w) !! (ownCandidates props cid ++ [k])
  = store w !! (ownCandidates props cid ++ [k]).
Proof.
  intros Hs. revert w. induction cs as [|c cs IH]; intros w Hk; [reflexivity|].
  unfold candidatesFound, exec in *. cbn [forEach]. rewrite bind_run.
  rewrite onicecandidate_run by exact Hs.
  rewrite IH.
  - wsimpl. rewrite lookup_db_set by discriminate.
    assert (Hne : k ≠ pretty (pushed w)).
    { specialize (Hk 0%nat). rewrite Nat.add_0_r in Hk. apply Hk. simpl. lia. }
    rewrite decide_False by (intros E; apply app_inv_head in E; congruence).
    rewrite decide_False; [reflexivity|].
    intros [H|H]; apply own_key_prefix in H; congruence.
  - intros j Hj. wsimpl. replace (S (pushed w) + j)%nat with (pushed w + S j)%nat by lia.
    apply Hk. simpl. lia.
Qed.

(** X7.  Every candidate the peer connection finds is pushed under the
    user's own branch of the call, each under a key of its own: when the
    store accepts the writes, all of them are in the store afterwards, in
    the order found, and none has overwritten another. *)
Theorem candidates_are_all_stored b props cid cs w i c :
  storeAccepts b (ownCandidates props cid) = true →
  cs !! i = Some c →
  store (exec (candidatesFound b props cid cs) w)
    !! (ownCandidates props cid ++ [pretty (pushed w + i)%nat])
  = Some (VCandidate c).
Proof.
  intros Hs. revert w i. induction cs as [|c0 cs IH]; intros w i Hi; [discriminate Hi|].
  unfold candidatesFound, exec in *. cbn [forEach]. rewrite bind_run.
  rewrite onicecandidate_run by exact Hs.
  destruct i as [|i]; cbn in Hi.
  - injection Hi as ->. rewrite Nat.add_0_r.
    pose proof (candidatesFound_keeps b props cid cs) as Hk.
    unfold candidatesFound, exec in Hk. rewrite Hk.
    + wsimpl. rewrite lookup_db_set by discriminate.
      rewrite decide_True by reflexivity. reflexivity.
    + exact Hs.
    + intros j Hj. wsimpl. intros E. apply (inj pretty) in E. lia.
  - replace (pushed w + S i)%nat with (S (pushed w) + i)%nat by lia.
    exact (IH _ i Hi).
Qed.

Lemma candidates_are_all_stored_witness :
  store (exec (candidatesFound Scenario.browser Scenario.aliceProps "alice_1700000000000"
                 [Scenario.c1; Scenario.c2]) (world Scenario.aliceCalling))
    !! ["calls"; "alice_1700000000000"; "candidates"; "alice"; "1"]
  = Some (VCandidate Scenario.c2).
Proof.
  exact (candidates_are_all_stored Scenario.browser Scenario.aliceProps
           "alice_1700000000000" [Scenario.c1; Scenario.c2] (world Scenario.aliceCalling)
           1 Scenario.c2 eq_refl eq_refl).
Defined.

(** ** The cleanup *)

Lemma elem_of_stop_all (tracks : list MediaStreamTrack.t) (s : gset nat) (n : nat) :
  n ∈ foldl (λ s t, {[MediaStreamTrack.id t]} ∪ s) s tracks ↔
  n ∈ s ∨ ∃ t, t ∈ tracks ∧ MediaStreamTrack.id t = n.
Proof.
  revert s. induction tracks as [|t tracks IH]; intros s; simpl.
  - split; [auto|]. intros [H|(t & Ht & _)]; [exact H|]. by apply elem_of_nil in Ht.
  - rewrite IH. rewrite elem_of_union, elem_of_singleton. split.
    + intros [[->|H]|(t' & Ht' & <-)].
      * right. exists t. split; [apply list_elem_of_here|reflexivity].
      * left. exact H.
      * right. exists t'. split; [by apply list_elem_of_further|reflexivity].
    + intros [H|(t' & Ht' & <-)]; [auto|].
      apply elem_of_cons in Ht' as [->|Ht']; [auto|]. right. eauto.
Qed.

(** X8.  The cleanup never throws.  It stops the tracks that are in the
    local stream at that moment, and no other track; it closes the peer
    connection if there is one; it takes no stream away and cancels no
    timer. *)
Theorem cleanup_stops_the_local_tracks b props cid w :
  let r := CallModal.cleanup b props cid w in
  r.1 = Ok tt ∧
  (∀ n, n ∈ stopped r.2 ↔
        n ∈ stopped w ∨
        ∃ stream t, CallModalState.localStream (cm w) = Some stream ∧
                    t ∈ default [] (streams w !! stream) ∧ MediaStreamTrack.id t = n) ∧
  CallModalState.peerConnection (cm r.2)
    = RTCPeerConnection.with_connectionState closed <$> CallModalState.peerConnection (cm w) ∧
  streams r.2 = streams w ∧
  timers r.2 = timers w.
Proof.
  intros r. subst r.
  wp_start (CallModal.cleanup b props cid) w.
  unfold CallModal.cleanup.
  wp_auto.
  all: split; [reflexivity|]; split; [|split; [|split; reflexivity]].
  all: try reflexivity.
  all: try assumption.
  all: intros tid; rewrite ?elem_of_stop_all.
  all: split;
    [ intros H; first [ destruct H as [H|(tr & Htr & Hid)]; [left; exact H|right; eauto]
                      | left; exact H ]
    | intros [H|(str & tr & Hs & Htr & Hid)];
      [ first [ left; exact H | exact H ] | first [ discriminate Hs | simplify_eq; eauto ] ] ].
Qed.

(** ** The call is ended while the media request is pending *)

(** X9.  Ending a call while the camera and microphone are still being
    asked for does not stop it from starting.  The cleanup finds no local
    stream and no peer connection, so it stops and closes nothing, and it
    detaches the listeners before [startCall] has registered its own.  When
    the media are then granted and nothing is refused, the initiator's
    [startCall] runs to its end all the same: the stream is acquired and
    none of its tracks is ever stopped, a peer connection is created and not
    closed, the partner finds an invitation in the inbox for a call nobody
    is in, and the answer listener stays registered.  [App] is not
    touched. *)
Theorem ending_during_media_request_starts_the_call_anyway
    b props cid w partner tracks sdp :
  CallModalState.localStream (cm w) = None →
  CallModalState.peerConnection (cm w) = None →
  CallModal.initiatorPartner props = Some partner →
  mediaGranted b (mediaRequests w) (CallModal.userMediaRequest props) = Some tracks →
  offerSdp b = Some sdp →
  (∀ pc, acceptsLocal b pc (CallSignal.mk CallSignal.offer sdp) = true) →
  storeAccepts b ["users"; UserProfile.uid partner; "incomingCall"] = true →
  let r := endedWhileMediaPending b props cid w in
  r.1 = Ok tt ∧
  app r.2 = app w ∧
  streams r.2 !! mediaRequests w = Some tracks ∧
  stopped r.2 = stopped w ∧
  CallModalState.peerConnection (cm r.2)
    = Some (RTCPeerConnection.mk new_ (Some (CallSignal.mk CallSignal.offer sdp))
              None None None (sendersOf tracks)) ∧
  inbox (store r.2) (UserProfile.uid partner) = Some (callData props cid sdp) ∧
  (["calls"; cid; "answer"], answerListener) ∈ listeners r.2.
Proof.
  intros Hls Hpc Hp Hg Ho Hl Hs r. subst r.
  wp_start (endedWhileMediaPending b props cid) w.
  unfold endedWhileMediaPending, Database.onValue.
  do 6 wp_step.
  unfold CallModal.cleanup. wp_auto.
  all: try match goal with H : acceptsLocal _ _ _ = false |- _ =>
         rewrite Hl in H; discriminate H end.
  all: rewrite ?lookup_insert_eq; cbn [default from_option id].
  all: split; [reflexivity|]; split; [reflexivity|]; split; [reflexivity|].
  all: split; [reflexivity|]; split; [reflexivity|].
  all: split; [unfold inbox; wsimpl; rewrite lookup_db_set by discriminate;
               rewrite decide_True by reflexivity; reflexivity|].
  all: rewrite ?elem_of_app, ?list_elem_of_singleton; auto.
Qed.

Lemma ending_during_media_request_starts_the_call_anyway_witness :
  let r := endedWhileMediaPending Scenario.browser Scenario.aliceProps
             "alice_1700000000000" Cases.endedEarly in
  AppState.isInCall (app r.2) = false ∧
  stopped r.2 = ∅ ∧
  inbox (store r.2) "bob" = Some Scenario.invitation ∧
  (["calls"; "alice_1700000000000"; "answer"], answerListener) ∈ listeners r.2.
Proof.
  destruct (ending_during_media_request_starts_the_call_anyway Scenario.browser
              Scenario.aliceProps "alice_1700000000000" Cases.endedEarly Scenario.bob
              [Scenario.mic; Scenario.front] "v=0 offer"
              eq_refl eq_refl eq_refl eq_refl eq_refl (λ _, eq_refl) eq_refl)
    as (_ & H1 & _ & H2 & _ & H3 & H4).
  intros r. subst r. split; [rewrite H1; reflexivity|].
  split; [exact H2|]. split; [exact H3|exact H4].
Defined.

(** ** Timers *)

Ltac keep_timers l :=
  repeat first
    [ wp_step | wp_case
    | apply (wp_forEach (λ w, l `prefix_of` timers w)); [ intros ? ? ? | | intros ? ? ] ];
  cbv beta; wsimpl;
  try (split; [reflexivity|]);
  try first [ assumption | by apply prefix_app_r ].

Lemma startCall_timers b props cid l :
  preserves (λ w, l `prefix_of` timers w) (CallModal.startCall b props cid).
Proof. intros w H. unfold CallModal.startCall. keep_timers l. Qed.

Lemma cleanup_timers b props cid l :
  preserves (λ w, timers w = l) (CallModal.cleanup b props cid).
Proof.
  intros w H. unfold CallModal.cleanup.
  repeat first
    [ wp_step | wp_case
    | eapply wp_exact; [apply forEach_stop|]; cbv beta iota zeta; wsimpl ];
    exact H.
Qed.

Lemma dispatch_timers b props cid ev l :
  preserves (λ w, l `prefix_of` timers w) (dispatch b props cid ev).
Proof.
  intros w H. destruct ev; unfold dispatch.
  all: keep_timers l.
Qed.

Lemma commit_timers b now s l :
  l `prefix_of` timers (world s) → l `prefix_of` timers (world (commit b now s)).
Proof.
  intros H. unfold commit.
  destruct (mounted s) as [[props cid]|], (rendered (app (world s))) as [props'|];
    cbn [world]; try exact H.
  - rewrite (preserves_exec _ _ _ (cleanup_timers b props cid _) eq_refl). exact H.
  - unfold exec. rewrite effect_run. apply startCall_timers. exact H.
Qed.

(** X10.  No code path cancels a timer: whatever the event, other than a
    timer firing, the timers pending before it are still pending after it,
    in the same positions (a failed start may add one at the end). *)
Theorem timers_are_never_cancelled b now ev s :
  (∀ i, ev ≠ TimerFired i) →
  timers (world s) `prefix_of` timers (world (step b now ev s)).
Proof.
  intros Hev.
  assert (Ha : ∀ mo (m : M unit),
    (∀ l, preserves (λ w, l `prefix_of` timers w) m) →
    timers (world s) `prefix_of`
      timers (world (commit b now (mkSystem mo (exec m (world s)))))).
  { intros mo m Hm. apply commit_timers. cbn [world]. by apply Hm. }
  unfold step.
  destruct ev as [val|data|children|stream|candidate|state|devs| | |i|video| |];
    try (destruct (mounted s) as [[props cid]|]; [|reflexivity];
         apply Ha; intros l; apply dispatch_timers).
  - by destruct (Hev i).
  - apply Ha. intros l w Hw. keep_timers l.
  - apply Ha. intros l w Hw. keep_timers l.
  - apply Ha. intros l w Hw. keep_timers l.
Qed.

(** X11.  A pending timer, when it fires, ends whatever call is mounted at
    that moment, be it the call that set the timer or a later one: the
    component is unmounted, [App] is out of the call and has dropped its
    invitation. *)
Theorem pending_timer_ends_any_call b now s i ms cb :
  timers (world s) !! i = Some (ms, cb) →
  let s' := step b now (TimerFired i) s in
  mounted s' = None ∧
  AppState.isInCall (app (world s')) = false ∧
  AppState.incomingCall (app (world s')) = None ∧
  timers (world s') = delete i (timers (world s)).
Proof.
  intros Hi s'. subst s'. unfold step. rewrite Hi. destruct cb.
  unfold runCallback, CallModal.onEndCall, commit. cbn [mounted world].
  rewrite rendered_endCall.
  destruct (mounted s) as [[props cid]|]; cbn [mounted world].
  - rewrite (preserves_exec _ _ _ (cleanup_app b props cid _) eq_refl).
    rewrite (preserves_exec _ _ _ (cleanup_timers b props cid _) eq_refl).
    repeat split.
  - repeat split.
Qed.

Lemma pending_timer_ends_any_call_witness :
  mounted Cases.secondCall
    = Some (Scenario.aliceProps, "alice_1700000001000") ∧
  mounted (step Scenario.browser 1700000002000 (TimerFired 0) Cases.secondCall) = None.
Proof.
  split; [vm_compute; reflexivity|].
  exact (proj1 (pending_timer_ends_any_call Scenario.browser 1700000002000
                  Cases.secondCall 0 3000%Z cb_onEndCall eq_refl)).
Defined.

Lemma timers_are_never_cancelled_witness :
  timers (world Cases.failedCall)
    `prefix_of` timers (world (step Scenario.denied 1700000000500 EndCallClicked
                                 Cases.failedCall)).
Proof.
  apply timers_are_never_cancelled. intros i. discriminate.
Defined.

(** ** The connection is lost *)

Ltac find_in_trace :=
  repeat (apply elem_of_app;
          first [ right; apply list_elem_of_singleton; reflexivity | left ]).

(** The cleanup calls [close()] on the peer connection, if there is one. *)
Lemma cleanup_closes b props cid w pc :
  CallModalState.peerConnection (cm w) = Some pc →
  Close ∈ trace (exec (CallModal.cleanup b props cid) w).
Proof.
  intros Hpc. unfold exec. wp_start (CallModal.cleanup b props cid) w.
  unfold CallModal.cleanup. wp_auto.
  all: find_in_trace.
Qed.

(** X12.  When the peer connection reports [disconnected] or [failed], the
    callback calls [onEndCall]: the component is unmounted, its cleanup has
    called [close()] on the peer connection and has written to the store
    what it writes at the end of every call, and [App] is out of the call
    with no invitation. *)
Theorem lost_connection_ends_call b now s props cid pc state :
  mounted s = Some (props, cid) →
  CallModalState.peerConnection (cm (world s)) = Some pc →
  state = disconnected ∨ state = failed →
  let s' := step b now (ConnectionStateChanged state) s in
  mounted s' = None ∧
  AppState.isInCall (app (world s')) = false ∧
  AppState.incomingCall (app (world s')) = None ∧
  Close ∈ trace (world s') ∧
  store (world s') = cleanupStore b props cid (store (world s)).
Proof.
  intros Hm Hpc Hstate s'. subst s'. unfold step. rewrite Hm.
  assert (Hd : exec (dispatch b props cid (ConnectionStateChanged state)) (world s)
    = exec App.endCall
        (with_cm (CallModalState.with_connectionStatus "Disconnected")
           (with_cm (CallModalState.with_peerConnection
                       (Some (RTCPeerConnection.with_connectionState state pc)))
              (world s)))).
  { unfold exec, dispatch. rewrite bind_run. cbn [get]. rewrite Hpc.
    unfold setPeerConnection, CallModal.onconnectionstatechange. munfold. wsimpl.
    cbn [fmap option_fmap option_map RTCPeerConnection.connectionState
         RTCPeerConnection.with_connectionState].
    destruct Hstate as [-> | ->]; reflexivity. }
  rewrite Hd. unfold commit. cbn [mounted world]. rewrite rendered_endCall.
  cbn [mounted world].
  rewrite (preserves_exec _ _ _ (cleanup_app b props cid _) eq_refl).
  rewrite cleanup_store.
  split; [reflexivity|]. split; [reflexivity|]. split; [reflexivity|].
  split; [|reflexivity].
  eapply cleanup_closes. reflexivity.
Qed.

Lemma lost_connection_ends_call_witness :
  let s' := step Scenario.browser 1700000002000 (ConnectionStateChanged failed)
              Scenario.aliceCalling in
  mounted s' = None ∧ Close ∈ trace (world s').
Proof.
  assert (Hpc : ∃ pc, CallModalState.peerConnection (cm (world Scenario.aliceCalling))
                      = Some pc) by (vm_compute; eauto).
  destruct Hpc as [pc Hpc].
  destruct (lost_connection_ends_call Scenario.browser 1700000002000 Scenario.aliceCalling
              Scenario.aliceProps "alice_1700000000000" pc failed eq_refl Hpc
              (or_intror eq_refl)) as (H1 & _ & _ & H2 & _).
  intros s'. split; [exact H1|exact H2].
Defined.

(** ** Hanging up *)

Lemma cleanupStore_status b props cid st :
  storeAccepts b ["calls"; cid] = true →
  statusOf (cleanupStore b props cid st) cid = Some "ended".
Proof.
  intros Hs. unfold statusOf, cleanupStore. rewrite Hs.
  assert (H1 : db_update ["calls"; cid] [("status", VStr "ended")] st
               !! ["calls"; cid; "status"] = Some (VStr "ended")).
  { unfold db_update. cbn [foldl Datatypes.app fst snd].
    rewrite lookup_db_set by discriminate. rewrite decide_True by reflexivity. reflexivity. }
  destruct (invitationRef props) as [inv|] eqn:Hinv; [|by rewrite H1].
  destruct (storeAccepts b inv); [|by rewrite H1].
  apply invitationRef_users in Hinv as [u ->].
  rewrite lookup_db_remove.
  rewrite decide_False by (apply not_prefix_head; discriminate).
  by rewrite H1.
Qed.

(** X13.  Hanging up on one side ends the call on the other.  When a
    component unmounts and the store accepts its write, the status of the
    call in the store is [ended]; the component of the other side, mounted
    for the same call and told of that status, calls [onEndCall] and
    unmounts too. *)
Theorem hang_up_reaches_the_other_side bA bB nowA nowB sA sB propsA propsB cid :
  mounted sA = Some (propsA, cid) →
  mounted sB = Some (propsB, cid) →
  registered ["calls"; cid; "status"] statusListener (world sB) = true →
  storeAccepts bA ["calls"; cid] = true →
  let sA' := endCall bA nowA sA in
  let sB' := step bB nowB (StatusChanged (statusOf (store (world sA')) cid)) sB in
  mounted sA' = None ∧
  statusOf (store (world sA')) cid = Some "ended" ∧
  mounted sB' = None ∧
  AppState.isInCall (app (world sB')) = false.
Proof.
  intros HmA HmB Hreg Hs sA' sB'.
  assert (Hst : statusOf (store (world sA')) cid = Some "ended").
  { subst sA'. unfold endCall, commit. cbn [mounted world]. rewrite rendered_endCall, HmA.
    cbn [world]. rewrite cleanup_store. by apply cleanupStore_status. }
  subst sB'. rewrite Hst.
  rewrite (remote_end_is_endCall bB nowB sB propsB cid HmB Hreg).
  destruct (endCall_ended bA nowA sA) as (H1 & _).
  destruct (endCall_ended bB nowB sB) as (H2 & H3 & _).
  auto.
Qed.

Lemma hang_up_reaches_the_other_side_witness :
  let sA' := endCall Scenario.browser 1700000003000 Scenario.aliceCalling in
  let sB' := step Scenario.browser 1700000003500
               (StatusChanged (statusOf (store (world sA')) "alice_1700000000000"))
               Scenario.bobAnswering in
  mounted sA' = None ∧ mounted sB' = None.
Proof.
  destruct (hang_up_reaches_the_other_side Scenario.browser Scenario.browser
              1700000003000 1700000003500 Scenario.aliceCalling Scenario.bobAnswering
              Scenario.aliceProps Scenario.bobProps "alice_1700000000000"
              eq_refl eq_refl eq_refl eq_refl) as (H1 & _ & H2 & _).
  split; [exact H1|exact H2].
Defined.

(** ** The buttons of [App] *)

(** X14.  Declining an invitation clears it in [App] and removes it from
    the user's own inbox, and that is all: nothing else in the store
    changes, in particular nothing below [calls/], so that the caller is
    not told; no component is touched. *)
Theorem rejectCall_clears_own_inbox_only b w me :
  AppState.userProfile (app w) = Some me →
  let own := ["users"; UserProfile.uid me; "incomingCall"] in
  let r := App.rejectCall b w in
  r.1 = Ok tt ∧
  AppState.incomingCall (app r.2) = None ∧
  AppState.isInCall (app r.2) = AppState.isInCall (app w) ∧
  trace r.2 = trace w ++ [DbSet own VNull] ∧
  (storeAccepts b own = true → ∀ p, own `prefix_of` p → store r.2 !! p = None) ∧
  (∀ p, ¬ own `prefix_of` p → store r.2 !! p = store w !! p) ∧
  cm r.2 = cm w ∧ listeners r.2 = listeners w ∧ timers r.2 = timers w.
Proof.
  intros Hme own r. subst r own.
  wp_start (App.rejectCall b) w.
  unfold App.rejectCall. wp_auto.
  all: repeat (split; [reflexivity|]).
  all: split; [intros Hacc p Hp|split; [intros p Hp|repeat split]].
  all: try discriminate Hacc.
  all: try reflexivity.
  all: unfold db_set; rewrite lookup_db_remove.
  - rewrite decide_True by exact Hp. reflexivity.
  - rewrite decide_False by exact Hp. reflexivity.
Qed.

Lemma rejectCall_clears_own_inbox_only_witness :
  inbox (store (App.rejectCall Scenario.browser (world Ringing.bobRingingWithCarol)).2) "bob"
  = None.
Proof.
  unfold inbox.
  rewrite (proj1 (proj2 (proj2 (proj2 (proj2
    (rejectCall_clears_own_inbox_only Scenario.browser (world Ringing.bobRingingWithCarol)
       Scenario.bob eq_refl))))) eq_refl ["users"; "bob"; "incomingCall"]); reflexivity.
Defined.

(** The responder writes to no inbox. *)
Lemma responder_inboxes b props cid w inv u :
  CallModalProps.incomingCall props = Some inv →
  inbox (store (exec (CallModal.effect b props cid) w)) u = inbox (store w) u.
Proof.
  intros Hi. unfold exec. rewrite effect_run.
  match goal with |- context [CallModal.startCall b props cid ?w0] =>
    change (store w) with (store w0);
    wp_start (CallModal.startCall b props cid) w0; generalize w0; intros w1 end.
  unfold CallModal.startCall, CallModal.initiatorPartner, CallModal.isInitiator.
  rewrite Hi. wp_auto.
  all: try reflexivity.
  all: unfold inbox; rewrite lookup_db_set by discriminate.
  all: rewrite decide_False by discriminate.
  all: rewrite decide_False; [reflexivity|].
  all: intros [H|H]; revert H; apply not_prefix_head; discriminate.
Qed.

(** X15.  Pressing a call button of the open chat while an invitation is
    pending does not call the partner of that chat: the component is
    mounted with the invitation, takes the responder's part in the call of
    the invitation, towards the user who sent it, and writes to nobody's
    inbox.  Of the button pressed, only the choice of audio or video is
    used. *)
Theorem call_button_answers_pending_invitation b now s me inv video :
  mounted s = None →
  AppState.userProfile (app (world s)) = Some me →
  AppState.incomingCall (app (world s)) = Some inv →
  let s' := step b now (StartCallClicked video) s in
  let props :=
    CallModalProps.mk me (AppState.selectedPartner (app (world s))) (Some inv) video in
  mounted s' = Some (props, IncomingCallData.callId inv) ∧
  CallModal.isInitiator props = false ∧
  CallModal.partnerId props = Some (IncomingCallData.callerId inv) ∧
  (∀ u, inbox (store (world s')) u = inbox (store (world s)) u).
Proof.
  intros Hm Hme Hinc s' props.
  assert (Hr : rendered (app (exec (App.startCall video) (world s))) = Some props).
  { unfold rendered, App.startCall. munfold. cbn. rewrite Hme, Hinc. reflexivity. }
  subst s'. unfold step, commit. cbn [mounted world]. rewrite Hm, Hr.
  cbn [mounted world].
  split; [reflexivity|]. split; [reflexivity|]. split; [reflexivity|].
  intros u. rewrite (responder_inboxes _ _ _ _ inv) by reflexivity. reflexivity.
Qed.

Lemma call_button_answers_pending_invitation_witness :
  mounted (step Scenario.browser 1700000000500 (StartCallClicked false)
             Ringing.bobRingingWithCarol)
    = Some (CallModalProps.mk Scenario.bob (Some Ringing.carol) (Some Scenario.invitation) false,
            "alice_1700000000000") ∧
  inbox (store (world (step Scenario.browser 1700000000500 (StartCallClicked false)
                         Ringing.bobRingingWithCarol))) "carol" = None.
Proof.
  destruct (call_button_answers_pending_invitation Scenario.browser 1700000000500
              Ringing.bobRingingWithCarol Scenario.bob Scenario.invitation false
              eq_refl eq_refl eq_refl) as (H1 & _ & _ & H2).
  split; [exact H1|]. rewrite H2. reflexivity.
Defined.

(** ** An invitation that arrives during a call *)

(** X16.  An invitation that reached the inbox of an initiator during its
    call is forgotten by [App] when that call ends, but not removed from
    the store: [endCall] clears [incomingCall], while the cleanup removes
    only the invitation the initiator sent to its partner.  Afterwards the
    inbox still holds the invitation and [App] shows none. *)
Theorem endCall_forgets_waiting_invitation b now s props cid partner inv :
  mounted s = Some (props, cid) →
  CallModal.initiatorPartner props = Some partner →
  UserProfile.uid partner ≠ UserProfile.uid (CallModalProps.currentUser props) →
  inbox (store (world s)) (UserProfile.uid (CallModalProps.currentUser props)) = Some inv →
  let s' := endCall b now s in
  mounted s' = None ∧
  AppState.incomingCall (app (world s')) = None ∧
  inbox (store (world s')) (UserProfile.uid (CallModalProps.currentUser props)) = Some inv.
Proof.
  intros Hm Hp Hne Hinbox s'.
  destruct (endCall_ended b now s) as (H1 & _ & H2).
  split; [exact H1|]. split; [exact H2|].
  subst s'. unfold endCall, commit. cbn [mounted world]. rewrite rendered_endCall, Hm.
  cbn [world]. rewrite cleanup_store.
  assert (Hstore : store (exec App.endCall (world s)) = store (world s)) by reflexivity.
  rewrite Hstore. clear Hstore.
  unfold CallModal.initiatorPartner, CallModal.isInitiator in Hp.
  unfold cleanupStore, invitationRef.
  destruct (CallModalProps.incomingCall props); [discriminate Hp|]. rewrite Hp.
  cbn [fmap option_fmap option_map].
  set (me := UserProfile.uid (CallModalProps.currentUser props)) in *.
  assert (Hupd : ∀ st, inbox (db_update ["calls"; cid] [("status", VStr "ended")] st) me
                       = inbox st me).
  { intros st. unfold inbox, db_update. cbn [foldl Datatypes.app fst snd].
    rewrite lookup_db_set by discriminate.
    rewrite decide_False by discriminate.
    rewrite decide_False; [reflexivity|].
    intros [H|H]; revert H; apply not_prefix_head; discriminate. }
  assert (Hrem : ∀ st, inbox (db_remove ["users"; UserProfile.uid partner; "incomingCall"] st) me
                       = inbox st me).
  { intros st. unfold inbox. rewrite lookup_db_remove.
    rewrite decide_False; [reflexivity|].
    intros [k Hk]. injection Hk as Hk _. congruence. }
  repeat case_match; rewrite ?Hrem, ?Hupd; exact Hinbox.
Qed.

Lemma endCall_forgets_waiting_invitation_witness :
  let s' := endCall Scenario.browser 1700000003000 Waiting.aliceInvitedByCarol in
  AppState.incomingCall (app (world s')) = None ∧
  inbox (store (world s')) "alice" = Some Waiting.carolsInvitation.
Proof.
  destruct (endCall_forgets_waiting_invitation Scenario.browser 1700000003000
              Waiting.aliceInvitedByCarol Scenario.aliceProps "alice_1700000000000"
              Scenario.bob Waiting.carolsInvitation eq_refl eq_refl) as (_ & H1 & H2).
  - discriminate.
  - reflexivity.
  - split; [exact H1|exact H2].
Defined.

(** ** The order of the cameras *)










(** ** The new camera granted, the replacement refused *)

(** X18.  When the new camera has been granted but the peer connection
    refuses [replaceTrack], the catch block reports the error and the
    component is as it was: same senders, same tracks in the local stream,
    same preview.  The stream just acquired is not released: it exists,
    and no track has been stopped. *)
Theorem refused_replacement_keeps_new_camera_on b w localStream tracks currentTrack devs
    nextDevice newTracks pc i :
  CallModalState.localStream (cm w) = Some localStream →
  CallModalState.hasMultipleCameras (cm w) = true →
  streams w !! localStream = Some tracks →
  (localStream < mediaRequests w)%nat →
  head (filter isVideoTrack tracks) = Some currentTrack →
  devices b = Some devs →
  CallModal.nextDevice (CallModal.videoInputs devs) (MediaStreamTrack.deviceId currentTrack)
    = Some nextDevice →
  mediaGranted b (mediaRequests w) (CallModal.cameraRequest nextDevice) = Some newTracks →
  CallModalState.peerConnection (cm w) = Some pc →
  findPosition CallModal.isVideoSender (RTCPeerConnection.senders pc) = Some i →
  acceptsReplace b (head (filter isVideoTrack newTracks)) = false →
  let r := CallModal.switchCamera b w in
  r.1 = Ok tt ∧
  trace r.2 = trace w ++ [EnumerateDevices; GetUserMedia (CallModal.cameraRequest nextDevice);
                          ReplaceTrack i (head (filter isVideoTrack newTracks));
                          ConsoleError "Error switching camera:"] ∧
  cm r.2 = cm w ∧
  streams r.2 !! localStream = Some tracks ∧
  streams r.2 !! mediaRequests w = Some newTracks ∧
  stopped r.2 = stopped w.
Proof.
  intros Hls Hmulti Htracks Hfresh Hcur Hdevs Hnext Hgrant Hpc Hsender Hrep r. subst r.
  wp_start (CallModal.switchCamera b) w.
  unfold CallModal.switchCamera.
  repeat first [ wp_step | wp_hyp ].
  rewrite Hmulti. cbn [negb].
  repeat first [ wp_step | wp_hyp ].
  rewrite Htracks. cbn [default from_option id]. rewrite Hcur. cbn [mbind option_bind].
  repeat first [ wp_step | wp_hyp ].
  rewrite lookup_insert_eq. cbn [default from_option id].
  rewrite Hpc. cbn [mbind option_bind].
  repeat first [ wp_step | wp_hyp ].
  split; [reflexivity|]. split; [by rewrite <- !app_assoc|].
  split; [reflexivity|].
  split; [|split; reflexivity || apply lookup_insert_eq].
  rewrite lookup_insert_ne by lia. exact Htracks.
Qed.

Lemma refused_replacement_keeps_new_camera_on_witness :
  let r := CallModal.switchCamera Refusing.noReplace Scenario.twoCameras in
  streams r.2 !! 0%nat = Some [Scenario.mic; Scenario.front] ∧
  streams r.2 !! 1%nat = Some [Scenario.back] ∧
  stopped r.2 = stopped Scenario.twoCameras.
Proof.
  assert (Hpc : ∃ pc, CallModalState.peerConnection (cm Scenario.twoCameras) = Some pc ∧
                      findPosition CallModal.isVideoSender (RTCPeerConnection.senders pc)
                      = Some 1%nat).
  { vm_compute. eexists. split; reflexivity. }
  destruct Hpc as (pc & Hpc & Hsender).
  assert (Hfresh : (0 < mediaRequests Scenario.twoCameras)%nat) by (vm_compute; lia).
  destruct (refused_replacement_keeps_new_camera_on Refusing.noReplace Scenario.twoCameras
              0%nat [Scenario.mic; Scenario.front] Scenario.front
              [Scenario.mic0; Scenario.cam0; Scenario.cam1] Scenario.cam1
              [Scenario.back] pc 1%nat
              eq_refl eq_refl eq_refl Hfresh eq_refl eq_refl eq_refl eq_refl
              Hpc Hsender eq_refl)
    as (_ & _ & _ & H1 & H2 & H3).
  intros r. split; [exact H1|]. split; [exact H2|exact H3].
Defined.

(** ** The mute and camera buttons *)

Lemma elem_of_flip (d : gset nat) (t : MediaStreamTrack.t) (n : nat) :
  n ∈ Controls.flip d t ↔
  (n = MediaStreamTrack.id t ∧ n ∉ d) ∨ (n ≠ MediaStreamTrack.id t ∧ n ∈ d).
Proof.
  unfold Controls.flip. case_decide.
  - rewrite elem_of_difference, elem_of_singleton.
    destruct (decide (n = MediaStreamTrack.id t)) as [->|Hn]; tauto.
  - rewrite elem_of_union, elem_of_singleton.
    destruct (decide (n = MediaStreamTrack.id t)) as [->|Hn]; tauto.
Qed.

Lemma elem_of_foldl_flip (l : list MediaStreamTrack.t) (d : gset nat) (n : nat) :
  NoDup (MediaStreamTrack.id <$> l) →
  n ∈ foldl Controls.flip d l ↔
  (n ∈ (MediaStreamTrack.id <$> l) ∧ n ∉ d) ∨ ((n ∉ MediaStreamTrack.id <$> l) ∧ n ∈ d).
Proof.
  revert d. induction l as [|t l IH]; intros d Hnd.
  - cbn. rewrite elem_of_nil. tauto.
  - cbn [foldl]. rewrite fmap_cons in Hnd |- *. apply NoDup_cons in Hnd as [Ht Hnd].
    rewrite (IH _ Hnd), elem_of_flip, elem_of_cons.
    destruct (decide (n = MediaStreamTrack.id t)) as [->|Hn]; tauto.
Qed.

Lemma NoDup_filter_ids (P : MediaStreamTrack.t → Prop) `{∀ t, Decision (P t)}
    (l : list MediaStreamTrack.t) :
  NoDup (MediaStreamTrack.id <$> l) → NoDup (MediaStreamTrack.id <$> filter P l).
Proof.
  intros Hnd. eapply sublist_NoDup; [exact Hnd|]. apply fmap_sublist, sublist_filter.
Qed.

Lemma NoDup_ids_inj (l : list MediaStreamTrack.t) (t t' : MediaStreamTrack.t) :
  NoDup (MediaStreamTrack.id <$> l) → t ∈ l → t' ∈ l →
  MediaStreamTrack.id t = MediaStreamTrack.id t' → t = t'.
Proof.
  intros Hnd Ht Ht' E.
  apply list_elem_of_lookup in Ht as [i Hi], Ht' as [j Hj].
  assert (i = j); [|congruence].
  apply (NoDup_lookup _ i j (MediaStreamTrack.id t) Hnd);
    rewrite list_lookup_fmap; [rewrite Hi|rewrite Hj]; cbn; congruence.
Qed.

(** Flipping the tracks of one kind: a track of the stream is flipped if it
    is of that kind, and left as it is otherwise. *)
Lemma flip_filter (P : MediaStreamTrack.t → Prop) `{∀ t, Decision (P t)}
    (l : list MediaStreamTrack.t) (d : gset nat) (t : MediaStreamTrack.t) :
  NoDup (MediaStreamTrack.id <$> l) → t ∈ l →
  MediaStreamTrack.id t ∈ foldl Controls.flip d (filter P l) ↔
  (P t ∧ MediaStreamTrack.id t ∉ d) ∨ (¬ P t ∧ MediaStreamTrack.id t ∈ d).
Proof.
  intros Hnd Ht.
  rewrite elem_of_foldl_flip by (apply NoDup_filter_ids, Hnd).
  assert (Hin : MediaStreamTrack.id t ∈ (MediaStreamTrack.id <$> filter P l) ↔ P t).
  { rewrite list_elem_of_fmap. split.
    - intros (t' & E & Ht'). apply list_elem_of_filter in Ht' as [HP Ht'].
      by rewrite (NoDup_ids_inj l t t' Hnd Ht Ht' E).
    - intros HP. exists t. split; [reflexivity|]. by apply list_elem_of_filter. }
  rewrite Hin. tauto.
Qed.

(** X19.  The mute button and the microphone stay in step.  If the audio
    tracks of the local stream are disabled exactly when the button shows
    "muted", they still are after a press; a press changes what the button
    shows if and only if there is a local stream; and it touches no track
    that is not an audio track of that stream, nor the camera button. *)
Theorem toggleMute_keeps_button_and_microphone_in_step w c :
  Controls.distinctTracks w →
  Controls.muteShown w c →
  let c' := Controls.toggleMute w c in
  Controls.muteShown w c' ∧
  Controls.isMuted c'
    = match CallModalState.localStream (cm w) with
      | Some _ => negb (Controls.isMuted c)
      | None => Controls.isMuted c
      end ∧
  Controls.isCameraOff c' = Controls.isCameraOff c ∧
  (∀ stream t, CallModalState.localStream (cm w) = Some stream →
     t ∈ default [] (streams w !! stream) → ¬ Controls.isAudioTrack t →
     (MediaStreamTrack.id t ∈ Controls.disabled c' ↔ MediaStreamTrack.id t ∈ Controls.disabled c)).
Proof.
  intros Hnd Hshown c'. subst c'. unfold Controls.toggleMute.
  destruct (CallModalState.localStream (cm w)) as [localStream|] eqn:Hls.
  - specialize (Hnd localStream Hls).
    split; [|split; [reflexivity|split; [reflexivity|]]].
    + intros stream t Hs Ht. rewrite Hls in Hs. injection Hs as <-.
      cbn [Controls.disabled Controls.isMuted]. unfold Controls.audioTracks in *.
      pose proof Ht as Ht'. apply list_elem_of_filter in Ht' as [Haudio Hin].
      rewrite (flip_filter _ _ _ t Hnd Hin).
      specialize (Hshown localStream t Hls Ht).
      destruct (Controls.isMuted c); cbn [negb]; split.
      * intros [[_ Hno]|[Hno _]]; [|done]. exfalso. apply Hno, Hshown. reflexivity.
      * discriminate.
      * reflexivity.
      * intros _. left. split; [exact Haudio|]. intros Hd. apply Hshown in Hd. discriminate.
    + intros stream t Hs Ht Hna. injection Hs as <-.
      cbn [Controls.disabled]. unfold Controls.audioTracks.
      rewrite (flip_filter _ _ _ t Hnd Ht). tauto.
  - split; [exact Hshown|]. split; [reflexivity|]. split; [reflexivity|].
    intros stream t Hs. discriminate Hs.
Qed.

Lemma toggleMute_keeps_button_and_microphone_in_step_witness :
  let c' := Controls.toggleMute (world Scenario.aliceCalling)
              (Controls.initial Scenario.aliceProps) in
  Controls.muteShown (world Scenario.aliceCalling) c' ∧ Controls.isMuted c' = true.
Proof.
  assert (Hnd : Controls.distinctTracks (world Scenario.aliceCalling)).
  { intros stream Hs. apply (bool_decide_unpack _). vm_compute in Hs.
    injection Hs as <-. vm_compute. exact I. }
  assert (Hshown : Controls.muteShown (world Scenario.aliceCalling)
                     (Controls.initial Scenario.aliceProps)).
  { intros stream t _ _. cbn. rewrite elem_of_empty. split; [tauto|discriminate]. }
  destruct (toggleMute_keeps_button_and_microphone_in_step (world Scenario.aliceCalling)
              (Controls.initial Scenario.aliceProps) Hnd Hshown) as (H1 & H2 & _).
  intros c'. split; [exact H1|exact H2].
Defined.

(** X20.  The camera button and the camera stay in step in a video call,
    and the button does nothing in an audio call.  If the video tracks of
    the local stream are disabled exactly when the button shows "camera
    off", they still are after a press; in an audio call, or with no local
    stream, a press changes nothing at all; and no press touches a track
    that is not a video track of that stream, nor the mute button. *)
Theorem toggleVideo_keeps_button_and_camera_in_step props w c :
  Controls.distinctTracks w →
  Controls.cameraShown w c →
  let c' := Controls.toggleVideo props w c in
  Controls.cameraShown w c' ∧
  (CallModalProps.isVideo props = false ∨ CallModalState.localStream (cm w) = None → c' = c) ∧
  (CallModalProps.isVideo props = true → is_Some (CallModalState.localStream (cm w)) →
     Controls.isCameraOff c' = negb (Controls.isCameraOff c)) ∧
  Controls.isMuted c' = Controls.isMuted c ∧
  (∀ stream t, CallModalState.localStream (cm w) = Some stream →
     t ∈ default [] (streams w !! stream) → ¬ isVideoTrack t →
     (MediaStreamTrack.id t ∈ Controls.disabled c' ↔ MediaStreamTrack.id t ∈ Controls.disabled c)).
Proof.
  intros Hnd Hshown c'. subst c'. unfold Controls.toggleVideo.
  destruct (CallModalState.localStream (cm w)) as [localStream|] eqn:Hls;
    [destruct (CallModalProps.isVideo props) eqn:Hv|].
  - specialize (Hnd localStream Hls).
    split; [|split; [|split; [reflexivity|split; [reflexivity|]]]].
    + intros stream t Hs Ht. rewrite Hls in Hs. injection Hs as <-.
      cbn [Controls.disabled Controls.isCameraOff]. unfold Controls.videoTracks in *.
      pose proof Ht as Ht'. apply list_elem_of_filter in Ht' as [Hvideo Hin].
      rewrite (flip_filter _ _ _ t Hnd Hin).
      specialize (Hshown localStream t Hls Ht).
      destruct (Controls.isCameraOff c); cbn [negb]; split.
      * intros [[_ Hno]|[Hno _]]; [|done]. exfalso. apply Hno, Hshown. reflexivity.
      * discriminate.
      * reflexivity.
      * intros _. left. split; [exact Hvideo|]. intros Hd. apply Hshown in Hd. discriminate.
    + intros [H|H]; discriminate H.
    + intros stream t Hs Ht Hnv. injection Hs as <-.
      cbn [Controls.disabled]. unfold Controls.videoTracks.
      rewrite (flip_filter _ _ _ t Hnd Ht). tauto.
  - split; [exact Hshown|]. split; [reflexivity|]. split; [discriminate|].
    split; [reflexivity|]. reflexivity.
  - split; [exact Hshown|]. split; [reflexivity|].
    split; [intros _ [x Hx]; discriminate Hx|]. split; reflexivity.
Qed.

Lemma toggleVideo_keeps_button_and_camera_in_step_witness :
  let c' := Controls.toggleVideo Scenario.aliceProps (world Scenario.aliceCalling)
              (Controls.initial Scenario.aliceProps) in
  Controls.cameraShown (world Scenario.aliceCalling) c' ∧ Controls.isCameraOff c' = true.
Proof.
  assert (Hnd : Controls.distinctTracks (world Scenario.aliceCalling)).
  { intros stream Hs. apply (bool_decide_unpack _). vm_compute in Hs.
    injection Hs as <-. vm_compute. exact I. }
  assert (Hshown : Controls.cameraShown (world Scenario.aliceCalling)
                     (Controls.initial Scenario.aliceProps)).
  { intros stream t _ _. cbn. rewrite elem_of_empty. split; [tauto|discriminate]. }
  destruct (toggleVideo_keeps_button_and_camera_in_step Scenario.aliceProps
              (world Scenario.aliceCalling) (Controls.initial Scenario.aliceProps)
              Hnd Hshown) as (H1 & _ & H2 & _).
  intros c'. split; [exact H1|]. apply H2; [reflexivity|]. vm_compute. eauto.
Defined.

(** ** Saving the profile *)

(** X21.  [handleSave] on an editable profile with a signed-in account
    never throws and always ends with the loading flag off.  The modal is
    closed by it exactly when both writes were accepted; otherwise one
    alert is shown.  The two writes are not undone: when the account was
    updated and the database then refused, the account keeps the new name
    and photo while the store is unchanged. *)
Theorem handleSave_outcome s props w account :
  ProfileModal.isEditable props = true →
  ProfileModal.currentUser w = Some account →
  let r := ProfileModal.handleSave s props w in
  let name := ProfileModal.displayName w in
  let photo := ProfileModal.photoOrNull (ProfileModal.photoURL w) in
  r.1 = Ok tt ∧
  ProfileModal.isLoading r.2 = false ∧
  ProfileModal.closed r.2
    = ProfileModal.closed w
      || (ProfileModal.updateProfileOk s && ProfileModal.updateOk s) ∧
  ProfileModal.alerts r.2
    = ProfileModal.alerts w
      ++ (if ProfileModal.updateProfileOk s && ProfileModal.updateOk s then []
          else ["Failed to update profile."]) ∧
  ProfileModal.currentUser r.2
    = (if ProfileModal.updateProfileOk s
       then Some (ProfileModal.mkAccount (Some name) photo)
       else Some account) ∧
  (ProfileModal.updateProfileOk s && ProfileModal.updateOk s = false →
   ProfileModal.store r.2 = ProfileModal.store w).
Proof.
  intros He Hu r name photo. subst r name photo.
  unfold ProfileModal.handleSave. rewrite He, Hu.
  destruct s as [[] []]; destruct w; cbn in *; subst;
    rewrite ?app_nil_r, ?orb_true_r, ?orb_false_r; repeat split; discriminate.
Qed.

Lemma handleSave_outcome_witness :
  let r := ProfileModal.handleSave Saving.databaseDown Saving.own Saving.editing in
  ProfileModal.closed r.2 = false ∧
  ProfileModal.alerts r.2 = ["Failed to update profile."] ∧
  ProfileModal.currentUser r.2 = Some (ProfileModal.mkAccount (Some "Alice L.") None) ∧
  ProfileModal.store r.2 = ProfileModal.store Saving.editing.
Proof.
  destruct (handleSave_outcome Saving.databaseDown Saving.own Saving.editing
              (ProfileModal.mkAccount (Some "Alice") (Some "https://example.org/a.png"))
              eq_refl eq_refl) as (_ & _ & H1 & H2 & H3 & H4).
  intros r. split; [exact H1|]. split; [exact H2|]. split; [exact H3|].
  apply H4. reflexivity.
Defined.

Lemma prefix_cons_inv_head (a b : string) (p q : Path) :
  (a :: p) `prefix_of` (b :: q) → a = b ∧ p `prefix_of` q.
Proof. intros [k Hk]. injection Hk as -> ->. split; [reflexivity|]. by exists k. Qed.

Lemma prefix_nil_inv (p : Path) : p `prefix_of` [] → p = [].
Proof. intros [k Hk]. symmetry in Hk. by apply app_eq_nil in Hk as [-> _]. Qed.

(** A write to one field of a node leaves the other fields of the node, and
    what is below them, as they were. *)
Lemma lookup_sibling (uid k f : string) (p : Path) (v : DbValue) (st : Store) :
  k ≠ f →
  db_set ["users"; uid; f] v st !! ("users" :: uid :: k :: p)
  = st !! ("users" :: uid :: k :: p).
Proof.
  intros Hk.
  assert (Hno : ¬ (["users"; uid; f] `prefix_of` "users" :: uid :: k :: p ∨
                   ("users" :: uid :: k :: p) `prefix_of` ["users"; uid; f])).
  { intros [H|H];
      apply prefix_cons_inv_head in H as [_ H];
      apply prefix_cons_inv_head in H as [_ H];
      apply prefix_cons_inv_head in H as [E _]; congruence. }
  destruct v; [unfold db_set; rewrite lookup_db_remove; rewrite decide_False by tauto; done|..];
    (rewrite lookup_db_set by discriminate;
     rewrite decide_False by congruence; rewrite decide_False by exact Hno; reflexivity).
Qed.

(** X22.  A successful save writes the two fields [displayName] and
    [photoURL] of the user's node, and removes [photoURL] when the photo is
    empty.  Every other field of the node, the inbox with a pending
    invitation among them, is left as it was. *)
Theorem handleSave_writes_two_fields s props w account :
  ProfileModal.isEditable props = true →
  ProfileModal.currentUser w = Some account →
  ProfileModal.updateProfileOk s = true →
  ProfileModal.updateOk s = true →
  let st := ProfileModal.store (ProfileModal.handleSave s props w).2 in
  let uid := UserProfile.uid (ProfileModal.user props) in
  st !! ["users"; uid; "displayName"] = Some (VStr (ProfileModal.displayName w)) ∧
  st !! ["users"; uid; "photoURL"]
    = (if truthy (ProfileModal.photoURL w) then Some (VStr (ProfileModal.photoURL w))
       else None) ∧
  (∀ k p, k ≠ "displayName" → k ≠ "photoURL" →
     st !! ("users" :: uid :: k :: p) = ProfileModal.store w !! ("users" :: uid :: k :: p)).
Proof.
  intros He Hu Hs1 Hs2 st uid. subst st uid.
  unfold ProfileModal.handleSave. rewrite He, Hu.
  destruct s as [a b]. cbn in Hs1, Hs2. subst a b.
  destruct w as [name photo loading cu st closed alerts errors]. cbn in Hu. subst cu.
  set (uid := UserProfile.uid (ProfileModal.user props)).
  match goal with |- context [ProfileModal.store ?r] =>
    assert (Hrun : ProfileModal.store r
      = db_set ["users"; uid; "photoURL"]
          (match ProfileModal.photoOrNull photo with Some p => VStr p | None => VNull end)
          (db_set ["users"; uid; "displayName"] (VStr name) st)) by reflexivity;
    rewrite Hrun; clear Hrun end.
  unfold ProfileModal.photoOrNull. cbn [ProfileModal.displayName ProfileModal.photoURL
                                        ProfileModal.store].
  split; [|split].
  - rewrite (lookup_sibling uid "displayName" "photoURL" []) by discriminate.
    rewrite lookup_db_set by discriminate. rewrite decide_True by reflexivity. reflexivity.
  - destruct (truthy photo).
    + rewrite lookup_db_set by discriminate. rewrite decide_True by reflexivity. reflexivity.
    + unfold db_set at 1. rewrite lookup_db_remove. rewrite decide_True by reflexivity.
      reflexivity.
  - intros k p Hk1 Hk2. rewrite !lookup_sibling by congruence. reflexivity.
Qed.

Lemma handleSave_writes_two_fields_witness :
  let st := ProfileModal.store
              (ProfileModal.handleSave Saving.allUp Saving.own Saving.editing).2 in
  st !! ["users"; "alice"; "photoURL"] = None ∧
  st !! ["users"; "alice"; "incomingCall"] = Some (VCall Scenario.invitation).
Proof.
  destruct (handleSave_writes_two_fields Saving.allUp Saving.own Saving.editing
              (ProfileModal.mkAccount (Some "Alice") (Some "https://example.org/a.png"))
              eq_refl eq_refl eq_refl eq_refl) as (_ & H1 & H2).
  intros st. split; [exact H1|].
  subst st. etrans; [apply (H2 "incomingCall" []); discriminate|].
  vm_compute. reflexivity.
Defined.

(** ** The profile of a new user *)

Lemma truthy_nonempty (s : string) : truthy s = true ↔ s ≠ "".
Proof.
  unfold truthy. rewrite negb_true_iff, bool_decide_eq_false. reflexivity.
Qed.

Lemma js_or_else_nonempty (a : option string) (b : string) :
  b ≠ "" → js_or_else a b ≠ "".
Proof.
  intros Hb. unfold js_or_else. destruct a as [s|]; [|exact Hb].
  destruct (truthy s) eqn:Hs; [|exact Hb]. by apply truthy_nonempty.
Qed.

(** X23.  The profile written at the first sign-in always has a name: the
    name of the account if it has one, else what stands before the [@] of
    its e-mail address if that is not empty, else "User".  It carries the
    uid of the account, and its photo is either absent or not empty. *)
Theorem new_profile_has_a_name (user : AuthUser.t) (now : Z) :
  let p := NewProfile.initial user now in
  NewProfile.displayName p ≠ "" ∧
  NewProfile.uid p = AuthUser.uid user ∧
  NewProfile.photoURL p ≠ Some "" ∧
  (∀ name, AuthUser.displayName user = Some name → name ≠ "" →
     NewProfile.displayName p = name) ∧
  (∀ email, AuthUser.displayName user = None → AuthUser.email user = Some email →
     NewProfile.displayName p = (if truthy (beforeAt email) then beforeAt email else "User")).
Proof.
  intros p. subst p. unfold NewProfile.initial. cbn.
  split; [apply js_or_else_nonempty; discriminate|].
  split; [reflexivity|].
  split.
  { unfold js_or. destruct (AuthUser.photoURL user) as [s|]; [|discriminate].
    destruct (truthy s) eqn:Hs; [|discriminate].
    apply truthy_nonempty in Hs. congruence. }
  split.
  - intros name -> Hname. apply truthy_nonempty in Hname.
    unfold js_or, js_or_else. rewrite Hname. cbn. rewrite Hname. reflexivity.
  - intros email -> ->. reflexivity.
Qed.

Lemma new_profile_has_a_name_witness :
  NewProfile.displayName (NewProfile.initial SignIn.dave 1700000000000) = "dave".
Proof.
  exact (proj2 (proj2 (proj2 (proj2
    (new_profile_has_a_name SignIn.dave 1700000000000))))
    "dave@example.org" eq_refl eq_refl).
Defined.

(** ** The id of a chat *)

Lemma sort2_comm (a b : string) : Chat.sort2 a b = Chat.sort2 b a.
Proof.
  unfold Chat.sort2, String.ltb.
  rewrite (String.compare_antisym b a).
  destruct (String.compare a b) eqn:E; cbn; try reflexivity.
  apply String.compare_eq_iff in E. by subst.
Qed.

(** X24.  Both users of a chat compute the same chat id, whoever opens the
    chat, and the side bar and the chat window compute the same id for the
    same partner. *)
Theorem chat_id_is_shared (a b : UserProfile.t) :
  UserProfile.uid a ≠ Chat.AI_BOT_ID →
  UserProfile.uid b ≠ Chat.AI_BOT_ID →
  Chat.getChatId a (UserProfile.uid b) = Chat.getChatId b (UserProfile.uid a) ∧
  Chat.chatId a (Some b) = Some (Chat.getChatId a (UserProfile.uid b)) ∧
  Chat.chatId a (Some b) = Chat.chatId b (Some a).
Proof.
  intros Ha Hb.
  assert (H : Chat.getChatId a (UserProfile.uid b) = Chat.getChatId b (UserProfile.uid a)).
  { unfold Chat.getChatId.
    rewrite !bool_decide_eq_false_2 by assumption. by rewrite sort2_comm. }
  split; [exact H|]. split; [reflexivity|].
  change (Some (Chat.getChatId a (UserProfile.uid b))
          = Some (Chat.getChatId b (UserProfile.uid a))).
  by rewrite H.
Qed.

Lemma chat_id_is_shared_witness :
  Chat.getChatId Scenario.bob "alice" = "alice_bob" ∧
  Chat.getChatId Scenario.alice "bob" = "alice_bob".
Proof.
  destruct (chat_id_is_shared Scenario.alice Scenario.bob) as (H & _ & _);
    [discriminate|discriminate|].
  split; [|vm_compute; reflexivity].
  etrans; [symmetry; exact H|]. vm_compute. reflexivity.
Defined.

Lemma underscoreFree_cons c s :
  Chat.underscoreFree (String c s) = true → c ≠ underscore ∧ Chat.underscoreFree s = true.
Proof.
  cbn. intros H. apply andb_true_iff in H as [Hc Hs]. split; [|exact Hs].
  apply negb_true_iff, Ascii.eqb_neq in Hc. exact Hc.
Qed.

Lemma append_underscore_inj (a b c d : string) :
  Chat.underscoreFree a = true → Chat.underscoreFree c = true →
  a +:+ "_" +:+ b = c +:+ "_" +:+ d → a = c ∧ b = d.
Proof.
  revert c. induction a as [|x a IH]; intros [|y c] Ha Hc E; simpl in E.
  - injection E as E. done.
  - injection E as E _. apply underscoreFree_cons in Hc as [Hy _]. by destruct Hy.
  - injection E as E _. apply underscoreFree_cons in Ha as [Hx _]. by destruct Hx.
  - injection E as -> E.
    apply underscoreFree_cons in Ha as [_ Ha], Hc as [_ Hc].
    destruct (IH c Ha Hc E) as [-> ->]. done.
Qed.

Lemma underscoreFree_not_bot (s : string) : Chat.underscoreFree s = true → s ≠ Chat.AI_BOT_ID.
Proof. intros H ->. discriminate H. Qed.

(** X25.  Two chats never share an id: for uids without [_] (as the uids
    of Firebase are), the chat id determines the pair of users. *)
Theorem chat_ids_do_not_collide (a c : UserProfile.t) (b d : string) :
  Chat.underscoreFree (UserProfile.uid a) = true →
  Chat.underscoreFree b = true →
  Chat.underscoreFree (UserProfile.uid c) = true →
  Chat.underscoreFree d = true →
  Chat.getChatId a b = Chat.getChatId c d →
  (UserProfile.uid a = UserProfile.uid c ∧ b = d) ∨
  (UserProfile.uid a = d ∧ b = UserProfile.uid c).
Proof.
  intros Ha Hb Hc Hd. unfold Chat.getChatId.
  rewrite !bool_decide_eq_false_2 by (by apply underscoreFree_not_bot).
  unfold Chat.sort2.
  destruct (String.ltb b (UserProfile.uid a)), (String.ltb d (UserProfile.uid c));
    cbn [Chat.join]; intros E; apply append_underscore_inj in E as [-> ->];
    auto.
Qed.

Lemma chat_ids_do_not_collide_witness :
  ("alice" = "bob" ∧ "bob" = "alice") ∨ ("alice" = "alice" ∧ "bob" = "bob").
Proof.
  exact (chat_ids_do_not_collide Scenario.alice Scenario.bob "bob" "alice"
           eq_refl eq_refl eq_refl eq_refl eq_refl).
Defined.

(** ** The id of a call *)

(** X26.  Two calls started by initiators get the same id only if they
    were started by the same user at the same millisecond (uids without
    [_]); a responder uses the id of its invitation. *)
Theorem call_ids_are_apart (props props' : CallModalProps.t) (now now' : Z) :
  CallModalProps.incomingCall props = None →
  CallModalProps.incomingCall props' = None →
  Chat.underscoreFree (UserProfile.uid (CallModalProps.currentUser props)) = true →
  Chat.underscoreFree (UserProfile.uid (CallModalProps.currentUser props')) = true →
  CallModal.callId props now = CallModal.callId props' now' →
  UserProfile.uid (CallModalProps.currentUser props)
    = UserProfile.uid (CallModalProps.currentUser props') ∧
  now = now'.
Proof.
  intros Hi Hi' Hu Hu'. unfold CallModal.callId. rewrite Hi, Hi'. intros E.
  apply append_underscore_inj in E as [E1 E2]; [|assumption..].
  split; [exact E1|]. by apply (inj pretty).
Qed.

Lemma call_ids_are_apart_witness :
  "alice" = "alice" ∧ 1700000000000%Z = 1700000000000%Z.
Proof.
  exact (call_ids_are_apart Scenario.aliceProps Scenario.aliceProps
           1700000000000 1700000000000 eq_refl eq_refl eq_refl eq_refl eq_refl).
Defined.

